(** * DiffuserCam / LenslessPiCam reconstruction core: a shallow embedding

    The development follows the Python sources

    - [lensless/apgd.py]          ([APGDPriors], [RealFFTConvolve2D], [APGD]),
    - [lensless/recon/tikhonov.py] ([bayer2rgb], [reconstruction]),
    - [lensless/recon/utils.py]    ([Trainer]).

    Floating-point arrays are read in exact arithmetic: a NumPy [float]
    is a real number of [R], a [complex] a pair of reals.  Python
    exceptions are values of [exn]; a method that mutates [self] returns
    its outcome together with the object after the call. *)

From Stdlib Require Import String Reals Lra Lia ZArith Bool Arith List.
From Stdlib Require Import FunctionalExtensionality.
Import ListNotations.
Open Scope R_scope.

Set Implicit Arguments.

(** ** Python outcomes *)

Inductive exn : Type :=
| ValueError | TypeError | AttributeError | AssertionError
| StopIteration | KeyError | IndexError.

Inductive res (A : Type) : Type :=
| Ok (a : A)
| Raise (e : exn).
Arguments Ok {A} a.
Arguments Raise {A} e.

Definition bind {A B} (r : res A) (k : A -> res B) : res B :=
  match r with Ok a => k a | Raise e => Raise e end.

Notation "x <- r ;; k" := (bind r (fun x => k))
  (at level 61, r at next level, right associativity).

(** ** Finite sums *)

Fixpoint Rsum (n : nat) (f : nat -> R) : R :=
  match n with
  | O => 0
  | S m => Rsum m f + f m
  end.

(** ** Complex numbers, as NumPy's [complex128] read exactly *)

Definition complex : Type := (R * R)%type.

Definition Cre (z : complex) : R := fst z.
Definition Cim (z : complex) : R := snd z.
Definition Czero : complex := (0, 0).
Definition Cone : complex := (1, 0).
Definition Cadd (a b : complex) : complex := (fst a + fst b, snd a + snd b).
Definition Cmul (a b : complex) : complex :=
  (fst a * fst b - snd a * snd b, fst a * snd b + snd a * fst b).
Definition Cconj (a : complex) : complex := (fst a, - snd a).
Definition Cscale (r : R) (a : complex) : complex := (r * fst a, r * snd a).

Fixpoint Csum (n : nat) (f : nat -> complex) : complex :=
  match n with
  | O => Czero
  | S m => Cadd (Csum m f) (f m)
  end.

(** [cis t] is [exp (i t)]. *)
Definition cis (t : R) : complex := (cos t, sin t).

(** The twiddle factor [exp (sgn * 2 pi i j k / n)]; the forward
    transforms use [sgn = -1], the inverse ones [sgn = 1]. *)
Definition twiddle (sgn : R) (n j k : nat) : complex :=
  cis (sgn * (2 * PI * INR (j * k) / INR n)).

(** ** Three-dimensional arrays (height, width, channels) *)

Record ndarray (T : Type) : Type := NdArray {
  shape : nat * nat * nat;
  item : nat -> nat -> nat -> T
}.

Definition zeros (shp : nat * nat * nat) : ndarray R :=
  NdArray shp (fun _ _ _ => 0).

Definition size3 (shp : nat * nat * nat) : nat :=
  let '(h, w, c) := shp in (h * w * c)%nat.

(** [np.reshape(x, shp)] of a flat vector, C order; the sizes must agree. *)
Definition reshape (x : list R) (shp : nat * nat * nat) : res (ndarray R) :=
  let '(h, w, c) := shp in
  if (length x =? h * w * c)%nat
  then Ok (NdArray shp (fun i j k => nth ((i * w + j) * c + k) x 0))
  else Raise ValueError.

(** [a.ravel()], C order. *)
Definition ravel (a : ndarray R) : list R :=
  let '(h, w, c) := shape a in
  flat_map (fun i =>
    flat_map (fun j => map (fun k => item a i j k) (seq 0 c)) (seq 0 w))
    (seq 0 h).

Definition in_window (s e : nat * nat) (i j : nat) : bool :=
  (fst s <=? i)%nat && (i <? fst e)%nat &&
  (snd s <=? j)%nat && (j <? snd e)%nat.

(** Shape of the slice [a[s0:e0, s1:e1]]: NumPy clamps the bounds. *)
Definition slice_shape (shp : nat * nat * nat) (s e : nat * nat)
  : nat * nat * nat :=
  let '(n0, n1, c) := shp in
  ((Nat.min (fst e) n0 - Nat.min (fst s) n0)%nat,
   (Nat.min (snd e) n1 - Nat.min (snd s) n1)%nat, c).

(** [a[s0:e0, s1:e1] = v] for a [v] of the shape of the slice. *)
Definition set_window (a : ndarray R) (s e : nat * nat) (v : ndarray R)
  : res (ndarray R) :=
  let '(h, w, c) := slice_shape (shape a) s e in
  let '(vh, vw, vc) := shape v in
  if ((h =? vh) && (w =? vw) && (c =? vc))%nat
  then Ok (NdArray (shape a)
             (fun i j k =>
                if in_window s e i j
                then item v (i - fst s) (j - snd s) k
                else item a i j k))
  else Raise ValueError.

(** [a[s0:e0, s1:e1]] *)
Definition slice (a : ndarray R) (s e : nat * nat) : ndarray R :=
  NdArray (slice_shape (shape a) s e)
          (fun i j k => item a (fst s + i) (snd s + j) k).

(** ** The [scipy.fft] routines used by the operator *)

(** The transform of [fft.rfft2] for one channel: a real transform along
    axis 1 (length [n1]), then a complex transform along axis 0 (length
    [n0]). *)
Definition dft2 (n0 n1 : nat) (a : nat -> nat -> R) (k0 k1 : nat) : complex :=
  Csum n0 (fun j0 =>
    Cmul (twiddle (-1) n0 j0 k0)
         (Csum n1 (fun j1 => Cscale (a j0 j1) (twiddle (-1) n1 j1 k1)))).

(** [fft.rfft2(a, axes=(0, 1))]: of the transform along axis 1 the
    [n1 / 2 + 1] non-negative frequencies are kept. *)
Definition rfft2 (a : ndarray R) : ndarray complex :=
  let '(n0, n1, c) := shape a in
  NdArray (n0, (n1 / 2 + 1)%nat, c)
    (fun k0 k1 ch => dft2 n0 n1 (fun j0 j1 => item a j0 j1 ch) k0 k1).

(** The inverse complex transform of length [n0]. *)
Definition idft (n0 : nat) (Z : nat -> complex) (j0 : nat) : complex :=
  Cscale (/ INR n0) (Csum n0 (fun k0 => Cmul (Z k0) (twiddle 1 n0 j0 k0))).

(** The sign [(-1)^k]. *)
Definition pm (k : nat) : R := if Nat.even k then 1 else -1.

(** The complex-to-real transform of [m] columns into [2 * (m - 1)] reals:
    it reads column 0 as the zero frequency, column [m - 1] as the Nyquist
    frequency (their imaginary parts are dropped) and the columns in
    between twice, for both signs of the frequency. *)
Definition c2r (m : nat) (W : nat -> complex) (j1 : nat) : R :=
  let n1 := (2 * (m - 1))%nat in
  / INR n1 *
  (Cre (W O)
   + Rsum (m - 2) (fun k => 2 * Cre (Cmul (W (S k)) (twiddle 1 n1 j1 (S k))))
   + pm j1 * Cre (W (m - 1)%nat)).

(** [fft.irfft2(z, axes=(0, 1))] without [s]: the output has
    [2 * (m - 1)] columns for an input of [m] columns.  An inverse complex
    transform along axis 0 is followed by the complex-to-real transform
    along axis 1. *)
Definition irfft2 (z : ndarray complex) : res (ndarray R) :=
  let '(n0, m, c) := shape z in
  let n1 := (2 * (m - 1))%nat in
  if (n1 <? 1)%nat then Raise ValueError
  else Ok (NdArray (n0, n1, c)
    (fun j0 j1 ch =>
       c2r m (fun k1 => idft n0 (fun k0 => item z k0 k1 ch) j0) j1)).

(** [fft.ifftshift(a, axes=(0, 1))]: each axis of length [n] is rolled by
    [-(n // 2)], so that position [j] reads position [recentred n j]. *)
Definition recentred (n j : nat) : nat := ((j + n / 2) mod n)%nat.

Definition ifftshift (a : ndarray R) : ndarray R :=
  let '(n0, n1, c) := shape a in
  NdArray (shape a)
    (fun i j k => item a (recentred n0 i) (recentred n1 j) k).

(** Elementwise product of two complex arrays of one shape. *)
Definition cmul (a b : ndarray complex) : res (ndarray complex) :=
  let '(a0, a1, a2) := shape a in
  let '(b0, b1, b2) := shape b in
  if ((a0 =? b0) && (a1 =? b1) && (a2 =? b2))%nat
  then Ok (NdArray (shape a) (fun i j k => Cmul (item a i j k) (item b i j k)))
  else Raise ValueError.

(** [np.conj] *)
Definition conj (a : ndarray complex) : ndarray complex :=
  NdArray (shape a) (fun i j k => Cconj (item a i j k)).

(** [scipy.fftpack.next_fast_len]: the smallest 5-smooth number that is at
    least [target]; a negative target is a [ValueError]. *)
Fixpoint strip (fuel p n : nat) : nat :=
  match fuel with
  | O => n
  | S f => if ((n mod p =? 0) && (1 <? n))%nat then strip f p (n / p) else n
  end.

Definition regular (n : nat) : bool :=
  (strip n 5 (strip n 3 (strip n 2 n)) =? 1)%nat.

Fixpoint search_regular (fuel m : nat) : nat :=
  match fuel with
  | O => m
  | S f => if regular m then m else search_regular f (S m)
  end.

Definition next_fast_len (target : Z) : res nat :=
  if (target <? 0)%Z then Raise ValueError
  else Ok (search_regular (Z.to_nat target) (Z.to_nat target)).

(** ** [RealFFTConvolve2D] (lensless/apgd.py) *)

Module RealFFTConvolve2D.

Record t : Type := Build {
  _filter_shape : nat * nat * nat;
  _n_channels : nat;
  _padded_shape : nat * nat * nat;
  _start_idx : nat * nat;
  _end_idx : nat * nat;
  _H : ndarray complex;
  _Hadj : ndarray complex;
  _padded_data : ndarray R;
  (* shape of the linear operator, set by the base class *)
  op_shape : nat * nat
}.

Definition with_padded_data (self : t) (d : ndarray R) : t :=
  Build (_filter_shape self) (_n_channels self) (_padded_shape self)
        (_start_idx self) (_end_idx self) (_H self) (_Hadj self) d
        (op_shape self).

(** The part of [__init__] that fixes the padding and cropping indices. *)
Definition padding (filter_shape : nat * nat * nat)
  : res ((nat * nat * nat) * (nat * nat) * (nat * nat)) :=
  let '(h, w, c) := filter_shape in
  p0 <- next_fast_len (2 * Z.of_nat h - 1) ;;
  p1 <- next_fast_len (2 * Z.of_nat w - 1) ;;
  let start := (((p0 - h) / 2)%nat, ((p1 - w) / 2)%nat) in
  let stop := ((fst start + h)%nat, (snd start + w)%nat) in
  Ok ((p0, p1, c), start, stop).

Definition pad_with (padded_shape : nat * nat * nat) (s e : nat * nat)
  (v : ndarray R) : res (ndarray R) :=
  set_window (zeros padded_shape) s e v.

Definition _pad (self : t) (v : ndarray R) : res (ndarray R) :=
  pad_with (_padded_shape self) (_start_idx self) (_end_idx self) v.

Definition _crop (self : t) (x : ndarray R) : ndarray R :=
  slice x (_start_idx self) (_end_idx self).

Definition __init__ (filter : ndarray R) : res t :=
  let filter_shape := shape filter in
  let n_channels := snd filter_shape in
  pse <- padding filter_shape ;;
  let '(padded_shape, start, stop) := pse in
  fp <- pad_with padded_shape start stop filter ;;
  let H := rfft2 fp in
  Ok (Build filter_shape n_channels padded_shape start stop
            H (conj H) (zeros padded_shape)
            (size3 filter_shape, size3 filter_shape)).

(** The computation shared by [__call__] and [adjoint] once the padded
    buffer is filled: transform, multiply by the frequency response,
    transform back, re-centre, crop and flatten. *)
Definition filtered (self : t) (padded : ndarray R) (response : ndarray complex)
  : res (list R) :=
  p <- cmul (rfft2 padded) response ;;
  z <- irfft2 p ;;
  Ok (ravel (_crop self (ifftshift z))).

(** A method returns its outcome and the object after the call: the write
    into [_padded_data] happens before the transforms and stays when a
    later step raises. *)
Definition __call__ (self : t) (x : list R) : res (list R) * t :=
  match reshape x (_filter_shape self) with
  | Raise e => (Raise e, self)
  | Ok xr =>
    match set_window (_padded_data self) (_start_idx self) (_end_idx self) xr with
    | Raise e => (Raise e, self)
    | Ok d =>
      let self' := with_padded_data self d in
      (filtered self' (_padded_data self') (_H self'), self')
    end
  end.

Definition adjoint (self : t) (y : list R) : res (list R) * t :=
  match reshape y (_filter_shape self) with
  | Raise e => (Raise e, self)
  | Ok yr =>
    match set_window (_padded_data self) (_start_idx self) (_end_idx self) yr with
    | Raise e => (Raise e, self)
    | Ok d =>
      let self' := with_padded_data self d in
      (filtered self' (_padded_data self') (_Hadj self'), self')
    end
  end.

(** The same two computations on a freshly zeroed canvas ([_pad]). *)
Definition call_fresh (self : t) (x : list R) : res (list R) :=
  xr <- reshape x (_filter_shape self) ;;
  p <- _pad self xr ;;
  filtered self p (_H self).

Definition adjoint_fresh (self : t) (y : list R) : res (list R) :=
  yr <- reshape y (_filter_shape self) ;;
  p <- _pad self yr ;;
  filtered self p (_Hadj self).

(** Sequences of invocations on one instance. *)
Inductive invocation : Type :=
| Call (x : list R)
| Adjoint (y : list R).

Definition invoke (self : t) (c : invocation) : res (list R) * t :=
  match c with
  | Call x => __call__ self x
  | Adjoint y => adjoint self y
  end.

Definition run (self : t) (cs : list invocation) : t :=
  fold_left (fun s c => snd (invoke s c)) cs self.

(** Entries outside the window: never written. *)
Definition clean (self : t) : Prop :=
  forall i j k,
    in_window (_start_idx self) (_end_idx self) i j = false ->
    item (_padded_data self) i j k = 0.

End RealFFTConvolve2D.

(** Inner product of two flat vectors. *)
Fixpoint dot (u v : list R) : R :=
  match u, v with
  | a :: u', b :: v' => a * b + dot u' v'
  | _, _ => 0
  end.

(** ** [APGDPriors] and the penalties of Pycsou (lensless/apgd.py) *)

Module APGDPriors.
Definition L2 : string := "l2".
Definition NONNEG : string := "nonneg".
Definition L1 : string := "l1".
End APGDPriors.

(** Functionals of [pycsou.func.penalty]; [Scaled w f] is [w * f]. *)
Inductive functional : Type :=
| SquaredL2Norm (dim : nat)
| L1Norm (dim : nat)
| NonNegativeOrthant (dim : nat)
| UserFunctional (name : string) (dim : nat)
| Scaled (weight : R) (f : functional).

(** [f.shape[1]] *)
Fixpoint functional_dim (f : functional) : nat :=
  match f with
  | SquaredL2Norm d | L1Norm d | NonNegativeOrthant d | UserFunctional _ d => d
  | Scaled _ g => functional_dim g
  end.

(** What a caller may pass as [diff_penalty] or [prox_penalty]: [None], a
    string, a callable (a functional class; [construct dim] is the outcome
    of calling it with [dim=dim]) or any other object. *)
Inductive penalty_arg : Type :=
| PNone
| PStr (s : string)
| PCallable (has_jacobianT : bool) (construct : nat -> res functional)
| PObject (has_jacobianT : bool).

(** [p == s] for a string constant [s]. *)
Definition penalty_eqb (p : penalty_arg) (s : string) : bool :=
  match p with
  | PStr s' => String.eqb s' s
  | _ => false
  end.

(** [hasattr(p, "jacobianT")] *)
Definition has_jacobianT (p : penalty_arg) : bool :=
  match p with
  | PCallable b _ | PObject b => b
  | PNone | PStr _ => false
  end.

(** [p(dim=dim)]: calling what is not callable is a [TypeError]. *)
Definition call_penalty (p : penalty_arg) (dim : nat) : res functional :=
  match p with
  | PCallable _ construct => construct dim
  | PNone | PStr _ | PObject _ => Raise TypeError
  end.

(** An instance attribute that an [__init__] may leave unassigned. *)
Inductive attr (A : Type) : Type :=
| Unassigned
| Assigned (a : A).
Arguments Unassigned {A}.
Arguments Assigned {A} a.

Definition getattr {A} (a : attr A) : res A :=
  match a with
  | Assigned v => Ok v
  | Unassigned => Raise AttributeError
  end.

(** ** Pycsou's APGD, the external solver wrapped by [APGD] *)

Record iterand_t : Type := Iterand {
  iterand : list R;
  past_aux : list R;
  past_t : R
}.

(** The smooth part [F = 1/2 * SquaredL2Loss(data) * H + diff_penalty]. *)
Record objective : Type := Objective {
  loss_dim : nat;
  loss_data : list R;
  forward_op : RealFFTConvolve2D.t;
  diff_term : option functional
}.

Record APGD_pyc : Type := ApgdPyc {
  dim : nat;
  F : objective;
  G : option functional;
  acceleration : option string;
  iter : nat;
  init_iterand : iterand_t;
  cur_iterand : option iterand_t;
  old_iterand : option iterand_t
}.

(** The generator returned by [iterates(n)]: it resets the algorithm when
    first resumed and then yields after each of [n] iterations. *)
Record generator : Type := Generator {
  remaining : nat;
  started : bool
}.

(** An image: a flat buffer viewed with a shape. *)
Record image : Type := Image {
  im_shape : nat * nat * nat;
  im_data : list R
}.

(** Configuration of an [APGD] solver (the arguments of [__init__]). *)
Record apgd_config : Type := ApgdConfig {
  cfg_psf : ndarray R;
  cfg_max_iter : nat;
  cfg_diff_penalty : penalty_arg;
  cfg_prox_penalty : penalty_arg;
  cfg_acceleration : option string;
  cfg_diff_lambda : R;
  cfg_prox_lambda : R
}.

Module APGD.

Record t : Type := Build {
  _original_shape : nat * nat * nat;
  _original_size : nat;
  _apgd : option APGD_pyc;
  _gen : option generator;
  _psf : ndarray R;
  _is_rgb : bool;
  _image_est : list R;
  _max_iter : nat;
  _H : RealFFTConvolve2D.t;
  _diff_penalty : option functional;
  _prox_penalty : attr (option functional);
  _acc : option string;
  _data : option (ndarray R)
}.

Definition with_iterates (self : t) (a : option APGD_pyc)
  (g : option generator) : t :=
  Build (_original_shape self) (_original_size self) a g (_psf self)
        (_is_rgb self) (_image_est self) (_max_iter self) (_H self)
        (_diff_penalty self) (_prox_penalty self) (_acc self) (_data self).

Definition with_image_est (self : t) (v : list R) : t :=
  Build (_original_shape self) (_original_size self) (_apgd self) (_gen self)
        (_psf self) (_is_rgb self) v (_max_iter self) (_H self)
        (_diff_penalty self) (_prox_penalty self) (_acc self) (_data self).

Definition with_data (self : t) (d : ndarray R) : t :=
  Build (_original_shape self) (_original_size self) (_apgd self) (_gen self)
        (_psf self) (_is_rgb self) (_image_est self) (_max_iter self)
        (_H self) (_diff_penalty self) (_prox_penalty self) (_acc self)
        (Some d).

Section Solver.

(** The numerical rule of Pycsou's [APGD.update_iterand]: a gradient step
    on [F], the proximal step of [G] and the momentum extrapolation of the
    chosen acceleration, as a function of the iteration number and the
    current iterand.  The development is parametric in it. *)
Variable update_iterand :
  objective -> option functional -> option string -> nat ->
  iterand_t -> iterand_t.

(** [APGD_pyc(dim=dim, F=F, G=G, acceleration=acc)], started from zero. *)
Definition pyc_init (d : nat) (f : objective) (g : option functional)
  (acc : option string) : APGD_pyc :=
  let x0 := repeat 0 d in
  ApgdPyc d f g acc O (Iterand x0 x0 1) None None.

(** [self._apgd.reset()] *)
Definition pyc_reset (a : APGD_pyc) : APGD_pyc :=
  ApgdPyc (dim a) (F a) (G a) (acceleration a) O (init_iterand a) None
          (old_iterand a).

Definition pyc_set_old (a : APGD_pyc) (o : option iterand_t) : APGD_pyc :=
  ApgdPyc (dim a) (F a) (G a) (acceleration a) (iter a) (init_iterand a)
          (cur_iterand a) o.

(** One [iterate()]: at iteration 0 the rule starts from [init_iterand]. *)
Definition pyc_iterate (a : APGD_pyc) : APGD_pyc :=
  let x := match iter a, cur_iterand a with
           | S _, Some c => c
           | _, _ => init_iterand a
           end in
  ApgdPyc (dim a) (F a) (G a) (acceleration a) (S (iter a)) (init_iterand a)
          (Some (update_iterand (F a) (G a) (acceleration a) (iter a) x))
          (cur_iterand a).

(** [next(self._gen)] on the solver the generator was made from. *)
Definition next (a : APGD_pyc) (g : generator)
  : res unit * APGD_pyc * generator :=
  let a1 := if started g then a else pyc_reset a in
  match remaining g with
  | O => (Raise StopIteration, a1, Generator O true)
  | S r => (Ok tt, pyc_iterate a1, Generator r true)
  end.

(** [reset]: lines 228--236. *)
Definition reset (self : t) : t :=
  let self1 := with_image_est self (repeat 0 (_original_size self)) in
  match _apgd self1 with
  | None => self1
  | Some a =>
    let a1 := pyc_reset a in
    let a2 := pyc_set_old a1 (Some (init_iterand a1)) in
    with_iterates self1 (Some a2) (Some (Generator (_max_iter self1) false))
  end.

(** Modelled from the spec: the constructor of the base class
    [ReconstructionAlgorithm] (lensless/recon, not among the sources).  It
    stores the PSF, a three-dimensional array, and the data type, and calls
    [reset], which creates the zero iterand. *)
Definition base_init (self : t) : t := reset self.

(** [__init__]: the outcome and what was printed. *)
Definition __init__ (cfg : apgd_config) : res t * list string :=
  let psf := cfg_psf cfg in
  match RealFFTConvolve2D.__init__ psf with
  | Raise e => (Raise e, [])
  | Ok H =>
    let n := snd (RealFFTConvolve2D.op_shape H) in
    let diff :=
      match cfg_diff_penalty cfg with
      | PNone => Ok None
      | p =>
        if penalty_eqb p APGDPriors.L2
        then Ok (Some (Scaled (cfg_diff_lambda cfg) (SquaredL2Norm n)))
        else if has_jacobianT p
             then f <- call_penalty p n ;;
                  Ok (Some (Scaled (cfg_diff_lambda cfg) f))
             else Raise AssertionError
      end in
    match diff with
    | Raise e => (Raise e, [])
    | Ok dp =>
      let self0 :=
        base_init
          (Build (shape psf) (size3 (shape psf)) None None psf true []
                 (cfg_max_iter cfg) H dp Unassigned (cfg_acceleration cfg)
                 None) in
      let finish (pp : attr (option functional)) (out : list string) :=
        (Ok (Build (_original_shape self0) (_original_size self0)
                   (_apgd self0) (_gen self0) (_psf self0) (_is_rgb self0)
                   (_image_est self0) (_max_iter self0) (_H self0)
                   (_diff_penalty self0) pp (_acc self0) (_data self0)),
         out) in
      match cfg_prox_penalty cfg with
      | PNone => finish (Assigned None) []
      | p =>
        if penalty_eqb p APGDPriors.L1
        then finish (Assigned (Some (Scaled (cfg_prox_lambda cfg) (L1Norm n)))) []
        else if penalty_eqb p APGDPriors.NONNEG
        then finish (Assigned (Some (Scaled (cfg_prox_lambda cfg)
                                       (NonNegativeOrthant n)))) []
        else
          match call_penalty p n with
          | Ok f => finish (Assigned (Some (Scaled (cfg_prox_lambda cfg) f))) []
          | Raise ValueError => finish Unassigned ["Unexpected prior."%string]
          | Raise e => (Raise e, [])
          end
      end
    end
  end.

(** [set_data]: lines 189--226.  The measurement is three-dimensional, as
    the PSF. *)
Definition set_data (self : t) (data : ndarray R) : res t :=
  if negb (_is_rgb self) then Raise AssertionError
  else
    let self1 := with_data self data in
    let loss := Objective (fst (RealFFTConvolve2D.op_shape (_H self1)))
                          (ravel data) (_H self1) (_diff_penalty self1) in
    pp <- getattr (_prox_penalty self1) ;;
    let d := match pp with
             | Some g => functional_dim g
             | None => size3 (shape data)
             end in
    let a := pyc_init d loss pp (_acc self1) in
    let a1 := pyc_set_old a (Some (init_iterand a)) in
    Ok (with_iterates self1 (Some a1)
          (Some (Generator (_max_iter self1) false))).

(** [self._image_est[:] = v]: a copy into the buffer; [v] has the length of
    the buffer or is broadcast from length one. *)
Definition assign_all (buf v : list R) : res (list R) :=
  if (length v =? length buf)%nat then Ok v
  else match v with
       | [a] => Ok (repeat a (length buf))
       | _ => Raise ValueError
       end.

(** [_update]: lines 248--250. *)
Definition _update (self : t) : res unit * t :=
  match _gen self, _apgd self with
  | Some g, Some a =>
    let '(r, a', g') := next a g in
    let self1 := with_iterates self (Some a') (Some g') in
    match r with
    | Raise e => (Raise e, self1)
    | Ok _ =>
      match cur_iterand a' with
      | None => (Raise TypeError, self1)
      | Some it =>
        match assign_all (_image_est self1) (iterand it) with
        | Raise e => (Raise e, self1)
        | Ok v => (Ok tt, with_image_est self1 v)
        end
      end
    end
  | _, _ => (Raise TypeError, self)
  end.

(** [image[image < 0] = 0] *)
Definition clip_negative (v : list R) : list R :=
  map (fun r => if Rlt_dec r 0 then 0 else r) v.

(** [_form_image]: lines 252--255.  The reshape is a view of
    [_image_est], so the clipping is written into the buffer. *)
Definition _form_image (self : t) : res image * t :=
  if (length (_image_est self) =? size3 (_original_shape self))%nat
  then
    let v := clip_negative (_image_est self) in
    (Ok (Image (_original_shape self) v), with_image_est self v)
  else (Raise ValueError, self).

(** Modelled from the spec: [apply] of the base class
    [ReconstructionAlgorithm] (not among the sources) runs [_update]
    [n_iter] times and returns [_form_image ()]. *)
Fixpoint updates (n : nat) (self : t) : res unit * t :=
  match n with
  | O => (Ok tt, self)
  | S m =>
    match _update self with
    | (Ok _, self') => updates m self'
    | (Raise e, self') => (Raise e, self')
    end
  end.

Definition apply (n_iter : nat) (self : t) : res image * t :=
  match updates n_iter self with
  | (Ok _, self') => _form_image self'
  | (Raise e, self') => (Raise e, self')
  end.

(** Method calls on a solver with bound data. *)
Inductive method : Type :=
| MApply (n_iter : nat)
| MUpdate
| MFormImage
| MReset.

Definition perform (self : t) (m : method) : t :=
  match m with
  | MApply n => snd (apply n self)
  | MUpdate => snd (_update self)
  | MFormImage => snd (_form_image self)
  | MReset => reset self
  end.

Definition history (self : t) (ms : list method) : t :=
  fold_left perform ms self.

End Solver.

(** The invariant of the image buffer. *)
Definition sized (self : t) : Prop :=
  length (_image_est self) = _original_size self /\
  _original_size self = size3 (_original_shape self).

(** The generator of the solver has at least [n] iterations left. *)
Definition supplied (n : nat) (self : t) : Prop :=
  exists g a, _gen self = Some g /\ _apgd self = Some a /\ (n <= remaining g)%nat.

(** Two solvers bound to the same problem: everything but the iterand
    state agrees. *)
Definition bound_as (s1 s : t) : Prop :=
  _original_shape s = _original_shape s1 /\
  _original_size s = _original_size s1 /\
  _psf s = _psf s1 /\ _is_rgb s = _is_rgb s1 /\
  _max_iter s = _max_iter s1 /\ _H s = _H s1 /\
  _diff_penalty s = _diff_penalty s1 /\
  _prox_penalty s = _prox_penalty s1 /\
  _acc s = _acc s1 /\ _data s = _data s1 /\
  exists a a1,
    _apgd s = Some a /\ _apgd s1 = Some a1 /\
    dim a = dim a1 /\ F a = F a1 /\ G a = G a1 /\
    acceleration a = acceleration a1 /\ init_iterand a = init_iterand a1.

End APGD.

(** ** The closed-form solver (lensless/recon/tikhonov.py) *)

(** A float that may be [inf] or [nan] ([0 / 0] in a normalisation, a
    diverged gradient). *)
Inductive fl : Type :=
| Num (r : R)
| PInf
| NaN.

(** Two-dimensional and one-dimensional arrays. *)
Record matrix : Type := Mat {
  nrows : nat;
  ncols : nat;
  mentry : nat -> nat -> R
}.

Record vector : Type := Vec {
  vlen : nat;
  ventry : nat -> R
}.

(** [M.T] *)
Definition transpose (M : matrix) : matrix :=
  Mat (ncols M) (nrows M) (fun i j => mentry M j i).

(** [np.diag(v)] *)
Definition diag (v : vector) : matrix :=
  Mat (vlen v) (vlen v) (fun i j => if (i =? j)%nat then ventry v i else 0).

(** [np.zeros([r, c])] and [np.full((r, c), x)] *)
Definition mzeros (r c : nat) : matrix := Mat r c (fun _ _ => 0).
Definition full (r c : nat) (x : R) : matrix := Mat r c (fun _ _ => x).

(** [np.concatenate((A, B))], along axis 0. *)
Definition concatenate (A B : matrix) : res matrix :=
  if (ncols A =? ncols B)%nat
  then Ok (Mat (nrows A + nrows B) (ncols A)
             (fun i j => if (i <? nrows A)%nat then mentry A i j
                         else mentry B (i - nrows A) j))
  else Raise ValueError.

(** [np.square(v)] and [np.outer(a, b)] *)
Definition square (v : vector) : vector :=
  Vec (vlen v) (fun i => ventry v i * ventry v i).

Definition outer (a b : vector) : matrix :=
  Mat (vlen a) (vlen b) (fun i j => ventry a i * ventry b j).

(** [A @ B] *)
Definition matmul (A B : matrix) : res matrix :=
  if (ncols A =? nrows B)%nat
  then Ok (Mat (nrows A) (ncols B)
             (fun i j => Rsum (ncols A) (fun k => mentry A i k * mentry B k j)))
  else Raise ValueError.

(** [multi_dot([A1, ..., Ak])]: the chained product (the order of the
    products does not change the exact result). *)
Fixpoint multi_dot_from (acc : matrix) (l : list matrix) : res matrix :=
  match l with
  | [] => Ok acc
  | B :: l' => p <- matmul acc B ;; multi_dot_from p l'
  end.

Definition multi_dot (l : list matrix) : res matrix :=
  match l with
  | [] => Raise ValueError
  | A :: l' => multi_dot_from A l'
  end.

(** NumPy broadcasting of an axis of length one. *)
Definition bdim (a b : nat) : res nat :=
  if (a =? b)%nat then Ok a
  else if (a =? 1)%nat then Ok b
  else if (b =? 1)%nat then Ok a
  else Raise ValueError.

Definition bidx (n i : nat) : nat := if (n =? 1)%nat then O else i.

Definition broadcast2 (op : R -> R -> R) (A B : matrix) : res matrix :=
  r <- bdim (nrows A) (nrows B) ;;
  c <- bdim (ncols A) (ncols B) ;;
  Ok (Mat r c (fun i j =>
        op (mentry A (bidx (nrows A) i) (bidx (ncols A) j))
           (mentry B (bidx (nrows B) i) (bidx (ncols B) j)))).

Definition madd : matrix -> matrix -> res matrix := broadcast2 Rplus.
Definition mdiv : matrix -> matrix -> res matrix := broadcast2 Rdiv.

(** [Y[:, :, c]] *)
Definition channel (Y : ndarray R) (c : nat) : res matrix :=
  let '(h, w, n) := shape Y in
  if (c <? n)%nat then Ok (Mat h w (fun i j => item Y i j c))
  else Raise IndexError.

(** [a.min()], [a.max()]: an empty array has neither. *)
Definition amin (a : ndarray R) : res R :=
  match ravel a with
  | [] => Raise ValueError
  | x :: l => Ok (fold_left Rmin l x)
  end.

Definition amax (a : ndarray R) : res R :=
  match ravel a with
  | [] => Raise ValueError
  | x :: l => Ok (fold_left Rmax l x)
  end.

(** Lines 38--41 of [bayer2rgb]: the RGB array before normalisation. *)
Definition demosaic (X_bayer : ndarray R) : res (ndarray R) :=
  let '(h, w, n) := shape X_bayer in
  if (n <? 4)%nat then Raise IndexError
  else Ok (NdArray (h, w, 3%nat)
             (fun i j k =>
                match k with
                | 2%nat => item X_bayer i j 0%nat
                | 1%nat => 0.5 * (item X_bayer i j 1%nat + item X_bayer i j 2%nat)
                | _ => item X_bayer i j 3%nat
                end)).

(** Lines 43--44: [(X - X.min()) / (X.max() - X.min())]. *)
Definition normalize01 (X : ndarray R) : res (ndarray fl) :=
  lo <- amin X ;;
  hi <- amax X ;;
  Ok (NdArray (shape X)
        (fun i j k =>
           if Req_dec_T hi lo then NaN
           else Num ((item X i j k - lo) / (hi - lo)))).

Definition bayer2rgb (X_bayer : ndarray R) (normalize : bool)
  : res (ndarray fl) :=
  X_rgb <- demosaic X_bayer ;;
  if normalize then normalize01 X_rgb
  else Ok (NdArray (shape X_rgb) (fun i j k => Num (item X_rgb i j k))).

(** [X.clip(min=0)] *)
Definition clip0 (X : ndarray R) : ndarray R :=
  NdArray (shape X) (fun i j k => Rmax (item X i j k) 0).

Section Reconstruction.

(** [np.linalg.svd(M, full_matrices=True)], returning [(U, S, Vh)]. *)
Variable svd : matrix -> matrix * vector * matrix.

(** The body of the loop of [reconstruction] for the channel [Yc]. *)
Definition reconstruction_channel (Yc P Q : matrix) (lmbd : R) : res matrix :=
  (* SVD of left matrix *)
  let '(UL, SL, VLh) := svd P in
  let VL := transpose VLh in
  DL <- concatenate (diag SL) (mzeros (nrows P - vlen SL) (vlen SL)) ;;
  let singLsq := square SL in
  (* SVD of right matrix *)
  let '(UR, SR, VRh) := svd Q in
  let VR := transpose VRh in
  DR <- concatenate (diag SR) (mzeros (nrows Q - vlen SR) (vlen SR)) ;;
  let singRsq := square SR in
  (* analytical reconstruction *)
  num <- multi_dot [transpose DL; transpose UL; Yc; UR; DR] ;;
  den <- madd (outer singLsq singRsq) (full (ncols P) (ncols Q) lmbd) ;;
  inner <- mdiv num den ;;
  multi_dot [VL; inner; transpose VR].

(** [X_bayer] before the clipping: the four channels, each of the shape
    [(P.shape[1], Q.shape[1])] of the buffer it is written into. *)
Definition solve_channels (Y : ndarray R) (P Q : matrix) (lmbd : R)
  : res (ndarray R) :=
  let solve c :=
    Yc <- channel Y c ;;
    Xc <- reconstruction_channel Yc P Q lmbd ;;
    if ((nrows Xc =? ncols P) && (ncols Xc =? ncols Q))%nat then Ok Xc
    else Raise ValueError in
  X0 <- solve 0%nat ;;
  X1 <- solve 1%nat ;;
  X2 <- solve 2%nat ;;
  X3 <- solve 3%nat ;;
  Ok (NdArray (ncols P, ncols Q, 4%nat)
        (fun i j c =>
           match c with
           | 0%nat => mentry X0 i j
           | 1%nat => mentry X1 i j
           | 2%nat => mentry X2 i j
           | _ => mentry X3 i j
           end)).

Definition reconstruction (Y : ndarray R) (P Q : matrix) (lmbd : R)
  : res (ndarray fl) :=
  X_bayer <- solve_channels Y P Q lmbd ;;
  bayer2rgb (clip0 X_bayer) true.

End Reconstruction.

(** ** The training loop (lensless/recon/utils.py, class [Trainer]) *)

Definition isnan (x : fl) : bool :=
  match x with NaN => true | _ => false end.

(** Arithmetic on floats that may be [nan]; [inf] does not occur in it. *)
Definition fl_lift2 (op : R -> R -> R) (a b : fl) : fl :=
  match a, b with
  | Num x, Num y => Num (op x y)
  | _, _ => NaN
  end.

(** [a < b] *)
Definition fl_ltb (a b : fl) : bool :=
  match a, b with
  | Num x, Num y => if Rlt_dec x y then true else false
  | Num _, PInf => true
  | _, _ => false
  end.

(** A [torch] parameter: its value, its accumulated gradient, its flag. *)
Record parameter : Type := TorchParam {
  p_data : list fl;
  p_grad : option (list fl);
  p_requires_grad : bool
}.

(** The values of the metrics dictionary. *)
Inductive mvalue : Type :=
| VList (l : list fl)
| VInt (n : nat)
| VStr (s : string)
| VNone
| VFloat (x : fl).

(** A Python [dict] with string keys, in insertion order. *)
Definition dict (V : Type) : Type := list (string * V).

Fixpoint dict_get {V} (d : dict V) (k : string) : res V :=
  match d with
  | [] => Raise KeyError
  | (k', v) :: d' => if String.eqb k' k then Ok v else dict_get d' k
  end.

Fixpoint dict_set {V} (d : dict V) (k : string) (v : V) : dict V :=
  match d with
  | [] => [(k, v)]
  | (k', v') :: d' =>
    if String.eqb k' k then (k', v) :: d' else (k', v') :: dict_set d' k v
  end.

Definition dict_keys {V} (d : dict V) : list string := map fst d.

(** [d[k].append(x)] *)
Definition dict_append (d : dict mvalue) (k : string) (x : fl)
  : res (dict mvalue) :=
  v <- dict_get d k ;;
  match v with
  | VList l => Ok (dict_set d k (VList (l ++ [x])))
  | _ => Raise AttributeError
  end.

Module Trainer.

Record config : Type := Config {
  cfg_recon : list parameter;
  cfg_n_iter : nat;
  cfg_has_test_dataset : bool;
  cfg_mask : option (list parameter);
  cfg_loss : string;
  cfg_lpips : option R;
  cfg_l1_mask : option R;
  cfg_skip_NAN : bool;
  cfg_algorithm_name : string;
  cfg_metric_for_best_model : option string;
  cfg_clip_grad : option R
}.

Record t : Type := Build {
  recon : list parameter;
  has_test_dataset : bool;
  lpips : option R;
  skip_NAN : bool;
  mask : option (list parameter);
  use_mask : bool;
  l1_mask : option R;
  clip_grad_norm : option R;
  metrics : dict mvalue;
  (* whether [detect_nan] hooks were registered on the parameters *)
  nan_hooks : bool;
  printed : list string
}.

Definition with_params (self : t) (r : list parameter)
  (m : option (list parameter)) : t :=
  Build r (has_test_dataset self) (lpips self) (skip_NAN self) m
        (use_mask self) (l1_mask self) (clip_grad_norm self) (metrics self)
        (nan_hooks self) (printed self).

Definition with_metrics (self : t) (d : dict mvalue) : t :=
  Build (recon self) (has_test_dataset self) (lpips self) (skip_NAN self)
        (mask self) (use_mask self) (l1_mask self) (clip_grad_norm self) d
        (nan_hooks self) (printed self).

Definition print (self : t) (msg : string) : t :=
  Build (recon self) (has_test_dataset self) (lpips self) (skip_NAN self)
        (mask self) (use_mask self) (l1_mask self) (clip_grad_norm self)
        (metrics self) (nan_hooks self) (printed self ++ [msg]).

(** The metrics dictionary created by [__init__], lines 431--447. *)
Definition initial_metrics (n_iter : nat) (algorithm_name : string)
  (metric_for_best_model : option string) : dict mvalue :=
  [ ("LOSS", VList []);
    ("MSE", VList []);
    ("MAE", VList []);
    ("LPIPS_Vgg", VList []);
    ("LPIPS_Alex", VList []);
    ("PSNR", VList []);
    ("SSIM", VList []);
    ("ReconstructionError", VList []);
    ("n_iter", VInt n_iter);
    ("algorithm", VStr algorithm_name);
    ("metric_for_best_model",
       match metric_for_best_model with Some m => VStr m | None => VNone end);
    ("best_epoch", VInt 0);
    ("best_eval_score",
       match metric_for_best_model with
       | Some m => if (String.eqb m "PSNR" || String.eqb m "SSIM")%bool
                   then VFloat (Num 0) else VFloat PInf
       | None => VFloat PInf
       end) ]%string.

Definition __init__ (cfg : config) : res t :=
  if negb (String.eqb (cfg_loss cfg) "l2" || String.eqb (cfg_loss cfg) "l1")
  then Raise ValueError
  else
    let m := initial_metrics (cfg_n_iter cfg) (cfg_algorithm_name cfg)
                             (cfg_metric_for_best_model cfg) in
    checked <- match cfg_metric_for_best_model cfg with
               | Some k =>
                 if existsb (String.eqb k) (dict_keys m) then Ok tt
                 else Raise AssertionError
               | None => Ok tt
               end ;;
    Ok (Build (cfg_recon cfg) (cfg_has_test_dataset cfg) (cfg_lpips cfg)
              (cfg_skip_NAN cfg) (cfg_mask cfg)
              (match cfg_mask cfg with Some _ => true | None => false end)
              (cfg_l1_mask cfg) (cfg_clip_grad cfg) m
              (negb (cfg_skip_NAN cfg)) []).

(** [torch.isnan(g).any()] *)
Definition has_nan (g : list fl) : bool := existsb isnan g.

(** [param.grad is not None and torch.isnan(param.grad).any()] for some
    parameter of the list (the loops with [break] of lines 609--616). *)
Definition any_grad_nan (ps : list parameter) : bool :=
  existsb (fun p => match p_grad p with
                    | Some g => has_nan g
                    | None => false
                    end) ps.

(** [None.parameters()] is an [AttributeError]. *)
Definition mask_parameters (m : option (list parameter))
  : res (list parameter) :=
  match m with
  | Some ps => Ok ps
  | None => Raise AttributeError
  end.

Section Loop.

(** The collaborators of the loop, outside the sources: the batches, the
    forward and backward pass (the loss and the gradient it contributes to
    each parameter of the model and of the mask), gradient clipping, the
    optimizer, the update of the mask and the benchmark. *)
Variable batch : Type.
Variable forward_backward :
  list parameter -> option (list parameter) -> batch ->
  fl * list (option (list fl)) * list (option (list fl)).
Variable clip_grad_norm_ : list parameter -> R -> list parameter.
Variable optimizer_step : list parameter -> list parameter.
Variable update_mask : list parameter -> list parameter.
Variable benchmark : list parameter -> dict R.

(** [backward()] accumulates into [.grad]. *)
Definition accumulate (p : parameter) (g : option (list fl)) : parameter :=
  match g with
  | None => p
  | Some new =>
    TorchParam (p_data p)
      (Some (match p_grad p with
             | None => new
             | Some old => map (fun ab => fl_lift2 Rplus (fst ab) (snd ab))
                               (combine old new)
             end))
      (p_requires_grad p)
  end.

Fixpoint accumulate_all (ps : list parameter) (gs : list (option (list fl)))
  : list parameter :=
  match ps, gs with
  | p :: ps', g :: gs' => accumulate p g :: accumulate_all ps' gs'
  | _, _ => ps
  end.

(** The [detect_nan] hook of a parameter sees the incoming gradient. *)
Definition hook_fires (ps : list parameter) (gs : list (option (list fl)))
  : bool :=
  existsb (fun pg => p_requires_grad (fst pg) &&
                     match snd pg with Some g => has_nan g | None => false end)
          (combine ps gs).

(** [optimizer.zero_grad(set_to_none=True)] *)
Definition zero_grad (ps : list parameter) : list parameter :=
  map (fun p => TorchParam (p_data p) None (p_requires_grad p)) ps.

(** What one pass through the body of the loop of [train_epoch] did. *)
Inductive step_outcome : Type :=
| Stepped (loss : fl)
| Skipped.

(** The body of the loop of [train_epoch], lines 537--641. *)
Definition train_step (self : t) (b : batch) : res step_outcome * t :=
  let '(loss_v, g_recon, g_mask) := forward_backward (recon self) (mask self) b in
  (* loss_v.backward() *)
  if nan_hooks self && hook_fires (recon self) g_recon
  then (Raise ValueError, self)
  else
    let self1 :=
      with_params self (accumulate_all (recon self) g_recon)
        (match mask self with
         | Some ps => Some (accumulate_all ps g_mask)
         | None => None
         end) in
    (* check mask parameters are learning *)
    let learning :=
      if use_mask self1
      then match mask_parameters (mask self1) with
           | Ok ps =>
             if forallb (fun p => match p_grad p with
                                  | Some _ => true | None => false end) ps
             then Ok tt else Raise AssertionError
           | Raise e => Raise e
           end
      else Ok tt in
    match learning with
    | Raise e => (Raise e, self1)
    | Ok _ =>
      let clipped :=
        match clip_grad_norm self1 with
        | Some c =>
          match mask_parameters (mask self1) with
          | Ok ps =>
            Ok (with_params self1 (clip_grad_norm_ (recon self1) c)
                            (Some (clip_grad_norm_ ps c)))
          | Raise e => Raise e
          end
        | None => Ok self1
        end in
      match clipped with
      | Raise e => (Raise e, self1)
      | Ok self2 =>
        (* if any gradient is NaN, skip training step *)
        let check :=
          if skip_NAN self2
          then
            let recon_is_NAN := any_grad_nan (recon self2) in
            match mask_parameters (mask self2) with
            | Raise e => Raise e
            | Ok ps =>
              let mask_is_NAN := any_grad_nan ps in
              if recon_is_NAN || mask_is_NAN
              then
                let s := if recon_is_NAN
                         then print self2
                  "NAN detected in reconstruction gradient, skipping training step"
                         else self2 in
                let s := if mask_is_NAN
                         then print s
                  "NAN detected in mask gradient, skipping training step"
                         else s in
                Ok (true, s)
              else Ok (false, self2)
            end
          else Ok (false, self2) in
        match check with
        | Raise e => (Raise e, self2)
        | Ok (true, self3) => (Ok Skipped, self3)
        | Ok (false, self3) =>
          (* self.optimizer.step(); self.optimizer.zero_grad() *)
          let r := zero_grad (optimizer_step (recon self3)) in
          (* update mask *)
          let m := if use_mask self3
                   then match mask self3 with
                        | Some ps => Some (update_mask ps)
                        | None => None
                        end
                   else mask self3 in
          (Ok (Stepped loss_v), with_params self3 r m)
        end
      end
    end.

(** [train_epoch]: the loop over the batches with the running mean of the
    loss ([i] counts the batches from 1). *)
Fixpoint train_loop (self : t) (bs : list batch) (mean_loss : fl) (i : R)
  : res fl * t :=
  match bs with
  | [] => (Ok mean_loss, self)
  | b :: bs' =>
    match train_step self b with
    | (Raise e, self') => (Raise e, self')
    | (Ok Skipped, self') => train_loop self' bs' mean_loss (i + 1)
    | (Ok (Stepped loss_v), self') =>
      let mean_loss' :=
        fl_lift2 Rplus mean_loss
          (fl_lift2 Rmult (fl_lift2 Rminus loss_v mean_loss) (Num (1 / i))) in
      train_loop self' bs' mean_loss' (i + 1)
    end
  end.

Definition train_epoch (self : t) (data_loader : list batch) : res fl * t :=
  train_loop self data_loader (Num 0) 1.

(** The loop of lines 687--688; an append that raises leaves the earlier
    ones in place. *)
Fixpoint append_current (d : dict mvalue) (current : dict R)
  : res unit * dict mvalue :=
  match current with
  | [] => (Ok tt, d)
  | (k, v) :: rest =>
    match dict_append d k (Num v) with
    | Ok d' => append_current d' rest
    | Raise e => (Raise e, d)
    end
  end.

(** [evaluate], lines 660--707; writing the metrics file is not modelled.
    The mean absolute value of the mask parameters enters the returned
    loss through [mask_l1]. *)
Variable mask_l1 : list parameter -> R.

Definition evaluate (self : t) (mean_loss : fl) : res (option R) * t :=
  if negb (has_test_dataset self) then (Ok None, self)
  else
    let current_metrics := benchmark (recon self) in
    (* update metrics with current metrics *)
    match dict_append (metrics self) "LOSS" mean_loss with
    | Raise e => (Raise e, self)
    | Ok d0 =>
      match append_current d0 current_metrics with
      | (Raise e, d) => (Raise e, with_metrics self d)
      | (Ok _, d) =>
        let self1 := with_metrics self d in
        (* check best metric *)
        match dict_get d "metric_for_best_model" with
        | Ok VNone =>
          (mse <- dict_get current_metrics "MSE" ;;
           l <- match lpips self1 with
                | Some w => v <- dict_get current_metrics "LPIPS_Vgg" ;;
                            Ok (mse + w * v)
                | None => Ok mse
                end ;;
           Ok (Some (match use_mask self1, l1_mask self1, mask self1 with
                     | true, Some w, Some ps =>
                       if Req_dec_T w 0 then l else l + w * mask_l1 ps
                     | _, _, _ => l
                     end)),
           self1)
        | Ok (VStr k) => (v <- dict_get current_metrics k ;; Ok (Some v), self1)
        | Ok _ => (Raise TypeError, self1)
        | Raise e => (Raise e, self1)
        end
      end
    end.

(** [on_epoch_end], lines 724--749, without the saving of checkpoints. *)
Definition on_epoch_end (self : t) (mean_loss : fl) (epoch : nat)
  : res unit * t :=
  match evaluate self mean_loss with
  | (Raise e, self1) => (Raise e, self1)
  | (Ok None, self1) => (Raise TypeError, self1)
  | (Ok (Some epoch_eval_metric), self1) =>
    let d := metrics self1 in
    match dict_get d "metric_for_best_model", dict_get d "best_eval_score" with
    | Ok m, Ok (VFloat best) =>
      let higher_is_better :=
        match m with
        | VStr k => (String.eqb k "PSNR" || String.eqb k "SSIM")%bool
        | _ => false
        end in
      let new_best :=
        if higher_is_better then fl_ltb best (Num epoch_eval_metric)
        else fl_ltb (Num epoch_eval_metric) best in
      if new_best
      then
        let d1 := dict_set d "best_eval_score" (VFloat (Num epoch_eval_metric)) in
        let d2 := dict_set d1 "best_epoch" (VInt epoch) in
        (Ok tt, with_metrics self1 d2)
      else (Ok tt, self1)
    | Raise e, _ => (Raise e, self1)
    | _, Raise e => (Raise e, self1)
    | _, _ => (Raise TypeError, self1)
    end
  end.

(** The epochs of [train]: a training pass and the end-of-epoch
    bookkeeping, [epoch + 1] being passed to [on_epoch_end]. *)
Fixpoint train_from (self : t) (epoch : nat) (loaders : list (list batch))
  : res unit * t :=
  match loaders with
  | [] => (Ok tt, self)
  | data_loader :: rest =>
    match train_epoch self data_loader with
    | (Raise e, self1) => (Raise e, self1)
    | (Ok mean_loss, self1) =>
      match on_epoch_end self1 mean_loss (epoch + 1) with
      | (Raise e, self2) => (Raise e, self2)
      | (Ok _, self2) => train_from self2 (S epoch) rest
      end
    end
  end.

(** The states of a trainer reachable from [self] by training passes,
    evaluations and end-of-epoch calls, in any order. *)
Inductive reaches (self : t) : t -> Prop :=
| reaches_here : reaches self self
| reaches_train_epoch s bs :
    reaches self s -> reaches self (snd (train_epoch s bs))
| reaches_evaluate s mean_loss :
    reaches self s -> reaches self (snd (evaluate s mean_loss))
| reaches_on_epoch_end s mean_loss epoch :
    reaches self s -> reaches self (snd (on_epoch_end s mean_loss epoch)).

End Loop.

(** The names under which the benchmark reports, one value each. *)
Definition benchmark_names : list string :=
  ["MSE"; "MAE"; "LPIPS_Vgg"; "LPIPS_Alex"; "PSNR"; "SSIM";
   "ReconstructionError"]%string.

(** All list-valued entries of a metrics dictionary have one length. *)
Definition equal_lengths (d : dict mvalue) : Prop :=
  forall k1 l1 k2 l2,
    dict_get d k1 = Ok (VList l1) -> dict_get d k2 = Ok (VList l2) ->
    length l1 = length l2.

(** [d'] has the keys of [d], and each list of [d] is a prefix of the list
    under the same key in [d']. *)
Definition appended (d d' : dict mvalue) : Prop :=
  dict_keys d' = dict_keys d /\
  forall k l, dict_get d k = Ok (VList l) ->
              exists l', dict_get d' k = Ok (VList (l ++ l')).

(** The entries of the metrics dictionary that hold lists. *)
Definition tracked : list string := "LOSS"%string :: benchmark_names.

Definition metrics_inv (d : dict mvalue) (n : nat) : Prop :=
  (forall k, In k tracked ->
             exists l, dict_get d k = Ok (VList l) /\ length l = n) /\
  (forall k l, dict_get d k = Ok (VList l) -> In k tracked) /\
  (exists e, dict_get d "best_epoch" = Ok (VInt e)).

(** The benchmark reports one value under each of its names. *)
Definition reports (cur : dict R) : Prop :=
  NoDup (dict_keys cur) /\
  forall k, In k (dict_keys cur) <-> In k benchmark_names.

(** A trainer with [skip_NAN] and no mask, one parameter, and a backward
    pass that yields a NaN gradient. *)
Definition cfg_skip_nan_no_mask : config :=
  Config [TorchParam [Num 1] None true] 5 true None "l2" None None true
         "unrolled_admm" None None.

Definition nan_backward (r : list parameter) (m : option (list parameter))
  (b : unit) : fl * list (option (list fl)) * list (option (list fl)) :=
  (NaN, [Some [NaN]], []).

(** A benchmark that reports zero under each name. *)
Definition zero_benchmark (r : list parameter) : dict R :=
  map (fun k => (k, 0)) benchmark_names.

End Trainer.

(** ** Support of a proximal penalty, and sample inputs *)

(** A [prox_penalty] the constructor supports for the dimension [dim]:
    [None], ["l1"], ["nonneg"], or a functional class that can be
    instantiated. *)
Definition supported_prox (p : penalty_arg) (dim : nat) : bool :=
  match p with
  | PNone => true
  | PStr s => (String.eqb s APGDPriors.L1 || String.eqb s APGDPriors.NONNEG)%bool
  | PCallable _ construct =>
    match construct dim with Ok _ => true | Raise _ => false end
  | PObject _ => false
  end.

(** A PSF of one row and two columns, one channel. *)
Definition psf_1x2 : ndarray R :=
  NdArray (1, 2, 1)%nat
    (fun i j k => match j with O => 1 | _ => 0 end).

(** A functional class whose constructor rejects its argument. *)
Definition rejecting_penalty : penalty_arg :=
  PCallable false (fun _ => Raise ValueError).

Definition cfg_with_prox (p : penalty_arg) : apgd_config :=
  ApgdConfig psf_1x2 500 PNone p (Some "BT"%string) 0.001 0.001.

(** The configuration [cfg] with [prox_penalty=None] in place of its
    proximal penalty: its construction runs the steps of [__init__] before
    the proximal penalty and cannot fail after them. *)
Definition without_prox (cfg : apgd_config) : apgd_config :=
  ApgdConfig (cfg_psf cfg) (cfg_max_iter cfg) (cfg_diff_penalty cfg) PNone
             (cfg_acceleration cfg) (cfg_diff_lambda cfg) (cfg_prox_lambda cfg).

(** A rule that yields the same two-pixel iterand at every iteration. *)
Definition constant_rule (f : objective) (g : option functional)
  (a : option string) (k : nat) (x : iterand_t) : iterand_t :=
  Iterand [1; -2] [0; 0] 1.

(** ** The regularised least-squares problem of the closed-form solver *)

Definition delta (i j : nat) : R := if (i =? j)%nat then 1 else 0.

(** Products and transposes of tables of entries; [mm n A B] sums over an
    inner dimension [n]. *)
Definition mm (n : nat) (A B : nat -> nat -> R) : nat -> nat -> R :=
  fun i j => Rsum n (fun k => A i k * B k j).

Definition tr (A : nat -> nat -> R) : nat -> nat -> R := fun i j => A j i.

(** The rows, and the columns, of the leading [n x n] block are
    orthonormal. *)
Definition orthonormal_rows (n : nat) (M : nat -> nat -> R) : Prop :=
  forall a b, (a < n)%nat -> (b < n)%nat ->
              Rsum n (fun k => M a k * M b k) = delta a b.

Definition orthonormal_cols (n : nat) (M : nat -> nat -> R) : Prop :=
  forall a b, (a < n)%nat -> (b < n)%nat ->
              Rsum n (fun k => M k a * M k b) = delta a b.

(** What [np.linalg.svd(M, full_matrices=True)] returns for an [m x n]
    matrix: orthogonal [U] ([m x m]) and [Vh] ([n x n]) and the
    [min m n] singular values, with [M = U diag(S) Vh]. *)
Definition is_svd (M : matrix) (usv : matrix * vector * matrix) : Prop :=
  let '(U, Sv, Vh) := usv in
  let m := nrows M in
  let n := ncols M in
  nrows U = m /\ ncols U = m /\ vlen Sv = Nat.min m n /\
  nrows Vh = n /\ ncols Vh = n /\
  orthonormal_rows m (mentry U) /\ orthonormal_cols m (mentry U) /\
  orthonormal_rows n (mentry Vh) /\ orthonormal_cols n (mentry Vh) /\
  (forall a, (a < Nat.min m n)%nat -> 0 <= ventry Sv a) /\
  forall i j, (i < m)%nat -> (j < n)%nat ->
    mentry M i j
    = Rsum (Nat.min m n) (fun a => mentry U i a * ventry Sv a * mentry Vh a j).

(** [||P X Q^T - Y||_F^2 + lmbd ||X||_F^2] for an [X] of the shape
    [(P.shape[1], Q.shape[1])], given by its entries. *)
Definition tikhonov_objective (P Q Yc : matrix) (lmbd : R)
  (X : nat -> nat -> R) : R :=
  Rsum (nrows P) (fun i => Rsum (nrows Q) (fun j =>
    (Rsum (ncols P) (fun k => Rsum (ncols Q) (fun l =>
       mentry P i k * X k l * mentry Q j l)) - mentry Yc i j) ^ 2))
  + lmbd * Rsum (ncols P) (fun k => Rsum (ncols Q) (fun l => X k l ^ 2)).

(** [X] is the unique minimiser of the objective. *)
Definition is_tikhonov_solution (P Q Yc : matrix) (lmbd : R) (X : matrix)
  : Prop :=
  nrows X = ncols P /\ ncols X = ncols Q /\
  forall X' : nat -> nat -> R,
    tikhonov_objective P Q Yc lmbd (mentry X)
      <= tikhonov_objective P Q Yc lmbd X' /\
    (tikhonov_objective P Q Yc lmbd X'
       = tikhonov_objective P Q Yc lmbd (mentry X) ->
     forall k l, (k < ncols P)%nat -> (l < ncols Q)%nat ->
                 X' k l = mentry X k l).

(** Sample inputs: a wide row operator, with its decomposition, and
    one-by-one operators. *)
Definition identity_matrix (n : nat) : matrix := Mat n n delta.

Definition ones_vector (n : nat) : vector := Vec n (fun _ => 1).

Definition P_wide : matrix := Mat 2 3 delta.

Definition M_one : matrix := Mat 1 1 (fun _ _ => 1).

(** A decomposition routine that is right on the matrices with identity
    entries. *)
Definition svd_of_identities (M : matrix) : matrix * vector * matrix :=
  (identity_matrix (nrows M), ones_vector (Nat.min (nrows M) (ncols M)),
   identity_matrix (ncols M)).


(** The linear combination [a * x + b * y] of two flat vectors. *)
Definition axpby (a : R) (x : list R) (b : R) (y : list R) : list R :=
  map (fun p => a * fst p + b * snd p) (combine x y).

(** ** [rgb2bayer] (lensless/recon/tikhonov.py) *)

(** [a[s::2, t::2, ch]]: every second row from [s] and every second column
    from [t] of the channel [ch]. *)
Definition strided (a : ndarray R) (s t ch : nat) : res matrix :=
  let '(n0, n1, c) := shape a in
  if (ch <? c)%nat
  then Ok (Mat ((n0 - s + 1) / 2) ((n1 - t + 1) / 2)
             (fun i j => item a (s + 2 * i) (t + 2 * j) ch))
  else Raise IndexError.

(** [np.dstack((a, b, c, d))] of four two-dimensional arrays of one shape. *)
Definition dstack4 (a b c d : matrix) : res (ndarray R) :=
  if ((nrows b =? nrows a) && (ncols b =? ncols a) &&
      (nrows c =? nrows a) && (ncols c =? ncols a) &&
      (nrows d =? nrows a) && (ncols d =? ncols a))%nat
  then Ok (NdArray (nrows a, ncols a, 4%nat)
             (fun i j k =>
                match k with
                | 0%nat => mentry a i j
                | 1%nat => mentry b i j
                | 2%nat => mentry c i j
                | _ => mentry d i j
                end))
  else Raise ValueError.

Section Mosaic.

(** [lensless.utils.image.resize(img, shape=...)], outside the sources. *)
Variable resize : ndarray R -> nat * nat * nat -> ndarray R.

Definition rgb2bayer (img : ndarray R) : res (ndarray R) :=
  let '(height, width, _) := shape img in
  (* doubling the size of the image *)
  let resized := resize img ((height * 2)%nat, (width * 2)%nat, 3%nat) in
  (* separating each Bayer channel (blue, green, green, red) *)
  b <- strided resized 0 0 2 ;;
  gb <- strided resized 1 0 1 ;;
  gr <- strided resized 0 1 1 ;;
  r <- strided resized 1 1 0 ;;
  dstack4 b gb gr r.

End Mosaic.

(** The arithmetic mean of a list of losses. *)
Definition mean (ls : list R) : R :=
  fold_right Rplus 0 ls / INR (length ls).

(** Every stored gradient has the length of its parameter. *)
Definition grad_shaped (ps : list parameter) : Prop :=
  forall p g, In p ps -> p_grad p = Some g -> length g = length (p_data p).

(** The gradients [gs] of a backward pass have the lengths of the
    parameters [ps] they belong to. *)
Fixpoint shaped (ps : list parameter) (gs : list (option (list fl))) : Prop :=
  match ps, gs with
  | p :: ps', g :: gs' =>
    match g with
    | Some new => length new = length (p_data p)
    | None => True
    end /\ shaped ps' gs'
  | _, _ => True
  end.

(** ** The training loop: runs of the loop body *)

Section Runs.
Variable batch : Type.
Variable forward_backward :
  list parameter -> option (list parameter) -> batch ->
  fl * list (option (list fl)) * list (option (list fl)).
Variable clip_grad_norm_ : list parameter -> R -> list parameter.
Variable optimizer_step : list parameter -> list parameter.
Variable update_mask : list parameter -> list parameter.

(** The body of the loop of [train_epoch] performs an optimizer step on
    every batch of [bs], with the losses [ls], and ends in [s']. *)
Inductive steps_through : Trainer.t -> list batch -> list R -> Trainer.t -> Prop :=
| steps_nil s : steps_through s [] [] s
| steps_cons s b bs l ls s' :
    fst (Trainer.train_step forward_backward clip_grad_norm_ optimizer_step
                            update_mask s b) = Ok (Trainer.Stepped (Num l)) ->
    steps_through
      (snd (Trainer.train_step forward_backward clip_grad_norm_ optimizer_step
                               update_mask s b)) bs ls s' ->
    steps_through s (b :: bs) (l :: ls) s'.

(** What the backward pass and the clipping are taken to do in
    [torch]: a gradient has the shape of its parameter; clipping leaves the
    values of the parameters alone, keeps the shapes of the gradients and
    cannot remove a NaN (it multiplies every gradient by one
    coefficient). *)
Definition backward_shaped : Prop :=
  forall ps m b,
    shaped ps (snd (fst (forward_backward ps m b))) /\
    forall mps, m = Some mps -> shaped mps (snd (forward_backward ps m b)).

Definition clipping_scales : Prop :=
  forall ps c,
    map p_data (clip_grad_norm_ ps c) = map p_data ps /\
    (grad_shaped ps -> grad_shaped (clip_grad_norm_ ps c)) /\
    (Trainer.any_grad_nan ps = true ->
     Trainer.any_grad_nan (clip_grad_norm_ ps c) = true).

End Runs.

(** A backward pass that yields a NaN gradient for every parameter of the
    model, and a zero gradient for every parameter of the mask. *)
Definition nan_everywhere (ps : list parameter) (m : option (list parameter))
  (b : unit) : fl * list (option (list fl)) * list (option (list fl)) :=
  (NaN,
   map (fun p => Some (map (fun _ => NaN) (p_data p))) ps,
   match m with
   | Some mps => map (fun p => Some (map (fun _ => Num 0) (p_data p))) mps
   | None => []
   end).


(** ** [measure_gradient] (lensless/recon/utils.py) *)

Definition fl_sqrt (x : fl) : fl :=
  match x with
  | Num r => Num (sqrt r)
  | PInf => PInf
  | NaN => NaN
  end.

(** [g.norm(2)]: the square root of the sum of the squares. *)
Definition norm2 (g : list fl) : fl :=
  fl_sqrt (fold_left (fun acc x => fl_lift2 Rplus acc (fl_lift2 Rmult x x))
                     g (Num 0)).

(** The loop over [model.parameters()]: [p.grad.detach()] on a parameter
    without gradient is an [AttributeError]. *)
Fixpoint accumulate_norms (ps : list parameter) (total_norm : fl) : res fl :=
  match ps with
  | [] => Ok total_norm
  | p :: ps' =>
    match p_grad p with
    | None => Raise AttributeError
    | Some g =>
      let param_norm := norm2 g in
      accumulate_norms ps'
        (fl_lift2 Rplus total_norm (fl_lift2 Rmult param_norm param_norm))
    end
  end.

Definition measure_gradient (model : list parameter) : res fl :=
  total_norm <- accumulate_norms model (Num 0) ;;
  Ok (fl_sqrt total_norm).

(** The sum of the squares of the entries of a list. *)
Definition sum_squares (l : list R) : R :=
  fold_right (fun x acc => x * x + acc) 0 l.

Unset Implicit Arguments.

(** * Finite sums of reals *)

Module SumFacts.

Lemma Rsum_ext (n : nat) (f g : nat -> R) :
  (forall k, (k < n)%nat -> f k = g k) -> Rsum n f = Rsum n g.
Proof.
  induction n as [|n IH]; intros H; cbn; [reflexivity|].
  rewrite IH by (intros k Hk; apply H; lia). rewrite H by lia. reflexivity.
Qed.

Lemma Rsum_zero (n : nat) (f : nat -> R) :
  (forall k, (k < n)%nat -> f k = 0) -> Rsum n f = 0.
Proof.
  induction n as [|n IH]; intros H; cbn; [reflexivity|].
  rewrite IH by (intros k Hk; apply H; lia). rewrite H by lia. lra.
Qed.

Lemma Rsum_plus (n : nat) (f g : nat -> R) :
  Rsum n (fun k => f k + g k) = Rsum n f + Rsum n g.
Proof. induction n as [|n IH]; cbn; [lra|rewrite IH; lra]. Qed.

Lemma Rsum_minus (n : nat) (f g : nat -> R) :
  Rsum n (fun k => f k - g k) = Rsum n f - Rsum n g.
Proof. induction n as [|n IH]; cbn; [lra|rewrite IH; lra]. Qed.

Lemma Rsum_scal_l (n : nat) (c : R) (f : nat -> R) :
  Rsum n (fun k => c * f k) = c * Rsum n f.
Proof. induction n as [|n IH]; cbn; [lra|rewrite IH; lra]. Qed.

Lemma Rsum_scal_r (n : nat) (c : R) (f : nat -> R) :
  Rsum n (fun k => f k * c) = Rsum n f * c.
Proof. induction n as [|n IH]; cbn; [lra|rewrite IH; lra]. Qed.

(** Exchanging two finite sums. *)
Lemma Rsum_swap (n m : nat) (f : nat -> nat -> R) :
  Rsum n (fun i => Rsum m (fun j => f i j))
  = Rsum m (fun j => Rsum n (fun i => f i j)).
Proof.
  induction n as [|n IH]; cbn.
  - symmetry. apply Rsum_zero. reflexivity.
  - rewrite IH, <- Rsum_plus. reflexivity.
Qed.

(** A sum against a Kronecker delta picks one term. *)
Lemma Rsum_pick (n i : nat) (f : nat -> R) :
  (i < n)%nat ->
  Rsum n (fun k => if (k =? i)%nat then f k else 0) = f i.
Proof.
  induction n as [|n IH]; intros Hi; [lia|]. cbn.
  destruct (Nat.eqb_spec n i) as [->|Hne].
  - rewrite Rsum_zero; [lra|].
    intros k Hk. destruct (Nat.eqb_spec k i); [lia|reflexivity].
  - rewrite IH by lia. lra.
Qed.

Lemma Rsum_nonneg (n : nat) (f : nat -> R) :
  (forall k, (k < n)%nat -> 0 <= f k) -> 0 <= Rsum n f.
Proof.
  induction n as [|n IH]; intros H; cbn; [lra|].
  specialize (IH (fun k Hk => H k (Nat.lt_lt_succ_r _ _ Hk))).
  specialize (H n (Nat.lt_succ_diag_r n)). lra.
Qed.

Lemma Rsum_nonneg_zero (n : nat) (f : nat -> R) :
  (forall k, (k < n)%nat -> 0 <= f k) -> Rsum n f = 0 ->
  forall k, (k < n)%nat -> f k = 0.
Proof.
  induction n as [|n IH]; intros H Hz k Hk; [lia|]. cbn in Hz.
  assert (H1 : 0 <= Rsum n f)
    by (apply Rsum_nonneg; intros j Hj; apply H; lia).
  assert (H2 : 0 <= f n) by (apply H; lia).
  destruct (Nat.eq_dec k n) as [->|Hne]; [lra|].
  apply IH; [intros j Hj; apply H; lia | lra | lia].
Qed.

Lemma Rsum_app (n m : nat) (f : nat -> R) :
  Rsum (n + m) f = Rsum n f + Rsum m (fun k => f (n + k)%nat).
Proof.
  induction m as [|m IH].
  - rewrite Nat.add_0_r. cbn. ring.
  - rewrite Nat.add_succ_r. cbn [Rsum]. rewrite IH. ring.
Qed.

Lemma Rsum_shift (n : nat) (f : nat -> R) :
  Rsum (S n) f = f O + Rsum n (fun k => f (S k)).
Proof. change (S n) with (1 + n)%nat. rewrite (Rsum_app 1 n f). cbn. ring. Qed.

(** A sum over a product range, row by row. *)
Lemma Rsum_flatten (a b : nat) (f : nat -> R) :
  Rsum (a * b) f = Rsum a (fun i => Rsum b (fun j => f (i * b + j)%nat)).
Proof.
  induction a as [|a IH].
  - reflexivity.
  - replace (S a * b)%nat with (a * b + b)%nat by lia.
    rewrite Rsum_app, IH. reflexivity.
Qed.

(** A summand that vanishes outside the window [[s, s + h)]. *)
Lemma Rsum_window (n s h : nat) (g : nat -> R) :
  (s + h <= n)%nat ->
  Rsum n (fun p => if ((s <=? p) && (p <? s + h))%nat then g (p - s)%nat else 0)
  = Rsum h g.
Proof.
  intros Hn. replace n with (s + (h + (n - (s + h))))%nat by lia.
  rewrite Rsum_app, Rsum_app.
  rewrite (Rsum_zero s), (Rsum_zero (n - (s + h))).
  - rewrite Rplus_0_l, Rplus_0_r. apply Rsum_ext. intros k Hk.
    destruct (Nat.leb_spec s (s + k)); [|lia].
    destruct (Nat.ltb_spec (s + k) (s + h)); [|lia].
    cbn [andb]. f_equal. lia.
  - intros k Hk.
    destruct (Nat.ltb_spec (s + (h + k)) (s + h)); [lia|].
    rewrite andb_false_r. reflexivity.
  - intros k Hk. destruct (Nat.leb_spec s k); [lia|]. reflexivity.
Qed.

End SumFacts.


(** * Complex numbers and roots of unity *)

Module ComplexFacts.
Import SumFacts.

Lemma complex_eq (a b : complex) : fst a = fst b -> snd a = snd b -> a = b.
Proof. destruct a, b; cbn; intros -> ->; reflexivity. Qed.

Ltac by_components :=
  apply complex_eq; unfold Cmul, Cadd, Cconj, Cscale, Czero, Cone;
  cbn [fst snd]; try ring.

Lemma Cmul_comm (a b : complex) : Cmul a b = Cmul b a.
Proof. by_components. Qed.

Lemma Cmul_assoc (a b c : complex) : Cmul (Cmul a b) c = Cmul a (Cmul b c).
Proof. by_components. Qed.

Lemma Cmul_1_l (a : complex) : Cmul Cone a = a.
Proof. by_components. Qed.

Lemma Cmul_1_r (a : complex) : Cmul a Cone = a.
Proof. by_components. Qed.

Lemma Cmul_0_l (a : complex) : Cmul Czero a = Czero.
Proof. by_components. Qed.

Lemma Cmul_0_r (a : complex) : Cmul a Czero = Czero.
Proof. by_components. Qed.

Lemma Cadd_0_l (a : complex) : Cadd Czero a = a.
Proof. by_components. Qed.

Lemma Cmul_add_distr_l (a b c : complex) :
  Cmul a (Cadd b c) = Cadd (Cmul a b) (Cmul a c).
Proof. by_components. Qed.

Lemma Cmul_add_distr_r (a b c : complex) :
  Cmul (Cadd a b) c = Cadd (Cmul a c) (Cmul b c).
Proof. by_components. Qed.

Lemma Cscale_mul_l (r : R) (a b : complex) :
  Cmul (Cscale r a) b = Cscale r (Cmul a b).
Proof. by_components. Qed.

Lemma Cscale_mul_r (r : R) (a b : complex) :
  Cmul a (Cscale r b) = Cscale r (Cmul a b).
Proof. by_components. Qed.

Lemma Cscale_scale (r s : R) (a : complex) :
  Cscale r (Cscale s a) = Cscale (r * s) a.
Proof. by_components. Qed.

Lemma Cscale_add (r : R) (a b : complex) :
  Cscale r (Cadd a b) = Cadd (Cscale r a) (Cscale r b).
Proof. by_components. Qed.

Lemma Cconj_mul (a b : complex) : Cconj (Cmul a b) = Cmul (Cconj a) (Cconj b).
Proof. by_components. Qed.

Lemma Cconj_add (a b : complex) : Cconj (Cadd a b) = Cadd (Cconj a) (Cconj b).
Proof. by_components. Qed.

Lemma Cconj_scale (r : R) (a : complex) : Cconj (Cscale r a) = Cscale r (Cconj a).
Proof. by_components. Qed.

(** Complex sums, by components. *)
Lemma Csum_fst (n : nat) (f : nat -> complex) :
  fst (Csum n f) = Rsum n (fun k => fst (f k)).
Proof. induction n as [|n IH]; cbn; [reflexivity|rewrite IH; reflexivity]. Qed.

Lemma Csum_snd (n : nat) (f : nat -> complex) :
  snd (Csum n f) = Rsum n (fun k => snd (f k)).
Proof. induction n as [|n IH]; cbn; [reflexivity|rewrite IH; reflexivity]. Qed.

Lemma Csum_ext (n : nat) (f g : nat -> complex) :
  (forall k, (k < n)%nat -> f k = g k) -> Csum n f = Csum n g.
Proof.
  intros H. apply complex_eq; rewrite ?Csum_fst, ?Csum_snd;
    apply Rsum_ext; intros k Hk; rewrite H by exact Hk; reflexivity.
Qed.

Lemma Csum_zero (n : nat) (f : nat -> complex) :
  (forall k, (k < n)%nat -> f k = Czero) -> Csum n f = Czero.
Proof.
  intros H. apply complex_eq; rewrite ?Csum_fst, ?Csum_snd;
    apply Rsum_zero; intros k Hk; rewrite H by exact Hk; reflexivity.
Qed.

Lemma Csum_add (n : nat) (f g : nat -> complex) :
  Csum n (fun k => Cadd (f k) (g k)) = Cadd (Csum n f) (Csum n g).
Proof.
  apply complex_eq; unfold Cadd; cbn [fst snd];
    rewrite ?Csum_fst, ?Csum_snd; cbn [fst snd]; apply Rsum_plus.
Qed.

Lemma Csum_mul_l (n : nat) (c : complex) (f : nat -> complex) :
  Csum n (fun k => Cmul c (f k)) = Cmul c (Csum n f).
Proof.
  induction n as [|n IH]; cbn; [rewrite Cmul_0_r; reflexivity|].
  rewrite IH, Cmul_add_distr_l. reflexivity.
Qed.

Lemma Csum_mul_r (n : nat) (c : complex) (f : nat -> complex) :
  Csum n (fun k => Cmul (f k) c) = Cmul (Csum n f) c.
Proof.
  induction n as [|n IH]; cbn; [rewrite Cmul_0_l; reflexivity|].
  rewrite IH, Cmul_add_distr_r. reflexivity.
Qed.

Lemma Csum_scale (n : nat) (r : R) (f : nat -> complex) :
  Csum n (fun k => Cscale r (f k)) = Cscale r (Csum n f).
Proof.
  induction n as [|n IH]; cbn; [by_components|].
  rewrite IH, Cscale_add. reflexivity.
Qed.

Lemma Csum_swap (n m : nat) (f : nat -> nat -> complex) :
  Csum n (fun i => Csum m (fun j => f i j))
  = Csum m (fun j => Csum n (fun i => f i j)).
Proof.
  apply complex_eq; rewrite ?Csum_fst, ?Csum_snd.
  - transitivity (Rsum n (fun i => Rsum m (fun j => fst (f i j)))).
    { apply Rsum_ext; intros; apply Csum_fst. }
    rewrite Rsum_swap. apply Rsum_ext; intros; symmetry; apply Csum_fst.
  - transitivity (Rsum n (fun i => Rsum m (fun j => snd (f i j)))).
    { apply Rsum_ext; intros; apply Csum_snd. }
    rewrite Rsum_swap. apply Rsum_ext; intros; symmetry; apply Csum_snd.
Qed.

Lemma Csum_conj (n : nat) (f : nat -> complex) :
  Cconj (Csum n f) = Csum n (fun k => Cconj (f k)).
Proof.
  induction n as [|n IH]; cbn; [by_components|].
  rewrite Cconj_add, IH. reflexivity.
Qed.

Lemma Csum_real (n : nat) (f : nat -> R) :
  Csum n (fun k => (f k, 0)) = (Rsum n f, 0).
Proof.
  apply complex_eq; rewrite ?Csum_fst, ?Csum_snd; cbn [fst snd];
    [reflexivity|]. apply Rsum_zero. reflexivity.
Qed.

(** ** [cis] *)

Lemma cis_0 : cis 0 = Cone.
Proof. unfold cis, Cone. rewrite cos_0, sin_0. reflexivity. Qed.

Lemma cis_add (a b : R) : cis (a + b) = Cmul (cis a) (cis b).
Proof.
  unfold cis, Cmul. cbn [fst snd]. rewrite cos_plus, sin_plus.
  f_equal; ring.
Qed.

Lemma cis_neg (a : R) : cis (- a) = Cconj (cis a).
Proof. unfold cis, Cconj. cbn [fst snd]. rewrite cos_neg, sin_neg. reflexivity. Qed.

Lemma cis_turns (k : nat) : cis (2 * INR k * PI) = Cone.
Proof.
  unfold cis, Cone.
  replace (2 * INR k * PI) with (0 + 2 * INR k * PI) by ring.
  rewrite cos_period, sin_period, cos_0, sin_0. reflexivity.
Qed.

Lemma cis_inverse (a : R) : Cmul (cis (- a)) (cis a) = Cone.
Proof. rewrite <- cis_add. replace (- a + a) with 0 by ring. apply cis_0. Qed.

Lemma cis_neg_turns (k : nat) : cis (- (2 * INR k * PI)) = Cone.
Proof. rewrite cis_neg, cis_turns. by_components. Qed.

Lemma pm_succ (k : nat) : pm (S k) = - pm k.
Proof.
  unfold pm. rewrite Nat.even_succ, <- Nat.negb_even.
  destruct (Nat.even k); cbn; lra.
Qed.

Lemma pm_add (a b : nat) : pm (a + b) = pm a * pm b.
Proof.
  unfold pm. rewrite Nat.even_add.
  destruct (Nat.even a), (Nat.even b); cbn; lra.
Qed.

Lemma pm_mod (n a : nat) : Nat.even n = true -> pm (a mod n) = pm a.
Proof.
  intros Hn. unfold pm.
  rewrite (Nat.div_mod_eq a n) at 2.
  rewrite Nat.even_add, Nat.even_mul, Hn. cbn [orb].
  destruct (Nat.even (a mod n)); reflexivity.
Qed.

Lemma cis_half_turns (k : nat) : cis (INR k * PI) = (pm k, 0).
Proof.
  induction k as [|k IH].
  - cbn [INR]. rewrite Rmult_0_l. exact cis_0.
  - rewrite S_INR, Rmult_plus_distr_r, Rmult_1_l, cis_add, IH, pm_succ.
    unfold cis. rewrite cos_PI, sin_PI. by_components.
Qed.

(** ** Twiddle factors *)

Lemma twiddle_sym (sgn : R) (n j k : nat) :
  twiddle sgn n j k = twiddle sgn n k j.
Proof. unfold twiddle. rewrite Nat.mul_comm. reflexivity. Qed.

Lemma twiddle_add (sgn : R) (n j l k : nat) :
  twiddle sgn n (j + l) k = Cmul (twiddle sgn n j k) (twiddle sgn n l k).
Proof.
  unfold twiddle. rewrite <- cis_add. f_equal.
  rewrite Nat.mul_add_distr_r, plus_INR. unfold Rdiv. ring.
Qed.

Lemma twiddle_conj (n j k : nat) :
  Cconj (twiddle (-1) n j k) = twiddle 1 n j k.
Proof.
  unfold twiddle. rewrite <- cis_neg. f_equal. ring.
Qed.

Lemma twiddle_full (n k : nat) : n <> O -> twiddle 1 n n k = Cone.
Proof.
  intros Hn. unfold twiddle. rewrite <- (cis_turns k). f_equal.
  rewrite mult_INR. field. apply not_0_INR, Hn.
Qed.

Lemma twiddle_multiple (n q r k : nat) :
  n <> O -> twiddle 1 n (q * n + r) k = twiddle 1 n r k.
Proof.
  intros Hn. induction q as [|q IH].
  - reflexivity.
  - replace (S q * n + r)%nat with (n + (q * n + r))%nat by lia.
    rewrite twiddle_add, IH, twiddle_full by exact Hn. apply Cmul_1_l.
Qed.

Lemma twiddle_mod (n j k : nat) :
  n <> O -> twiddle 1 n (j mod n) k = twiddle 1 n j k.
Proof.
  intros Hn. rewrite (Nat.div_mod_eq j n) at 2.
  rewrite (Nat.mul_comm n). symmetry. apply twiddle_multiple, Hn.
Qed.

(** Half a turn, for an even length. *)
Lemma twiddle_half (n k : nat) :
  n <> O -> Nat.even n = true -> twiddle 1 n (n / 2) k = (pm k, 0).
Proof.
  intros Hn He. rewrite <- cis_half_turns. unfold twiddle. f_equal.
  apply Nat.even_spec in He. destruct He as [a ->].
  rewrite (Nat.mul_comm 2 a), Nat.div_mul by lia.
  rewrite !mult_INR. cbn [INR]. field.
  apply not_0_INR. lia.
Qed.

Lemma twiddle_recentred (n j k : nat) :
  n <> O -> Nat.even n = true ->
  twiddle 1 n (recentred n j) k = Cscale (pm k) (twiddle 1 n j k).
Proof.
  intros Hn He. unfold recentred.
  rewrite twiddle_mod, twiddle_add, twiddle_half by assumption.
  by_components.
Qed.

Lemma pm_recentred (n j : nat) :
  n <> O -> Nat.even n = true -> pm (recentred n j) = pm (n / 2) * pm j.
Proof.
  intros Hn He. unfold recentred. rewrite pm_mod, pm_add by exact He. ring.
Qed.

Lemma twiddle_nyquist (n j : nat) :
  n <> O -> Nat.even n = true -> twiddle 1 n j (n / 2) = (pm j, 0).
Proof. intros Hn He. rewrite twiddle_sym. apply twiddle_half; assumption. Qed.

End ComplexFacts.


(** * The convolution operator: padding and the scratch buffer *)

Lemma search_regular_ge (fuel m : nat) : (m <= search_regular fuel m)%nat.
Proof.
  revert m; induction fuel as [|f IH]; intros m; simpl.
  - lia.
  - destruct (regular m); [lia|]. specialize (IH (S m)). lia.
Qed.

Lemma next_fast_len_ge (target : Z) :
  (0 <= target)%Z ->
  exists n, next_fast_len target = Ok n /\ (target <= Z.of_nat n)%Z.
Proof.
  intros Ht. unfold next_fast_len.
  destruct (Z.ltb_spec target 0) as [Hneg|_]; [lia|].
  eexists; split; [reflexivity|].
  pose proof (search_regular_ge (Z.to_nat target) (Z.to_nat target)). lia.
Qed.

Module ConvFacts.
Import RealFFTConvolve2D.

(** The window fits in the padded canvas and has the shape of the filter. *)
Lemma padding_spec (h w c : nat) :
  (1 <= h)%nat -> (1 <= w)%nat ->
  exists p0 p1,
    next_fast_len (2 * Z.of_nat h - 1)%Z = Ok p0 /\
    next_fast_len (2 * Z.of_nat w - 1)%Z = Ok p1 /\
    (2 * h - 1 <= p0)%nat /\ (2 * w - 1 <= p1)%nat /\
    padding (h, w, c) =
      Ok ((p0, p1, c), (((p0 - h) / 2)%nat, ((p1 - w) / 2)%nat),
          (((p0 - h) / 2 + h)%nat, ((p1 - w) / 2 + w)%nat)).
Proof.
  intros Hh Hw.
  destruct (next_fast_len_ge (2 * Z.of_nat h - 1)%Z) as (p0 & E0 & G0); [lia|].
  destruct (next_fast_len_ge (2 * Z.of_nat w - 1)%Z) as (p1 & E1 & G1); [lia|].
  exists p0, p1. repeat split; try assumption; try lia.
  unfold padding. rewrite E0, E1. reflexivity.
Qed.

Lemma half_gap (p h : nat) : (h <= p)%nat -> ((p - h) / 2 + h <= p)%nat.
Proof.
  intros H.
  assert ((p - h) / 2 <= p - h)%nat by (apply Nat.Div0.div_le_upper_bound; lia).
  lia.
Qed.

Lemma window_shape (p0 p1 c h w : nat) :
  (h <= p0)%nat -> (w <= p1)%nat ->
  slice_shape (p0, p1, c)
    (((p0 - h) / 2)%nat, ((p1 - w) / 2)%nat)
    (((p0 - h) / 2 + h)%nat, ((p1 - w) / 2 + w)%nat) = (h, w, c).
Proof.
  intros H0 H1. unfold slice_shape; cbn [fst snd].
  pose proof (half_gap _ _ H0). pose proof (half_gap _ _ H1).
  assert ((p0 - h) / 2 <= p0 - h)%nat by (apply Nat.Div0.div_le_upper_bound; lia).
  assert ((p1 - w) / 2 <= p1 - w)%nat by (apply Nat.Div0.div_le_upper_bound; lia).
  repeat f_equal; lia.
Qed.

Lemma pad_with_ok (p0 p1 c h w : nat) (v : ndarray R) :
  (h <= p0)%nat -> (w <= p1)%nat -> shape v = (h, w, c) ->
  let s := (((p0 - h) / 2)%nat, ((p1 - w) / 2)%nat) in
  let e := (((p0 - h) / 2 + h)%nat, ((p1 - w) / 2 + w)%nat) in
  pad_with (p0, p1, c) s e v =
  Ok (NdArray (p0, p1, c)
        (fun i j k => if in_window s e i j
                      then item v (i - fst s) (j - snd s) k else 0)).
Proof.
  intros H0 H1 Hv s e. unfold pad_with, set_window. cbn [shape zeros].
  subst s e. rewrite window_shape by assumption. rewrite Hv.
  rewrite !Nat.eqb_refl. reflexivity.
Qed.

(** What [__init__] builds. *)
Lemma init_spec (filter : ndarray R) (h w c : nat) :
  shape filter = (h, w, c) -> (1 <= h)%nat -> (1 <= w)%nat ->
  exists op p0 p1,
    __init__ filter = Ok op /\
    next_fast_len (2 * Z.of_nat h - 1)%Z = Ok p0 /\
    next_fast_len (2 * Z.of_nat w - 1)%Z = Ok p1 /\
    (2 * h - 1 <= p0)%nat /\ (2 * w - 1 <= p1)%nat /\
    _filter_shape op = (h, w, c) /\
    _padded_shape op = (p0, p1, c) /\
    _start_idx op = (((p0 - h) / 2)%nat, ((p1 - w) / 2)%nat) /\
    _end_idx op = (((p0 - h) / 2 + h)%nat, ((p1 - w) / 2 + w)%nat) /\
    _padded_data op = zeros (p0, p1, c) /\
    (exists fp, pad_with (p0, p1, c) (_start_idx op) (_end_idx op) filter = Ok fp
                /\ _H op = rfft2 fp /\ _Hadj op = conj (rfft2 fp)).
Proof.
  intros Hs Hh Hw.
  destruct (padding_spec h w c Hh Hw) as (p0 & p1 & E0 & E1 & G0 & G1 & EP).
  assert (Hp : pad_with (p0, p1, c) (((p0 - h) / 2)%nat, ((p1 - w) / 2)%nat)
                 (((p0 - h) / 2 + h)%nat, ((p1 - w) / 2 + w)%nat) filter = Ok _)
    by (apply pad_with_ok; [lia|lia|exact Hs]).
  unfold __init__. rewrite Hs, EP. cbn [bind]. rewrite Hp. cbn [bind].
  eexists; exists p0, p1.
  split; [reflexivity|]. cbn [_filter_shape _padded_shape _start_idx _end_idx
                             _padded_data _H _Hadj].
  repeat split; try assumption.
  eexists; split; [exact Hp|]. split; reflexivity.
Qed.

(** Frame of one invocation: only [_padded_data] may change, and it keeps
    its shape. *)
Lemma invoke_frame (self : t) (c : invocation) :
  let self' := snd (invoke self c) in
  _filter_shape self' = _filter_shape self /\
  _n_channels self' = _n_channels self /\
  _padded_shape self' = _padded_shape self /\
  _start_idx self' = _start_idx self /\
  _end_idx self' = _end_idx self /\
  _H self' = _H self /\ _Hadj self' = _Hadj self /\
  op_shape self' = op_shape self /\
  shape (_padded_data self') = shape (_padded_data self).
Proof.
  destruct c as [x|y]; cbn [invoke]; unfold __call__, adjoint;
    (destruct (reshape _ _) as [v|e]; [|cbn; tauto]);
    unfold set_window;
    destruct (slice_shape _ _ _) as [[a b] d];
    destruct (shape v) as [[va vb] vd];
    destruct (_ && _ && _); cbn; tauto.
Qed.

Lemma run_frame (cs : list invocation) (self : t) :
  let self' := run self cs in
  _filter_shape self' = _filter_shape self /\
  _padded_shape self' = _padded_shape self /\
  _start_idx self' = _start_idx self /\
  _end_idx self' = _end_idx self /\
  _H self' = _H self /\ _Hadj self' = _Hadj self /\
  shape (_padded_data self') = shape (_padded_data self).
Proof.
  revert self; induction cs as [|c cs IH]; intros self; cbn.
  - tauto.
  - specialize (IH (snd (invoke self c))). cbn in IH.
    pose proof (invoke_frame self c) as F. cbn in F.
    unfold run in *.
    destruct IH as (I1 & I2 & I3 & I4 & I5 & I6 & I7).
    destruct F as (F1 & _ & F2 & F3 & F4 & F5 & F6 & _ & F7).
    repeat split; congruence.
Qed.


Lemma invoke_clean (self : t) (c : invocation) :
  clean self -> clean (snd (invoke self c)).
Proof.
  intros Hc.
  destruct c as [x|y]; cbn [invoke]; unfold __call__, adjoint;
    (destruct (reshape _ _) as [v|e]; [|exact Hc]);
    unfold set_window;
    destruct (slice_shape _ _ _) as [[a b] d];
    destruct (shape v) as [[va vb] vd];
    (destruct (_ && _ && _); [|exact Hc]);
    intros i j k Hw; cbn in *; rewrite Hw; apply Hc; exact Hw.
Qed.

Lemma run_clean (cs : list invocation) (self : t) :
  clean self -> clean (run self cs).
Proof.
  revert self; induction cs as [|c cs IH]; intros self Hc; cbn.
  - exact Hc.
  - apply IH, invoke_clean, Hc.
Qed.

(** On a clean buffer the write yields exactly the freshly padded canvas. *)
Lemma set_window_clean (self : t) (v : ndarray R) :
  clean self ->
  shape (_padded_data self) = _padded_shape self ->
  set_window (_padded_data self) (_start_idx self) (_end_idx self) v
  = _pad self v.
Proof.
  intros Hc Hs. unfold _pad, pad_with, set_window. cbn [shape zeros].
  rewrite Hs.
  destruct (slice_shape _ _ _) as [[a b] d].
  destruct (shape v) as [[va vb] vd].
  destruct (_ && _ && _); [|reflexivity].
  f_equal. f_equal.
  extensionality i; extensionality j; extensionality k.
  cbn [item].
  destruct (in_window _ _ i j) eqn:E; [reflexivity|]. apply Hc, E.
Qed.

Lemma filtered_with_padded_data (self : t) (d p : ndarray R) (r : ndarray complex) :
  filtered (with_padded_data self d) p r = filtered self p r.
Proof. reflexivity. Qed.

Lemma call_on_clean (self : t) (x : list R) :
  clean self ->
  shape (_padded_data self) = _padded_shape self ->
  fst (__call__ self x) = call_fresh self x.
Proof.
  intros Hc Hs. unfold __call__, call_fresh.
  destruct (reshape x (_filter_shape self)) as [xr|e]; [|reflexivity].
  cbn [bind]. rewrite (set_window_clean self xr Hc Hs).
  destruct (_pad self xr) as [d|e]; reflexivity.
Qed.

Lemma adjoint_on_clean (self : t) (y : list R) :
  clean self ->
  shape (_padded_data self) = _padded_shape self ->
  fst (adjoint self y) = adjoint_fresh self y.
Proof.
  intros Hc Hs. unfold adjoint, adjoint_fresh.
  destruct (reshape y (_filter_shape self)) as [yr|e]; [|reflexivity].
  cbn [bind]. rewrite (set_window_clean self yr Hc Hs).
  destruct (_pad self yr) as [d|e]; reflexivity.
Qed.

Lemma fresh_frame (a b : t) :
  _filter_shape a = _filter_shape b -> _padded_shape a = _padded_shape b ->
  _start_idx a = _start_idx b -> _end_idx a = _end_idx b ->
  _H a = _H b -> _Hadj a = _Hadj b ->
  (forall x, call_fresh a x = call_fresh b x) /\
  (forall y, adjoint_fresh a y = adjoint_fresh b y).
Proof.
  intros E1 E2 E3 E4 E5 E6.
  unfold call_fresh, adjoint_fresh, _pad, filtered, _crop.
  rewrite E1, E2, E3, E4, E5, E6. split; reflexivity.
Qed.

Lemma init_clean (filter : ndarray R) (op : t) :
  __init__ filter = Ok op ->
  clean op /\ shape (_padded_data op) = _padded_shape op.
Proof.
  unfold __init__. intros Hi.
  destruct (padding (shape filter)) as [[[ps s] e]|err]; [|discriminate].
  cbn [bind] in Hi.
  destruct (pad_with ps s e filter) as [fp|err]; [|discriminate].
  cbn [bind] in Hi. injection Hi as <-.
  split; [intros i j k _|]; reflexivity.
Qed.

End ConvFacts.

Import RealFFTConvolve2D ConvFacts.

(** C7.  For a PSF of spatial size [h x w] the padded buffer of the
    operator has spatial shape [next_fast_len (2h-1) x next_fast_len (2w-1)],
    each dimension being at least twice the filter dimension minus one; the
    padded shape, the shape of the scratch buffer and the precomputed
    frequency responses are the same after every sequence of [__call__] and
    [adjoint] invocations. *)
Theorem padded_shape_fixed (filter : ndarray R) (h w c : nat) :
  shape filter = (h, w, c) -> (1 <= h)%nat -> (1 <= w)%nat ->
  exists op p0 p1,
    __init__ filter = Ok op /\
    next_fast_len (2 * Z.of_nat h - 1)%Z = Ok p0 /\
    next_fast_len (2 * Z.of_nat w - 1)%Z = Ok p1 /\
    _padded_shape op = (p0, p1, c) /\
    shape (_padded_data op) = (p0, p1, c) /\
    (2 * Z.of_nat h - 1 <= Z.of_nat p0)%Z /\
    (2 * Z.of_nat w - 1 <= Z.of_nat p1)%Z /\
    forall cs : list invocation,
      _padded_shape (run op cs) = (p0, p1, c) /\
      shape (_padded_data (run op cs)) = (p0, p1, c) /\
      _H (run op cs) = _H op /\
      _Hadj (run op cs) = _Hadj op.
Proof.
  intros Hs Hh Hw.
  destruct (init_spec filter h w c Hs Hh Hw)
    as (op & p0 & p1 & Ei & E0 & E1 & G0 & G1 & Ef & Ep & Est & Een & Ed & _).
  exists op, p0, p1.
  repeat split; try assumption; try lia.
  - rewrite Ed; reflexivity.
  - destruct (run_frame cs op) as (_ & F & _); congruence.
  - destruct (run_frame cs op) as (_ & _ & _ & _ & _ & _ & F).
    rewrite F, Ed; reflexivity.
  - destruct (run_frame cs op) as (_ & _ & _ & _ & F & _); exact F.
  - destruct (run_frame cs op) as (_ & _ & _ & _ & _ & F & _); exact F.
Qed.

Lemma padded_shape_fixed_witness :
  exists op p0 p1,
    __init__ (NdArray (4, 2, 1)%nat (fun _ _ _ => 1)) = Ok op /\
    next_fast_len (2 * Z.of_nat 4 - 1)%Z = Ok p0 /\
    next_fast_len (2 * Z.of_nat 2 - 1)%Z = Ok p1 /\
    _padded_shape op = (p0, p1, 1%nat) /\
    shape (_padded_data op) = (p0, p1, 1%nat) /\
    (2 * Z.of_nat 4 - 1 <= Z.of_nat p0)%Z /\
    (2 * Z.of_nat 2 - 1 <= Z.of_nat p1)%Z /\
    forall cs : list invocation,
      _padded_shape (run op cs) = (p0, p1, 1%nat) /\
      shape (_padded_data (run op cs)) = (p0, p1, 1%nat) /\
      _H (run op cs) = _H op /\
      _Hadj (run op cs) = _Hadj op.
Proof.
  apply (padded_shape_fixed (NdArray (4, 2, 1)%nat (fun _ _ _ => 1)) 4 2 1).
  - reflexivity.
  - lia.
  - lia.
Defined.

(** C10.  After every sequence of [__call__] and [adjoint] invocations on
    an instance, every entry of the scratch buffer outside the window
    [[_start_idx, _end_idx)] is zero, and the next invocation returns what it
    would return on a freshly zeroed canvas. *)
Theorem scratch_buffer_frame (filter : ndarray R) (op : t)
    (cs : list invocation) :
  __init__ filter = Ok op ->
  (forall i j k,
      in_window (_start_idx op) (_end_idx op) i j = false ->
      item (_padded_data (run op cs)) i j k = 0) /\
  (forall x, fst (__call__ (run op cs) x) = call_fresh op x) /\
  (forall y, fst (adjoint (run op cs) y) = adjoint_fresh op y).
Proof.
  intros Hi. destruct (init_clean filter op Hi) as [Hc Hs].
  pose proof (run_clean cs op Hc) as Hc'.
  destruct (run_frame cs op) as (F1 & F2 & F3 & F4 & F5 & F6 & F7).
  destruct (fresh_frame _ _ F1 F2 F3 F4 F5 F6) as [Fc Fa].
  assert (Hs' : shape (_padded_data (run op cs)) = _padded_shape (run op cs))
    by congruence.
  split; [|split].
  - intros i j k Hw. apply Hc'. rewrite F3, F4. exact Hw.
  - intros x. rewrite (call_on_clean _ x Hc' Hs'). apply Fc.
  - intros y. rewrite (adjoint_on_clean _ y Hc' Hs'). apply Fa.
Qed.

Lemma scratch_buffer_frame_witness :
  exists op,
    __init__ (NdArray (1, 2, 1)%nat (fun _ _ _ => 1)) = Ok op /\
    ((forall i j k,
        in_window (_start_idx op) (_end_idx op) i j = false ->
        item (_padded_data (run op [Call [3; 4]; Adjoint [5; 6]])) i j k = 0) /\
     (forall x, fst (__call__ (run op [Call [3; 4]; Adjoint [5; 6]]) x)
                = call_fresh op x) /\
     (forall y, fst (adjoint (run op [Call [3; 4]; Adjoint [5; 6]]) y)
                = adjoint_fresh op y)).
Proof.
  eexists. split.
  - reflexivity.
  - apply (scratch_buffer_frame (NdArray (1, 2, 1)%nat (fun _ _ _ => 1))).
    reflexivity.
Defined.



(** * The APGD solver *)

Module ApgdFacts.
Import APGD.

Section WithRule.
Variable rule :
  objective -> option functional -> option string -> nat ->
  iterand_t -> iterand_t.

Lemma clip_negative_length (v : list R) :
  length (clip_negative v) = length v.
Proof. unfold clip_negative. apply length_map. Qed.

Lemma clip_negative_nonneg (v : list R) :
  Forall (fun r => ~ r < 0) (clip_negative v).
Proof.
  unfold clip_negative. induction v as [|a v IH]; simpl; constructor; auto.
  destruct (Rlt_dec a 0); lra.
Qed.

(** The buffer keeps its length. *)
Lemma assign_all_length (buf v w : list R) :
  assign_all buf v = Ok w -> length w = length buf.
Proof.
  unfold assign_all. destruct (Nat.eqb_spec (length v) (length buf)) as [E|_].
  - intros [= <-]. exact E.
  - destruct v as [|a [|b v]]; try discriminate.
    intros [= <-]. apply repeat_length.
Qed.

Lemma update_image_length (self : t) :
  length (_image_est (snd (_update rule self))) = length (_image_est self).
Proof.
  unfold _update.
  destruct (_gen self) as [g|]; [|reflexivity].
  destruct (_apgd self) as [a|]; [|reflexivity].
  destruct (next rule a g) as [[r a'] g'].
  destruct r as [[]|e]; [|reflexivity].
  destruct (cur_iterand a') as [it|]; [|reflexivity].
  destruct (assign_all _ _) as [v|e] eqn:E; [|reflexivity].
  cbn. apply assign_all_length in E. exact E.
Qed.

Lemma update_frame (self : t) :
  _original_shape (snd (_update rule self)) = _original_shape self /\
  _original_size (snd (_update rule self)) = _original_size self /\
  _max_iter (snd (_update rule self)) = _max_iter self.
Proof.
  unfold _update.
  destruct (_gen self) as [g|]; [|tauto].
  destruct (_apgd self) as [a|]; [|tauto].
  destruct (next rule a g) as [[r a'] g'].
  destruct r as [[]|e]; [|cbn; tauto].
  destruct (cur_iterand a') as [it|]; [|cbn; tauto].
  destruct (assign_all _ _) as [v|e]; cbn; tauto.
Qed.


Lemma update_sized (self : t) : sized self -> sized (snd (_update rule self)).
Proof.
  intros [H1 H2]. destruct (update_frame self) as (F1 & F2 & _).
  split; [rewrite update_image_length, F2; exact H1 | rewrite F1, F2; exact H2].
Qed.

Lemma updates_sized (n : nat) (self : t) :
  sized self -> sized (snd (updates rule n self)).
Proof.
  revert self; induction n as [|n IH]; intros self Hs; cbn.
  - exact Hs.
  - pose proof (update_sized self Hs) as Hu.
    destruct (_update rule self) as [[[]|e] self']; cbn in *.
    + apply IH, Hu.
    + exact Hu.
Qed.

Lemma updates_shape (n : nat) (self : t) :
  _original_shape (snd (updates rule n self)) = _original_shape self.
Proof.
  revert self; induction n as [|n IH]; intros self; cbn.
  - reflexivity.
  - destruct (update_frame self) as (F1 & _).
    destruct (_update rule self) as [[[]|e] self']; cbn in *.
    + rewrite IH. exact F1.
    + exact F1.
Qed.

Lemma form_image_sized (self : t) :
  sized self -> sized (snd (_form_image self)).
Proof.
  intros [H1 H2]. unfold _form_image.
  destruct (_ =? _)%nat; [|split; assumption].
  split; [cbn [snd with_image_est _image_est _original_size];
          rewrite clip_negative_length|]; assumption.
Qed.

Lemma form_image_spec (self : t) :
  sized self ->
  exists img,
    fst (_form_image self) = Ok img /\
    im_shape img = _original_shape self /\
    length (im_data img) = size3 (_original_shape self) /\
    Forall (fun r => ~ r < 0) (im_data img).
Proof.
  intros [H1 H2]. unfold _form_image.
  rewrite H1, H2, Nat.eqb_refl.
  eexists; split; [reflexivity|]. cbn [im_shape im_data].
  split; [reflexivity|]. split.
  - rewrite clip_negative_length. congruence.
  - apply clip_negative_nonneg.
Qed.

Lemma reset_sized (self : t) :
  _original_size self = size3 (_original_shape self) -> sized (reset self).
Proof.
  intros H. unfold reset. cbn.
  destruct (_apgd self); cbn; (split; [apply repeat_length|exact H]).
Qed.

Lemma apply_sized (n : nat) (self : t) :
  sized self -> sized (snd (apply rule n self)).
Proof.
  intros Hs. unfold apply.
  pose proof (updates_sized n self Hs) as Hu.
  destruct (updates rule n self) as [[[]|e] self']; cbn in *.
  - apply form_image_sized, Hu.
  - exact Hu.
Qed.

Lemma perform_sized (self : t) (m : method) :
  sized self -> sized (perform rule self m).
Proof.
  intros Hs. destruct m; cbn.
  - apply apply_sized, Hs.
  - apply update_sized, Hs.
  - apply form_image_sized, Hs.
  - apply reset_sized, Hs.
Qed.

Lemma history_sized (ms : list method) (self : t) :
  sized self -> sized (history rule self ms).
Proof.
  revert self; induction ms as [|m ms IH]; intros self Hs; cbn.
  - exact Hs.
  - apply IH, perform_sized, Hs.
Qed.

Lemma perform_shape (self : t) (m : method) :
  _original_shape (perform rule self m) = _original_shape self.
Proof.
  destruct m; cbn.
  - unfold apply. pose proof (updates_shape n_iter self) as Hu.
    destruct (updates rule n_iter self) as [[[]|e] self']; cbn in *.
    + unfold _form_image. destruct (_ =? _)%nat; cbn; exact Hu.
    + exact Hu.
  - apply (update_frame self).
  - unfold _form_image. destruct (_ =? _)%nat; reflexivity.
  - unfold reset. cbn. destruct (_apgd self); reflexivity.
Qed.

Lemma history_shape (ms : list method) (self : t) :
  _original_shape (history rule self ms) = _original_shape self.
Proof.
  revert self; induction ms as [|m ms IH]; intros self; cbn.
  - reflexivity.
  - etransitivity; [apply (IH (perform rule self m)) | apply perform_shape].
Qed.

(** What [__init__] and [set_data] establish. *)
Lemma init_sized (cfg : apgd_config) (self : t) :
  fst (__init__ cfg) = Ok self ->
  sized self /\ _original_shape self = shape (cfg_psf cfg) /\
  _max_iter self = cfg_max_iter cfg /\ _is_rgb self = true /\
  _apgd self = None /\ _gen self = None /\ _data self = None /\
  _image_est self = repeat 0 (size3 (shape (cfg_psf cfg))).
Proof.
  unfold __init__.
  destruct (RealFFTConvolve2D.__init__ (cfg_psf cfg)) as [H|e]; [|discriminate].
  match goal with |- context [match ?d with Ok _ => _ | Raise _ => _ end] =>
    destruct d as [dp|e] end; [|discriminate].
  assert (Hfin : forall pp,
    Ok (Build (shape (cfg_psf cfg)) (size3 (shape (cfg_psf cfg))) None None
              (cfg_psf cfg) true (repeat 0 (size3 (shape (cfg_psf cfg))))
              (cfg_max_iter cfg) H dp pp (cfg_acceleration cfg) None)
    = Ok self ->
    sized self /\ _original_shape self = shape (cfg_psf cfg) /\
    _max_iter self = cfg_max_iter cfg /\ _is_rgb self = true /\
    _apgd self = None /\ _gen self = None /\ _data self = None /\
    _image_est self = repeat 0 (size3 (shape (cfg_psf cfg)))).
  { intros pp [= <-]. unfold sized.
    cbn [_original_shape _original_size _apgd _gen _psf _is_rgb
         _image_est _max_iter _data].
    rewrite repeat_length. tauto. }
  cbn [base_init reset _original_shape _original_size _apgd _gen _psf _is_rgb
       _image_est _max_iter _H _diff_penalty _prox_penalty _acc _data
       with_image_est].
  destruct (cfg_prox_penalty cfg) as [|s|b c|b]; cbn [penalty_eqb call_penalty].
  - apply Hfin.
  - destruct (String.eqb s APGDPriors.L1); [apply Hfin|].
    destruct (String.eqb s APGDPriors.NONNEG); [apply Hfin|discriminate].
  - destruct (c _) as [f|[]]; try discriminate; apply Hfin.
  - discriminate.
Qed.

Lemma set_data_spec (self : t) (d : ndarray R) (s1 : t) :
  set_data self d = Ok s1 ->
  _image_est s1 = _image_est self /\
  _original_shape s1 = _original_shape self /\
  _original_size s1 = _original_size self /\
  _max_iter s1 = _max_iter self /\
  _data s1 = Some d /\
  _gen s1 = Some (Generator (_max_iter self) false) /\
  exists pp dm,
    _prox_penalty self = Assigned pp /\
    _apgd s1 =
      Some (pyc_set_old
              (pyc_init dm (Objective (fst (RealFFTConvolve2D.op_shape (_H self)))
                                      (ravel d) (_H self) (_diff_penalty self))
                        pp (_acc self))
              (Some (Iterand (repeat 0 dm) (repeat 0 dm) 1))).
Proof.
  unfold set_data. destruct (_is_rgb self); [|discriminate]. cbn [negb].
  cbn [with_data _prox_penalty _H _diff_penalty _acc _max_iter].
  destruct (_prox_penalty self) as [|pp]; [discriminate|]. cbn [getattr bind].
  intros [= <-]. cbn. repeat split.
  eexists; eexists; split; reflexivity.
Qed.


(** While the generator has iterations left and the rule yields iterands
    of the size of the buffer, [_update] succeeds. *)
Lemma update_ok (n : nat) (self : t) :
  (forall f g a k x, length (iterand (rule f g a k x)) = _original_size self) ->
  sized self -> supplied (S n) self ->
  fst (_update rule self) = Ok tt /\ supplied n (snd (_update rule self)).
Proof.
  intros Hr [Hl _] (g & a & Eg & Ea & Hn).
  unfold _update. rewrite Eg, Ea. unfold next.
  destruct (remaining g) as [|r] eqn:Er; [lia|].
  cbn [pyc_iterate cur_iterand with_iterates _image_est iterand].
  unfold assign_all. rewrite Hr, Hl, Nat.eqb_refl.
  split; [reflexivity|].
  eexists; eexists. cbn. split; [reflexivity|]. split; [reflexivity|]. cbn. lia.
Qed.

Lemma updates_ok (n : nat) (self : t) :
  (forall f g a k x, length (iterand (rule f g a k x)) = _original_size self) ->
  sized self -> supplied n self ->
  fst (updates rule n self) = Ok tt.
Proof.
  revert self; induction n as [|n IH]; intros self Hr Hs Hsup; cbn.
  - reflexivity.
  - destruct (update_ok n self Hr Hs Hsup) as [E1 E2].
    pose proof (update_sized self Hs) as Hs'.
    destruct (update_frame self) as (_ & F2 & _).
    destruct (_update rule self) as [[[]|e] self']; cbn in *; [|discriminate].
    apply IH; [intros; rewrite F2; apply Hr | exact Hs' | exact E2].
Qed.


Lemma bound_as_refl (s1 : t) (a1 : APGD_pyc) :
  _apgd s1 = Some a1 -> bound_as s1 s1.
Proof.
  intros E. unfold bound_as. repeat split.
  exists a1, a1. repeat split; assumption.
Qed.

Lemma update_bound (s1 self : t) :
  bound_as s1 self -> bound_as s1 (snd (_update rule self)).
Proof.
  intros (B1 & B2 & B3 & B4 & B5 & B6 & B7 & B8 & B9 & B10 &
          a & a1 & Ea & Ea1 & D1 & D2 & D3 & D4 & D5).
  unfold _update. rewrite Ea.
  destruct (_gen self) as [g|].
  2:{ cbn [snd]. unfold bound_as. repeat split; try assumption.
      exists a, a1. repeat split; assumption. }
  assert (Hnext : exists a', snd (fst (next rule a g)) = a' /\
            dim a' = dim a1 /\ F a' = F a1 /\ G a' = G a1 /\
            acceleration a' = acceleration a1 /\
            init_iterand a' = init_iterand a1).
  { eexists; split; [reflexivity|]. unfold next.
    destruct (started g), (remaining g); cbn; repeat split; assumption. }
  destruct Hnext as (a' & En & D1' & D2' & D3' & D4' & D5').
  destruct (next rule a g) as [[r a''] g']. cbn [fst snd] in En. subst a''.
  assert (Hw : forall v, bound_as s1 (with_iterates
                  (with_image_est self v) (Some a') (Some g')) /\
               bound_as s1 (with_iterates self (Some a') (Some g')) /\
               bound_as s1 (with_image_est
                  (with_iterates self (Some a') (Some g')) v)).
  { intros v. unfold bound_as. cbn.
    repeat split; try assumption; exists a', a1; repeat split; assumption. }
  destruct r as [[]|e]; [|apply (Hw [])].
  destruct (cur_iterand a') as [it|]; [|apply (Hw [])].
  destruct (assign_all _ _) as [v|e]; [apply (Hw v)|apply (Hw [])].
Qed.

Lemma form_image_bound (s1 self : t) :
  bound_as s1 self -> bound_as s1 (snd (_form_image self)).
Proof.
  intros B. unfold _form_image. destruct (_ =? _)%nat; [|exact B].
  destruct B as (B1 & B2 & B3 & B4 & B5 & B6 & B7 & B8 & B9 & B10 & B11).
  unfold bound_as. cbn. repeat split; assumption.
Qed.

Lemma updates_bound (n : nat) (s1 self : t) :
  bound_as s1 self -> bound_as s1 (snd (updates rule n self)).
Proof.
  revert self; induction n as [|n IH]; intros self B; cbn.
  - exact B.
  - pose proof (update_bound s1 self B) as Bu.
    destruct (_update rule self) as [[[]|e] self']; cbn in *.
    + apply IH, Bu.
    + exact Bu.
Qed.

Lemma reset_bound (s1 self : t) :
  bound_as s1 self -> bound_as s1 (reset self).
Proof.
  intros (B1 & B2 & B3 & B4 & B5 & B6 & B7 & B8 & B9 & B10 &
          a & a1 & Ea & Ea1 & D1 & D2 & D3 & D4 & D5).
  unfold reset. cbn [with_image_est _apgd]. rewrite Ea.
  unfold bound_as. cbn. repeat split; try assumption.
  eexists; exists a1. split; [reflexivity|]. cbn. repeat split; assumption.
Qed.

Lemma perform_bound (s1 self : t) (m : method) :
  bound_as s1 self -> bound_as s1 (perform rule self m).
Proof.
  intros B. destruct m; cbn [perform].
  - unfold apply. pose proof (updates_bound n_iter s1 self B) as Bu.
    destruct (updates rule n_iter self) as [[[]|e] self']; cbn in *.
    + apply form_image_bound, Bu.
    + exact Bu.
  - apply update_bound, B.
  - apply form_image_bound, B.
  - apply reset_bound, B.
Qed.

Lemma history_bound (ms : list method) (s1 self : t) :
  bound_as s1 self -> bound_as s1 (history rule self ms).
Proof.
  revert self; induction ms as [|m ms IH]; intros self B; cbn.
  - exact B.
  - apply IH, perform_bound, B.
Qed.

(** [reset] brings a solver back to the state [set_data] left it in. *)
Lemma reset_restores (s1 self : t) (dm : nat) (f : objective)
    (g : option functional) (acc : option string) :
  bound_as s1 self ->
  _image_est s1 = repeat 0 (_original_size s1) ->
  _gen s1 = Some (Generator (_max_iter s1) false) ->
  _apgd s1 = Some (pyc_set_old (pyc_init dm f g acc)
                     (Some (Iterand (repeat 0 dm) (repeat 0 dm) 1))) ->
  reset self = s1.
Proof.
  intros (B1 & B2 & B3 & B4 & B5 & B6 & B7 & B8 & B9 & B10 &
          a & a1 & Ea & Ea1 & D1 & D2 & D3 & D4 & D5) Hi Hg Ha.
  unfold reset. cbn [with_image_est _apgd _max_iter _original_size]. rewrite Ea.
  rewrite Ha in Ea1. injection Ea1 as <-.
  destruct self, s1, a. cbn in *. subst. reflexivity.
Qed.

End WithRule.
End ApgdFacts.

Import APGD ApgdFacts.

(** C3.  On a solver on which [set_data] has been called, after any
    sequence of method calls, the image returned by [apply n] has no
    negative entry and the shape of the PSF the solver was constructed
    with; and [apply n] on the solver does return an image when [n] is at
    most [max_iter] and the iterates of Pycsou have the size of the PSF.
    [apply] is the one of the base class, modelled from the spec. *)
Theorem apply_image_nonnegative_shaped
    (rule : objective -> option functional -> option string -> nat ->
            iterand_t -> iterand_t)
    (cfg : apgd_config) (s0 s1 : t) (d : ndarray R)
    (ms : list method) (n : nat) :
  fst (__init__ cfg) = Ok s0 ->
  set_data s0 d = Ok s1 ->
  (forall img,
      fst (apply rule n (history rule s1 ms)) = Ok img ->
      im_shape img = shape (cfg_psf cfg) /\
      length (im_data img) = size3 (shape (cfg_psf cfg)) /\
      Forall (fun r => ~ r < 0) (im_data img)) /\
  ((forall f g a k x,
       length (iterand (rule f g a k x)) = size3 (shape (cfg_psf cfg))) ->
   (n <= cfg_max_iter cfg)%nat ->
   exists img, fst (apply rule n s1) = Ok img).
Proof.
  intros Hi Hd.
  destruct (init_sized cfg s0 Hi) as ([L0 Z0] & Sh0 & Mx0 & _).
  destruct (set_data_spec s0 d s1 Hd) as (Ei & Es & Ez & Em & _ & Eg & pp & dm & _ & Ea).
  assert (Hs1 : sized s1) by (split; congruence).
  split.
  - intros img Himg.
    pose proof (history_sized rule ms s1 Hs1) as Hh.
    pose proof (history_shape rule ms s1) as Hsh.
    unfold apply in Himg.
    pose proof (updates_sized rule n _ Hh) as Hu.
    pose proof (updates_shape rule n (history rule s1 ms)) as Hus.
    destruct (updates rule n (history rule s1 ms)) as [[[]|e] s']; cbn in *;
      [|discriminate].
    destruct (form_image_spec s' Hu) as (img' & E & A & B & D).
    rewrite E in Himg. injection Himg as <-.
    rewrite A, B. rewrite Hus, Hsh, Es, Sh0. auto.
  - intros Hr Hn. unfold apply.
    assert (Hsup : supplied n s1).
    { eexists; eexists. split; [exact Eg|]. split; [exact Ea|]. cbn. lia. }
    assert (Hr' : forall f g a k x,
               length (iterand (rule f g a k x)) = _original_size s1).
    { intros. rewrite Hr, Ez, Z0, Sh0. reflexivity. }
    pose proof (updates_ok rule n s1 Hr' Hs1 Hsup) as Hok.
    pose proof (updates_sized rule n s1 Hs1) as Hu.
    destruct (updates rule n s1) as [[[]|e] s']; cbn in *; [|discriminate].
    destruct (form_image_spec s' Hu) as (img' & E & _).
    exists img'. exact E.
Qed.

Lemma apply_image_nonnegative_shaped_witness :
  exists s0 s1 img,
    fst (__init__ (cfg_with_prox (PStr APGDPriors.NONNEG))) = Ok s0 /\
    set_data s0 psf_1x2 = Ok s1 /\
    fst (apply constant_rule 2 (history constant_rule s1 [MUpdate; MReset]))
      = Ok img /\
    (im_shape img = shape psf_1x2 /\
     length (im_data img) = size3 (shape psf_1x2) /\
     Forall (fun r => ~ r < 0) (im_data img)) /\
    exists img', fst (apply constant_rule 2 s1) = Ok img'.
Proof.
  pose proof (fun a b =>
    apply_image_nonnegative_shaped constant_rule
      (cfg_with_prox (PStr APGDPriors.NONNEG)) a b psf_1x2
      [MUpdate; MReset] 2) as X.
  edestruct X as [P1 P2]; [reflexivity|reflexivity|].
  eexists; eexists; eexists.
  split; [reflexivity|]. split; [reflexivity|].
  split; [lazy -[Rlt_dec]; reflexivity|].
  split.
  - apply P1. lazy -[Rlt_dec]. reflexivity.
  - apply P2; [intros; reflexivity | repeat constructor].
Defined.

(** C5.  On a solver with bound data [d], after any sequence of method
    calls, [reset ()] followed by [apply n] returns what [apply n] returns on
    the freshly constructed solver given [set_data d]; [reset] zeroes the
    iterand and the state of the iteration and keeps the data and the
    operator. *)
Theorem reset_then_apply_as_fresh
    (rule : objective -> option functional -> option string -> nat ->
            iterand_t -> iterand_t)
    (cfg : apgd_config) (s0 s1 : t) (d : ndarray R)
    (ms : list method) (n : nat) :
  fst (__init__ cfg) = Ok s0 ->
  set_data s0 d = Ok s1 ->
  fst (apply rule n (reset (history rule s1 ms))) = fst (apply rule n s1) /\
  _image_est (reset (history rule s1 ms))
    = repeat 0 (size3 (shape (cfg_psf cfg))) /\
  _data (reset (history rule s1 ms)) = Some d /\
  _H (reset (history rule s1 ms)) = _H s0 /\
  exists a,
    _apgd (reset (history rule s1 ms)) = Some a /\
    iter a = O /\ cur_iterand a = None.
Proof.
  intros Hi Hd.
  destruct (init_sized cfg s0 Hi) as ([L0 Z0] & Sh0 & Mx0 & _ & _ & _ & _ & Im0).
  destruct (set_data_spec s0 d s1 Hd)
    as (Ei & Es & Ez & Em & Edat & Eg & pp & dm & _ & Ea).
  assert (B : bound_as s1 (history rule s1 ms))
    by (apply history_bound, (bound_as_refl s1 _ Ea)).
  assert (R : reset (history rule s1 ms) = s1).
  { eapply reset_restores; [exact B| | |exact Ea].
    - rewrite Ei, Im0, Ez, Z0, Sh0. reflexivity.
    - rewrite Eg, Em. reflexivity. }
  rewrite R. split; [reflexivity|].
  split; [rewrite Ei; exact Im0|].
  split; [exact Edat|].
  split.
  - unfold set_data in Hd. destruct (_is_rgb s0); [|discriminate].
    cbn [negb] in Hd. destruct (getattr _); [|discriminate].
    cbn [bind] in Hd. injection Hd as <-. reflexivity.
  - eexists. split; [exact Ea|]. split; reflexivity.
Qed.

Lemma reset_then_apply_as_fresh_witness :
  exists s0 s1,
    fst (__init__ (cfg_with_prox (PStr APGDPriors.NONNEG))) = Ok s0 /\
    set_data s0 psf_1x2 = Ok s1 /\
    (fst (apply (fun _ _ _ _ x => x) 3
            (reset (history (fun _ _ _ _ x => x) s1 [MApply 2; MUpdate])))
     = fst (apply (fun _ _ _ _ x => x) 3 s1) /\
     _image_est (reset (history (fun _ _ _ _ x => x) s1 [MApply 2; MUpdate]))
       = repeat 0 (size3 (shape (cfg_psf (cfg_with_prox (PStr APGDPriors.NONNEG))))) /\
     _data (reset (history (fun _ _ _ _ x => x) s1 [MApply 2; MUpdate]))
       = Some psf_1x2 /\
     _H (reset (history (fun _ _ _ _ x => x) s1 [MApply 2; MUpdate])) = _H s0 /\
     exists a,
       _apgd (reset (history (fun _ _ _ _ x => x) s1 [MApply 2; MUpdate]))
         = Some a /\
       iter a = O /\ cur_iterand a = None).
Proof.
  eexists; eexists. split; [reflexivity|]. split; [reflexivity|].
  eapply (reset_then_apply_as_fresh (fun _ _ _ _ x => x)
           (cfg_with_prox (PStr APGDPriors.NONNEG)) _ _ psf_1x2
           [MApply 2; MUpdate] 3); reflexivity.
Defined.

(** C4, as stated, fails: a proximal penalty whose instantiation raises
    [ValueError] is unsupported, yet the constructor returns a solver,
    having printed a message. *)
Lemma unexpected_prior_is_not_raised :
  supported_prox (cfg_prox_penalty (cfg_with_prox rejecting_penalty))
                 (size3 (shape psf_1x2)) = false /\
  exists s,
    __init__ (cfg_with_prox rejecting_penalty)
      = (Ok s, ["Unexpected prior."%string]).
Proof.
  split; [reflexivity|]. eexists. reflexivity.
Qed.

(** What the solver of that construction looks like: the attribute
    [_prox_penalty] was never assigned, and [set_data] raises. *)
Lemma unexpected_prior_leaves_attribute_unassigned (s : t) (out : list string) :
  __init__ (cfg_with_prox rejecting_penalty) = (Ok s, out) ->
  _prox_penalty s = Unassigned /\
  forall d, set_data s d = Raise AttributeError.
Proof.
  intros [= <- _]. split; [reflexivity|]. intros d. reflexivity.
Qed.

(** C4, amended.  An unsupported proximal penalty that is a string, an
    object that cannot be called, or a callable whose call raises anything
    but [ValueError] makes the constructor raise.  When the call raises
    [ValueError], the constructor catches it: it raises exactly the
    exceptions that the construction with [prox_penalty=None] raises (those
    of the convolution operator and of the differentiable penalty), and
    whenever that construction returns, it prints ["Unexpected prior."] and
    returns a solver whose attribute [_prox_penalty] is not assigned. *)
Theorem unsupported_prox_penalty_outcome (cfg : apgd_config) :
  supported_prox (cfg_prox_penalty cfg) (size3 (shape (cfg_psf cfg))) = false ->
  (call_penalty (cfg_prox_penalty cfg) (size3 (shape (cfg_psf cfg)))
     <> Raise ValueError ->
   exists e, __init__ cfg = (Raise e, [])) /\
  (call_penalty (cfg_prox_penalty cfg) (size3 (shape (cfg_psf cfg)))
     = Raise ValueError ->
   (forall e, __init__ cfg = (Raise e, [])
              <-> __init__ (without_prox cfg) = (Raise e, [])) /\
   (forall s0, __init__ (without_prox cfg) = (Ok s0, []) ->
      exists s, __init__ cfg = (Ok s, ["Unexpected prior."%string]) /\
                _prox_penalty s = Unassigned) /\
   ((exists e, __init__ cfg = (Raise e, [])) \/
    (exists s, __init__ cfg = (Ok s, ["Unexpected prior."%string]) /\
               _prox_penalty s = Unassigned))).
Proof.
  intros Hu. unfold __init__, without_prox.
  cbn [cfg_psf cfg_max_iter cfg_diff_penalty cfg_prox_penalty cfg_acceleration
       cfg_diff_lambda cfg_prox_lambda].
  destruct (RealFFTConvolve2D.__init__ (cfg_psf cfg)) as [H|e0] eqn:EH.
  2:{ split; [intros _; eexists; reflexivity|]. intros _.
      split; [intros e; split; intros E; exact E|].
      split; [intros s0 [=]|]. left. eexists. reflexivity. }
  assert (En : snd (RealFFTConvolve2D.op_shape H) = size3 (shape (cfg_psf cfg))).
  { unfold RealFFTConvolve2D.__init__ in EH.
    destruct (RealFFTConvolve2D.padding _) as [[[ps st] en]|]; [|discriminate].
    cbn [bind] in EH.
    destruct (RealFFTConvolve2D.pad_with _ _ _ _); [|discriminate].
    cbn [bind] in EH. injection EH as <-. reflexivity. }
  rewrite En.
  match goal with |- context [match ?d with Ok _ => _ | Raise _ => _ end] =>
    destruct d as [dp|e0] end.
  2:{ split; [intros _; eexists; reflexivity|]. intros _.
      split; [intros e; split; intros E; exact E|].
      split; [intros s0 [=]|]. left. eexists. reflexivity. }
  cbn [base_init reset _original_shape _original_size _apgd _gen _psf _is_rgb
       _image_est _max_iter _H _diff_penalty _prox_penalty _acc _data
       with_image_est].
  destruct (cfg_prox_penalty cfg) as [|s|b c|b];
    cbn [supported_prox penalty_eqb call_penalty] in *.
  - discriminate.
  - apply orb_false_iff in Hu as [-> ->].
    split; [intros _; eexists; reflexivity | discriminate].
  - destruct (c (size3 (shape (cfg_psf cfg)))) as [f|e]; [discriminate|].
    split.
    + intros Hne. destruct e; try (eexists; reflexivity). congruence.
    + intros [= ->].
      split; [intros e; split; intros E; discriminate E|].
      split; [intros s0 _|right]; (eexists; split; reflexivity).
  - split; [intros _; eexists; reflexivity | discriminate].
Qed.

Lemma unsupported_prox_penalty_outcome_witness :
  (exists e, __init__ (cfg_with_prox (PStr "tv")) = (Raise e, [])) /\
  (forall e, __init__ (cfg_with_prox rejecting_penalty) = (Raise e, [])
             <-> __init__ (without_prox (cfg_with_prox rejecting_penalty))
                 = (Raise e, [])) /\
  (exists s, __init__ (cfg_with_prox rejecting_penalty)
             = (Ok s, ["Unexpected prior."%string]) /\
             _prox_penalty s = Unassigned).
Proof.
  split.
  - apply (proj1 (unsupported_prox_penalty_outcome
                    (cfg_with_prox (PStr "tv")) eq_refl)).
    discriminate.
  - destruct (proj2 (unsupported_prox_penalty_outcome
                       (cfg_with_prox rejecting_penalty) eq_refl) eq_refl)
      as (Hraise & Hreturn & _).
    split; [exact Hraise|].
    assert (Hnone : exists s0,
              __init__ (without_prox (cfg_with_prox rejecting_penalty))
              = (Ok s0, [])) by (eexists; reflexivity).
    destruct Hnone as (s0 & Hs0). exact (Hreturn s0 Hs0).
Defined.


(** * The training loop *)

Module DictFacts.

Lemma dict_get_set_same {V} (d : dict V) (k : string) (v0 v : V) :
  dict_get d k = Ok v0 -> dict_get (dict_set d k v) k = Ok v.
Proof.
  induction d as [|[k' v'] d IH]; cbn; [discriminate|].
  destruct (String.eqb k' k) eqn:E; cbn; rewrite E; auto.
Qed.

Lemma dict_get_set_other {V} (d : dict V) (k k' : string) (v : V) :
  k' <> k -> dict_get (dict_set d k v) k' = dict_get d k'.
Proof.
  intros Hne. induction d as [|[k0 v0] d IH]; cbn.
  - destruct (String.eqb_spec k k'); [congruence|reflexivity].
  - destruct (String.eqb_spec k0 k) as [->|N]; cbn.
    + destruct (String.eqb_spec k k'); [congruence|reflexivity].
    + destruct (String.eqb_spec k0 k'); [reflexivity|exact IH].
Qed.

Lemma dict_keys_set_present {V} (d : dict V) (k : string) (v0 v : V) :
  dict_get d k = Ok v0 -> dict_keys (dict_set d k v) = dict_keys d.
Proof.
  unfold dict_keys.
  induction d as [|[k' v'] d IH]; cbn; [discriminate|].
  destruct (String.eqb k' k) eqn:E; cbn; [reflexivity|].
  intros H. f_equal. apply IH, H.
Qed.

Lemma dict_get_In_keys {V} (d : dict V) (k : string) (v : V) :
  dict_get d k = Ok v -> In k (dict_keys d).
Proof.
  unfold dict_keys.
  induction d as [|[k' v'] d IH]; cbn; [discriminate|].
  destruct (String.eqb_spec k' k) as [->|N]; [left; reflexivity|].
  intros H. right. apply IH, H.
Qed.

(** [d[k].append(x)] on a list entry. *)
Lemma dict_append_list (d : dict mvalue) (k : string) (l : list fl) (x : fl) :
  dict_get d k = Ok (VList l) ->
  dict_append d k x = Ok (dict_set d k (VList (l ++ [x]))).
Proof. intros H. unfold dict_append. rewrite H. reflexivity. Qed.

End DictFacts.

Module TrainerFacts.
Import Trainer DictFacts.

Section WithCollaborators.
Variable batch : Type.
Variable forward_backward :
  list parameter -> option (list parameter) -> batch ->
  fl * list (option (list fl)) * list (option (list fl)).
Variable clip_grad_norm_ : list parameter -> R -> list parameter.
Variable optimizer_step : list parameter -> list parameter.
Variable update_mask : list parameter -> list parameter.
Variable benchmark : list parameter -> dict R.
Variable mask_l1 : list parameter -> R.

Let step := train_step forward_backward clip_grad_norm_ optimizer_step
                      update_mask.

(** With [skip_NAN] and no mask, the first batch raises. *)
Lemma train_step_no_mask (self : t) (b : batch) :
  skip_NAN self = true -> mask self = None -> use_mask self = false ->
  nan_hooks self = false ->
  fst (step self b) = Raise AttributeError /\
  map p_data (recon (snd (step self b))) = map p_data (recon self).
Proof.
  intros Hs Hm Hu Hh. unfold step.
  assert (Hd : forall gr, map p_data (accumulate_all (recon self) gr)
                          = map p_data (recon self)).
  { induction (recon self) as [|p ps IH]; intros [|g gs]; cbn;
      try reflexivity.
    f_equal; [destruct g; reflexivity | apply IH]. }
  destruct self as [r htd lp sk mk um l1 cg mt nh pr].
  cbn in Hs, Hm, Hu, Hh, Hd. subst. unfold train_step.
  cbn [recon mask nan_hooks andb].
  destruct (forward_backward r None b) as [[loss gr] gm].
  cbn [with_params use_mask clip_grad_norm mask skip_NAN recon
       has_test_dataset lpips l1_mask metrics nan_hooks printed
       mask_parameters].
  destruct cg as [c|]; cbn [fst snd recon]; split;
    try reflexivity; apply Hd.
Qed.

(** The training pass leaves the metrics alone. *)
Lemma train_step_metrics (self : t) (b : batch) :
  metrics (snd (step self b)) = metrics self.
Proof.
  destruct self as [r htd lp sk mk um l1 cg mt nh pr].
  unfold step, train_step. cbn [recon mask nan_hooks].
  destruct (forward_backward r mk b) as [[loss gr] gm].
  destruct (nh && hook_fires r gr); [reflexivity|].
  cbn [with_params use_mask clip_grad_norm mask skip_NAN recon
       has_test_dataset lpips l1_mask metrics nan_hooks printed].
  destruct um, mk as [ps|], cg as [c|], sk;
    repeat first
      [ progress cbn [with_params print use_mask clip_grad_norm mask skip_NAN
                      recon has_test_dataset lpips l1_mask metrics nan_hooks
                      printed mask_parameters fst snd]
      | match goal with
        | |- context [if ?c then _ else _] => destruct c
        end ]; reflexivity.
Qed.

Lemma accumulate_all_data (ps : list parameter) (gs : list (option (list fl))) :
  map p_data (accumulate_all ps gs) = map p_data ps.
Proof.
  revert gs; induction ps as [|p ps IH]; intros [|g gs]; cbn; try reflexivity.
  f_equal; [destruct g; reflexivity | apply IH].
Qed.

(** The sibling path: with a mask, a step that is skipped leaves the values
    of all parameters as they were ([clip_grad_norm_] only rescales
    gradients). *)
Lemma skipped_step_keeps_parameters (self : t) (b : batch) :
  (forall ps c, map p_data (clip_grad_norm_ ps c) = map p_data ps) ->
  fst (step self b) = Ok Skipped ->
  map p_data (recon (snd (step self b))) = map p_data (recon self) /\
  option_map (map p_data) (mask (snd (step self b)))
    = option_map (map p_data) (mask self).
Proof.
  intros Hclip.
  destruct self as [r htd lp sk mk um l1 cg mt nh pr].
  unfold step, train_step. cbn [recon mask nan_hooks].
  destruct (forward_backward r mk b) as [[loss gr] gm].
  destruct (nh && hook_fires r gr); [discriminate|].
  destruct um, mk as [ps|], cg as [c|], sk;
    repeat first
      [ progress cbn [with_params print use_mask clip_grad_norm mask skip_NAN
                      recon has_test_dataset lpips l1_mask metrics nan_hooks
                      printed mask_parameters fst snd option_map]
      | discriminate
      | match goal with
        | |- context [if ?c then _ else _] => destruct c
        end ];
    intros _; rewrite ?Hclip, ?accumulate_all_data; split; reflexivity.
Qed.

Lemma train_loop_metrics (bs : list batch) (self : t) (m : fl) (i : R) :
  metrics (snd (train_loop forward_backward clip_grad_norm_ optimizer_step
                           update_mask self bs m i)) = metrics self.
Proof.
  revert self m i; induction bs as [|b bs IH]; intros self m i; cbn.
  - reflexivity.
  - pose proof (train_step_metrics self b) as Hs.
    unfold step in Hs.
    destruct (train_step _ _ _ _ self b) as [[[l|]|e] self']; cbn in *;
      try rewrite IH; exact Hs.
Qed.


Lemma metrics_inv_equal_lengths (d : dict mvalue) (n : nat) :
  metrics_inv d n -> equal_lengths d.
Proof.
  intros (Ha & Hb & _) k1 l1 k2 l2 H1 H2.
  destruct (Ha k1 (Hb _ _ H1)) as (l1' & E1 & L1).
  destruct (Ha k2 (Hb _ _ H2)) as (l2' & E2 & L2).
  assert (l1 = l1') by congruence. assert (l2 = l2') by congruence.
  congruence.
Qed.

Lemma appended_refl (d : dict mvalue) : appended d d.
Proof.
  split; [reflexivity|]. intros k l H. exists []. rewrite app_nil_r. exact H.
Qed.

Lemma appended_trans (d1 d2 d3 : dict mvalue) :
  appended d1 d2 -> appended d2 d3 -> appended d1 d3.
Proof.
  intros [K1 A1] [K2 A2]. split; [congruence|].
  intros k l H. destruct (A1 k l H) as (l' & H').
  destruct (A2 k _ H') as (l'' & H''). exists (l' ++ l'').
  rewrite app_assoc. exact H''.
Qed.

Lemma initial_metrics_inv (n_iter : nat) (name : string) (m : option string) :
  metrics_inv (initial_metrics n_iter name m) 0.
Proof.
  split; [|split].
  - intros k Hk. exists []. split; [|reflexivity].
    cbn in Hk. repeat (destruct Hk as [<-|Hk]; [reflexivity|]). destruct Hk.
  - intros k l H.
    destruct (in_dec string_dec k tracked) as [Hin|Hnot]; [exact Hin|].
    exfalso.
    assert (Hne : forall a, In a tracked -> String.eqb a k = false).
    { intros a Ha. apply String.eqb_neq. intros ->. contradiction. }
    unfold initial_metrics in H. cbn [dict_get] in H.
    rewrite (Hne "LOSS"%string), (Hne "MSE"%string), (Hne "MAE"%string),
      (Hne "LPIPS_Vgg"%string), (Hne "LPIPS_Alex"%string),
      (Hne "PSNR"%string), (Hne "SSIM"%string),
      (Hne "ReconstructionError"%string) in H by (cbn; tauto).
    repeat match type of H with
           | context [String.eqb ?a ?b] => destruct (String.eqb a b)
           end; try discriminate;
      destruct m as [m|]; try discriminate;
      destruct (_ || _)%bool; discriminate.
  - exists O. reflexivity.
Qed.

(** The loop of appends succeeds on keys that hold lists and extends each
    of them by one element. *)
Lemma append_current_spec (cur : dict R) (d : dict mvalue) :
  NoDup (dict_keys cur) ->
  (forall k, In k (dict_keys cur) -> exists l, dict_get d k = Ok (VList l)) ->
  exists d',
    append_current d cur = (Ok tt, d') /\
    dict_keys d' = dict_keys d /\
    (forall k l, dict_get d k = Ok (VList l) -> In k (dict_keys cur) ->
                 exists x, dict_get d' k = Ok (VList (l ++ [x]))) /\
    (forall k, ~ In k (dict_keys cur) -> dict_get d' k = dict_get d k).
Proof.
  revert d; induction cur as [|[k0 v0] rest IH]; intros d Hnd Hl.
  - exists d. cbn. repeat split; auto. intros k l _ [].
  - cbn [dict_keys map fst] in Hnd, Hl. inversion Hnd as [|? ? Hnotin Hnd']; subst.
    destruct (Hl k0 (or_introl eq_refl)) as (l0 & E0).
    cbn [append_current]. rewrite (dict_append_list d k0 l0 (Num v0) E0).
    set (d1 := dict_set d k0 (VList (l0 ++ [Num v0]))).
    assert (Hother : forall k, k <> k0 -> dict_get d1 k = dict_get d k)
      by (intros k Hk; apply dict_get_set_other; exact Hk).
    destruct (IH d1 Hnd') as (d' & Er & Kr & Ar & Or).
    { intros k Hk. rewrite Hother; [apply Hl; right; exact Hk|].
      intros ->. apply Hnotin, Hk. }
    exists d'. split; [exact Er|]. split; [|split].
    + rewrite Kr. apply (dict_keys_set_present d k0 (VList l0)), E0.
    + cbn [dict_keys map fst]. intros k l Hk [E|Hin]; [subst k|].
      * exists (Num v0). rewrite (Or k0 Hnotin). unfold d1.
        rewrite (dict_get_set_same d k0 (VList l0)) by exact E0.
        congruence.
      * apply Ar; [|exact Hin]. rewrite Hother; [exact Hk|].
        intros ->. apply Hnotin, Hin.
    + cbn [dict_keys map fst]. intros k Hk.
      rewrite Or by (intros Hin; apply Hk; right; exact Hin).
      apply Hother. intros ->. apply Hk. left; reflexivity.
Qed.


Lemma loss_not_reported (cur : dict R) :
  reports cur -> ~ In "LOSS"%string (dict_keys cur).
Proof.
  intros [_ Hk] Hin. apply Hk in Hin. cbn in Hin.
  repeat (destruct Hin as [Hin|Hin]; [discriminate|]). exact Hin.
Qed.

Lemma tracked_not_best_epoch (k : string) :
  In k tracked -> k <> "best_epoch"%string /\ k <> "best_eval_score"%string.
Proof.
  intros Hk. cbn in Hk.
  repeat (destruct Hk as [<-|Hk]; [split; discriminate|]). destruct Hk.
Qed.

Lemma evaluate_metrics (self : t) (mean_loss : fl) (n : nat) :
  (forall r, reports (benchmark r)) ->
  metrics_inv (metrics self) n ->
  appended (metrics self) (metrics (snd (evaluate benchmark mask_l1 self mean_loss))) /\
  exists n', metrics_inv (metrics (snd (evaluate benchmark mask_l1 self mean_loss))) n'.
Proof.
  intros Hb Hinv. unfold evaluate.
  destruct (has_test_dataset self); cbn [negb].
  2:{ split; [apply appended_refl|exists n; exact Hinv]. }
  destruct Hinv as (Ha & Hlists & (be & Hbe)).
  destruct (Ha "LOSS"%string (or_introl eq_refl)) as (l0 & E0 & L0).
  rewrite (dict_append_list _ _ l0 mean_loss E0).
  set (d0 := dict_set (metrics self) "LOSS" (VList (l0 ++ [mean_loss]))).
  destruct (Hb (recon self)) as [Hnd Hk].
  pose proof (loss_not_reported _ (Hb (recon self))) as Hloss.
  assert (Hother : forall k, k <> "LOSS"%string ->
                     dict_get d0 k = dict_get (metrics self) k)
    by (intros k Hne; apply dict_get_set_other; exact Hne).
  destruct (append_current_spec (benchmark (recon self)) d0 Hnd)
    as (d' & Er & Kr & Ar & Or).
  { intros k Hin. rewrite Hother by (intros ->; apply Hloss, Hin).
    destruct (Ha k) as (l & E & _); [right; apply Hk, Hin|]. exists l; exact E. }
  rewrite Er.
  assert (Hfinal : forall k l, dict_get (metrics self) k = Ok (VList l) ->
                     exists x, dict_get d' k = Ok (VList (l ++ [x]))).
  { intros k l Hg. destruct (Hlists k l Hg) as [E|Hin]; [subst k|].
    - exists mean_loss. rewrite (Or _ Hloss). unfold d0.
      rewrite (dict_get_set_same _ _ (VList l0)) by exact E0. congruence.
    - apply Ar; [|apply Hk, Hin]. rewrite Hother; [exact Hg|].
      intros ->. apply Hloss, Hk, Hin. }
  assert (Hres : appended (metrics self) d' /\ metrics_inv d' (S n)).
  { split; [split|split; [|split]].
    - rewrite Kr. apply (dict_keys_set_present _ _ (VList l0)), E0.
    - intros k l Hg. destruct (Hfinal k l Hg) as (x & Hx). exists [x]; exact Hx.
    - intros k Hin. destruct (Ha k Hin) as (l & E & L).
      destruct (Hfinal k l E) as (x & Hx). exists (l ++ [x]).
      split; [exact Hx|]. rewrite length_app. cbn. lia.
    - intros k l Hg.
      destruct (in_dec string_dec k tracked) as [Hin|Hnot]; [exact Hin|].
      exfalso. assert (Hk1 : k <> "LOSS"%string)
        by (intros ->; apply Hnot; left; reflexivity).
      assert (Hk2 : ~ In k (dict_keys (benchmark (recon self))))
        by (intros Hin; apply Hnot; right; apply Hk, Hin).
      rewrite (Or k Hk2), (Hother k Hk1) in Hg. apply Hnot, (Hlists k l Hg).
    - exists be. rewrite Or, Hother; [exact Hbe|discriminate|].
      intros Hin. apply Hk in Hin. cbn in Hin.
      repeat (destruct Hin as [Hin|Hin]; [discriminate|]). exact Hin. }
  destruct Hres as [Happ Hinv'].
  assert (Hm : forall (r : res (option R)),
            metrics (snd (r, with_metrics self d')) = d') by reflexivity.
  destruct (dict_get d' "metric_for_best_model") as [[l|m|s|  |x]|e];
    cbn [snd with_metrics metrics]; (split; [exact Happ|exists (S n); exact Hinv']).
Qed.

Lemma on_epoch_end_metrics (self : t) (mean_loss : fl) (ep n : nat) :
  (forall r, reports (benchmark r)) ->
  metrics_inv (metrics self) n ->
  appended (metrics self)
           (metrics (snd (on_epoch_end benchmark mask_l1 self mean_loss ep))) /\
  exists n', metrics_inv
               (metrics (snd (on_epoch_end benchmark mask_l1 self mean_loss ep))) n'.
Proof.
  intros Hb Hinv. unfold on_epoch_end.
  destruct (evaluate_metrics self mean_loss n Hb Hinv) as (Happ & n' & Hinv').
  destruct (evaluate benchmark mask_l1 self mean_loss) as [[[v|]|e] self1];
    cbn [snd] in *; try (split; [exact Happ|exists n'; exact Hinv']).
  destruct (dict_get (metrics self1) "metric_for_best_model") as [m|e];
    [|split; [exact Happ|exists n'; exact Hinv']].
  destruct (dict_get (metrics self1) "best_eval_score") as [[l|k|s|  |best]|e] eqn:Eb;
    try (split; [exact Happ|exists n'; exact Hinv']).
  match goal with |- context [if ?c then _ else _] => destruct c end;
    [|split; [exact Happ|exists n'; exact Hinv']].
  cbn [snd with_metrics metrics].
  set (d := metrics self1) in *.
  set (d1 := dict_set d "best_eval_score" (VFloat (Num v))).
  destruct Hinv' as (Ha & Hlists & (be & Hbe)).
  assert (G1 : forall k, k <> "best_eval_score"%string ->
                 dict_get d1 k = dict_get d k)
    by (intros k Hk; apply dict_get_set_other; exact Hk).
  assert (Hbe1 : dict_get d1 "best_epoch" = Ok (VInt be))
    by (rewrite G1; [exact Hbe|discriminate]).
  assert (G2 : forall k, k <> "best_epoch"%string ->
                 dict_get (dict_set d1 "best_epoch" (VInt ep)) k = dict_get d1 k)
    by (intros k Hk; apply dict_get_set_other; exact Hk).
  assert (Hlist2 : forall k l, dict_get d k = Ok (VList l) ->
             dict_get (dict_set d1 "best_epoch" (VInt ep)) k = Ok (VList l)).
  { intros k l Hg. destruct (tracked_not_best_epoch k (Hlists k l Hg)) as [N1 N2].
    rewrite G2, G1; assumption. }
  split.
  - apply (appended_trans _ d _ Happ). split.
    + rewrite (dict_keys_set_present d1 _ (VInt be)) by exact Hbe1.
      apply (dict_keys_set_present d _ (VFloat best)), Eb.
    + intros k l Hg. exists []. rewrite app_nil_r. apply Hlist2, Hg.
  - exists n'. split; [|split].
    + intros k Hin. destruct (Ha k Hin) as (l & E & L). exists l.
      split; [apply Hlist2, E|exact L].
    + intros k l Hg.
      destruct (string_dec k "best_epoch") as [->|N2].
      { rewrite (dict_get_set_same d1 _ (VInt be)) in Hg by exact Hbe1.
        discriminate. }
      rewrite G2 in Hg by exact N2.
      destruct (string_dec k "best_eval_score") as [->|N1].
      { unfold d1 in Hg.
        rewrite (dict_get_set_same d _ (VFloat best)) in Hg by exact Eb.
        discriminate. }
      rewrite G1 in Hg by exact N1. apply (Hlists k l Hg).
    + exists ep. apply (dict_get_set_same d1 _ (VInt be)), Hbe1.
Qed.

Lemma init_metrics (cfg : config) (self : t) :
  __init__ cfg = Ok self ->
  metrics_inv (metrics self) 0 /\
  skip_NAN self = cfg_skip_NAN cfg /\ mask self = cfg_mask cfg /\
  use_mask self = (match cfg_mask cfg with Some _ => true | None => false end) /\
  nan_hooks self = negb (cfg_skip_NAN cfg) /\ recon self = cfg_recon cfg.
Proof.
  unfold __init__. destruct (negb _); [discriminate|].
  destruct (cfg_metric_for_best_model cfg) as [k|]; cbn [bind].
  - destruct (existsb _ _); cbn [bind]; [|discriminate].
    intros [= <-]. cbn. split; [apply initial_metrics_inv|tauto].
  - intros [= <-]. cbn. split; [apply initial_metrics_inv|tauto].
Qed.

(** Along any run the lists of the metrics stay equally long and are only
    appended to. *)
Lemma reaches_metrics (s0 s : t) (n : nat) :
  (forall r, reports (benchmark r)) ->
  metrics_inv (metrics s0) n ->
  reaches forward_backward clip_grad_norm_ optimizer_step update_mask
          benchmark mask_l1 s0 s ->
  appended (metrics s0) (metrics s) /\ exists n', metrics_inv (metrics s) n'.
Proof.
  intros Hb Hinv Hr. induction Hr as [|s bs Hr IH|s ml Hr IH|s ml ep Hr IH].
  - split; [apply appended_refl|exists n; exact Hinv].
  - unfold train_epoch. rewrite train_loop_metrics. exact IH.
  - destruct IH as (Happ & n' & Hinv').
    destruct (evaluate_metrics s ml n' Hb Hinv') as (Happ' & n'' & Hinv'').
    split; [eapply appended_trans; eassumption|exists n''; exact Hinv''].
  - destruct IH as (Happ & n' & Hinv').
    destruct (on_epoch_end_metrics s ml ep n' Hb Hinv') as (Happ' & n'' & Hinv'').
    split; [eapply appended_trans; eassumption|exists n''; exact Hinv''].
Qed.

End WithCollaborators.
End TrainerFacts.

Import Trainer DictFacts TrainerFacts.

(** C6: the code departs from the claim.  With [skip_NAN = True] and no
    mask, the first batch of a training pass raises [AttributeError] (from
    [self.mask.parameters()]), whatever the gradients are: the step is not
    skipped and the pass does not go on to the next batch. *)
Theorem skip_nan_without_mask_raises
    (batch : Type)
    (forward_backward :
       list parameter -> option (list parameter) -> batch ->
       fl * list (option (list fl)) * list (option (list fl)))
    (clip_grad_norm_ : list parameter -> R -> list parameter)
    (optimizer_step update_mask : list parameter -> list parameter)
    (cfg : config) (self : t) (b : batch) (bs : list batch) :
  __init__ cfg = Ok self ->
  cfg_skip_NAN cfg = true -> cfg_mask cfg = None ->
  fst (train_epoch forward_backward clip_grad_norm_ optimizer_step
                   update_mask self (b :: bs)) = Raise AttributeError.
Proof.
  intros Hi Hs Hm.
  destruct (init_metrics cfg self Hi) as (_ & E1 & E2 & E3 & E4 & _).
  rewrite Hs in E1, E4. rewrite Hm in E2, E3. cbn in E4.
  destruct (train_step_no_mask batch forward_backward clip_grad_norm_
              optimizer_step update_mask self b E1 E2 E3 E4) as [Hr _].
  unfold train_epoch. cbn [train_loop].
  destruct (train_step _ _ _ _ self b) as [r self']. cbn [fst] in Hr.
  rewrite Hr. reflexivity.
Qed.

Lemma skip_nan_without_mask_raises_witness :
  exists self,
    __init__ cfg_skip_nan_no_mask = Ok self /\
    fst (train_epoch nan_backward (fun ps _ => ps) (fun ps => ps)
                     (fun ps => ps) self [tt; tt]) = Raise AttributeError.
Proof.
  eexists. split; [reflexivity|].
  apply (skip_nan_without_mask_raises unit nan_backward (fun ps _ => ps)
           (fun ps => ps) (fun ps => ps) cfg_skip_nan_no_mask);
    reflexivity.
Defined.

(** C9.  From the trainer [__init__] builds, along any sequence of
    training passes, evaluations and end-of-epoch calls, all list-valued
    entries of the metrics dictionary have one length, and from any state to
    any later one the keys stay and every list is only appended to.  The
    benchmark is a collaborator that reports one value under each of its
    names. *)
Theorem metrics_lists_equal_length_append_only
    (batch : Type)
    (forward_backward :
       list parameter -> option (list parameter) -> batch ->
       fl * list (option (list fl)) * list (option (list fl)))
    (clip_grad_norm_ : list parameter -> R -> list parameter)
    (optimizer_step update_mask : list parameter -> list parameter)
    (benchmark : list parameter -> dict R)
    (mask_l1 : list parameter -> R)
    (cfg : config) (s0 s s' : t) :
  (forall r, reports (benchmark r)) ->
  __init__ cfg = Ok s0 ->
  reaches forward_backward clip_grad_norm_ optimizer_step update_mask
          benchmark mask_l1 s0 s ->
  reaches forward_backward clip_grad_norm_ optimizer_step update_mask
          benchmark mask_l1 s s' ->
  equal_lengths (metrics s) /\
  equal_lengths (metrics s') /\
  appended (metrics s) (metrics s').
Proof.
  intros Hb Hi R1 R2.
  destruct (init_metrics cfg s0 Hi) as (Hinv0 & _).
  destruct (reaches_metrics batch forward_backward clip_grad_norm_
              optimizer_step update_mask benchmark mask_l1 s0 s 0 Hb Hinv0 R1)
    as (_ & n & Hinv).
  destruct (reaches_metrics batch forward_backward clip_grad_norm_
              optimizer_step update_mask benchmark mask_l1 s s' n Hb Hinv R2)
    as (Happ & n' & Hinv').
  split; [apply (metrics_inv_equal_lengths _ n), Hinv|].
  split; [apply (metrics_inv_equal_lengths _ n'), Hinv'|exact Happ].
Qed.

Lemma zero_benchmark_reports (r : list parameter) : reports (zero_benchmark r).
Proof.
  split.
  - unfold zero_benchmark, dict_keys. rewrite map_map. cbn [fst].
    rewrite map_id. unfold benchmark_names.
    repeat (constructor; [cbn; intros H;
      repeat (destruct H as [H|H]; [discriminate|]); exact H|]).
    constructor.
  - intros k. unfold zero_benchmark, dict_keys. rewrite map_map. cbn [fst].
    rewrite map_id. tauto.
Defined.

Lemma metrics_lists_equal_length_append_only_witness :
  exists s0,
    __init__ cfg_skip_nan_no_mask = Ok s0 /\
    let s := snd (evaluate zero_benchmark (fun _ => 0) s0 (Num 1)) in
    let s' := snd (on_epoch_end zero_benchmark (fun _ => 0) s (Num 2) 2) in
    equal_lengths (metrics s) /\
    equal_lengths (metrics s') /\
    appended (metrics s) (metrics s').
Proof.
  eexists. split; [reflexivity|].
  eapply (metrics_lists_equal_length_append_only unit nan_backward
           (fun ps _ => ps) (fun ps => ps) (fun ps => ps) zero_benchmark
           (fun _ => 0) cfg_skip_nan_no_mask).
  - exact zero_benchmark_reports.
  - reflexivity.
  - apply reaches_evaluate, reaches_here.
  - apply reaches_on_epoch_end, reaches_here.
Defined.



(** * The closed-form solver: Bayer channels *)


(** C8.  For a four-channel Bayer array (blue, green-blue, green-red,
    red), the RGB array of [bayer2rgb] before normalisation has the blue
    channel (index 2) equal to channel 0, the green channel (index 1) equal
    to the elementwise average of channels 1 and 2, and the red channel
    (index 0) equal to channel 3; it is what [bayer2rgb] returns with
    [normalize=False] and what it normalises otherwise. *)
Theorem bayer2rgb_channels (X : ndarray R) (h w : nat) :
  shape X = (h, w, 4%nat) ->
  exists raw,
    demosaic X = Ok raw /\
    shape raw = (h, w, 3%nat) /\
    (forall i j,
        item raw i j 2%nat = item X i j 0%nat /\
        item raw i j 1%nat = 0.5 * (item X i j 1%nat + item X i j 2%nat) /\
        item raw i j 1%nat = (item X i j 1%nat + item X i j 2%nat) / 2 /\
        item raw i j 0%nat = item X i j 3%nat) /\
    bayer2rgb X true = normalize01 raw /\
    exists rgb,
      bayer2rgb X false = Ok rgb /\ shape rgb = (h, w, 3%nat) /\
      forall i j k, item rgb i j k = Num (item raw i j k).
Proof.
  intros Hs. unfold bayer2rgb, demosaic. rewrite Hs. cbn [Nat.ltb Nat.leb bind].
  eexists. split; [reflexivity|]. cbn [shape item].
  split; [reflexivity|]. split.
  - intros i j. repeat split; try reflexivity. lra.
  - split; [reflexivity|]. eexists. split; [reflexivity|].
    split; reflexivity.
Qed.

Lemma bayer2rgb_channels_witness :
  exists raw,
    demosaic (NdArray (1, 1, 4)%nat (fun _ _ k => INR k)) = Ok raw /\
    shape raw = (1, 1, 3)%nat /\
    (forall i j,
        item raw i j 2%nat = INR 0 /\
        item raw i j 1%nat = 0.5 * (INR 1 + INR 2) /\
        item raw i j 1%nat = (INR 1 + INR 2) / 2 /\
        item raw i j 0%nat = INR 3) /\
    bayer2rgb (NdArray (1, 1, 4)%nat (fun _ _ k => INR k)) true
      = normalize01 raw /\
    exists rgb,
      bayer2rgb (NdArray (1, 1, 4)%nat (fun _ _ k => INR k)) false = Ok rgb /\
      shape rgb = (1, 1, 3)%nat /\
      forall i j k, item rgb i j k = Num (item raw i j k).
Proof.
  apply (bayer2rgb_channels (NdArray (1, 1, 4)%nat (fun _ _ k => INR k)) 1 1).
  reflexivity.
Defined.



(** * The closed-form solver: the regularised least-squares solution *)

Module MatrixFacts.
Import SumFacts.

Lemma mm_assoc (n1 n2 : nat) (A B C : nat -> nat -> R) :
  mm n2 (mm n1 A B) C = mm n1 A (mm n2 B C).
Proof.
  extensionality i; extensionality j. unfold mm.
  transitivity (Rsum n2 (fun k => Rsum n1 (fun a => A i a * B a k * C k j))).
  { apply Rsum_ext; intros k _. rewrite <- Rsum_scal_r. reflexivity. }
  rewrite Rsum_swap. apply Rsum_ext; intros a _.
  rewrite <- Rsum_scal_l. apply Rsum_ext; intros k _. ring.
Qed.

Lemma mm_ext_r (n : nat) (A B B' : nat -> nat -> R) :
  (forall k j, (k < n)%nat -> B k j = B' k j) -> mm n A B = mm n A B'.
Proof.
  intros H. extensionality i; extensionality j. unfold mm.
  apply Rsum_ext; intros k Hk. rewrite H by exact Hk. reflexivity.
Qed.

Lemma mm_ext_l (n : nat) (A A' B : nat -> nat -> R) :
  (forall i k, (k < n)%nat -> A i k = A' i k) -> mm n A B = mm n A' B.
Proof.
  intros H. extensionality i; extensionality j. unfold mm.
  apply Rsum_ext; intros k Hk. rewrite H by exact Hk. reflexivity.
Qed.

Lemma tr_mm (n : nat) (A B : nat -> nat -> R) :
  tr (mm n A B) = mm n (tr B) (tr A).
Proof.
  extensionality i; extensionality j. unfold tr, mm.
  apply Rsum_ext; intros k _. ring.
Qed.

Lemma Rsum_delta_l (n a : nat) (f : nat -> R) :
  (a < n)%nat -> Rsum n (fun b => delta a b * f b) = f a.
Proof.
  intros Ha. rewrite <- (Rsum_pick n a f Ha).
  apply Rsum_ext; intros b _. unfold delta.
  rewrite Nat.eqb_sym. destruct (b =? a)%nat; ring.
Qed.

(** A product [A B] that is diagonal on the leading block, with diagonal
    [d], acts on the rows below [n] as the scaling by [d]. *)
Lemma absorb (m n : nat) (d : nat -> R) (A B Z : nat -> nat -> R) :
  (forall a b, (a < n)%nat -> (b < n)%nat ->
               Rsum m (fun x => A a x * B x b) = d a * delta a b) ->
  forall a j, (a < n)%nat -> mm m A (mm n B Z) a j = d a * Z a j.
Proof.
  intros H a j Ha. rewrite <- mm_assoc. unfold mm at 1.
  transitivity (Rsum n (fun b => d a * (delta a b * Z b j))).
  - apply Rsum_ext; intros b Hb. unfold mm. rewrite H by assumption. ring.
  - rewrite Rsum_scal_l, Rsum_delta_l by exact Ha. reflexivity.
Qed.

(** Exchanging a double sum with another double sum. *)
Lemma Rsum_swap22 (m p n q : nat) (f : nat -> nat -> nat -> nat -> R) :
  Rsum m (fun i => Rsum p (fun j => Rsum n (fun k => Rsum q (fun l => f i j k l))))
  = Rsum n (fun k => Rsum q (fun l => Rsum m (fun i => Rsum p (fun j => f i j k l)))).
Proof.
  transitivity
    (Rsum m (fun i => Rsum n (fun k => Rsum p (fun j => Rsum q (fun l => f i j k l))))).
  { apply Rsum_ext; intros i _. apply Rsum_swap. }
  rewrite Rsum_swap. apply Rsum_ext; intros k _.
  transitivity
    (Rsum m (fun i => Rsum q (fun l => Rsum p (fun j => f i j k l)))).
  { apply Rsum_ext; intros i _. apply Rsum_swap. }
  apply Rsum_swap.
Qed.

Lemma Rsum_plus_2 (n m : nat) (f g : nat -> nat -> R) :
  Rsum n (fun i => Rsum m (fun j => f i j + g i j))
  = Rsum n (fun i => Rsum m (fun j => f i j))
    + Rsum n (fun i => Rsum m (fun j => g i j)).
Proof.
  rewrite <- Rsum_plus. apply Rsum_ext; intros i _. apply Rsum_plus.
Qed.

Lemma Rsum_scal_l_2 (n m : nat) (c : R) (f : nat -> nat -> R) :
  Rsum n (fun i => Rsum m (fun j => c * f i j))
  = c * Rsum n (fun i => Rsum m (fun j => f i j)).
Proof.
  rewrite <- Rsum_scal_l. apply Rsum_ext; intros i _. apply Rsum_scal_l.
Qed.

End MatrixFacts.

Module LeastSquares.
Import SumFacts MatrixFacts.

Section Problem.

Variables m n p q : nat.
Variables P Q Y : nat -> nat -> R.
Variable lmbd : R.
Variables U Vh Rm Wh : nat -> nat -> R.
Variables s t : nat -> R.
Variable G : nat -> nat -> R.

Let US : nat -> nat -> R := fun i a => U i a * s a.
Let RT : nat -> nat -> R := fun j b => Rm j b * t b.
Let Xs : nat -> nat -> R := mm q (mm n (tr Vh) G) Wh.

(** [P = U diag(s) Vh] and [Q = Rm diag(t) Wh] with orthonormal factors. *)
Hypothesis HP : forall i k, (i < m)%nat -> (k < n)%nat -> P i k = mm n US Vh i k.
Hypothesis HQ : forall j l, (j < p)%nat -> (l < q)%nat -> Q j l = mm q RT Wh j l.
Hypothesis HU : forall a b, (a < n)%nat -> (b < n)%nat ->
  Rsum m (fun i => U i a * U i b) = delta a b.
Hypothesis HV : forall a b, (a < n)%nat -> (b < n)%nat ->
  Rsum n (fun k => Vh a k * Vh b k) = delta a b.
Hypothesis HR : forall a b, (a < q)%nat -> (b < q)%nat ->
  Rsum p (fun j => Rm j a * Rm j b) = delta a b.
Hypothesis HW : forall a b, (a < q)%nat -> (b < q)%nat ->
  Rsum q (fun l => Wh a l * Wh b l) = delta a b.
Hypothesis Hlmbd : 0 < lmbd.

(** The entries of [inner]: the transformed data over the regularised
    squared singular values. *)
Hypothesis HG : forall a b, (a < n)%nat -> (b < q)%nat ->
  G a b * (s a * s a * (t b * t b) + lmbd)
  = Rsum m (fun i => Rsum p (fun j => US i a * Y i j * RT j b)).

(** [P X Q^T] *)
Definition image_of (X : nat -> nat -> R) : nat -> nat -> R :=
  fun i j => Rsum n (fun k => Rsum q (fun l => P i k * X k l * Q j l)).

Definition cost (X : nat -> nat -> R) : R :=
  Rsum m (fun i => Rsum p (fun j => (image_of X i j - Y i j) ^ 2))
  + lmbd * Rsum n (fun k => Rsum q (fun l => X k l ^ 2)).

Lemma image_of_mm (A B X : nat -> nat -> R) (i j : nat) :
  Rsum n (fun k => Rsum q (fun l => A i k * X k l * B j l))
  = mm q (mm n A X) (tr B) i j.
Proof.
  rewrite Rsum_swap. unfold mm, tr. apply Rsum_ext; intros l _.
  rewrite <- Rsum_scal_r. reflexivity.
Qed.

Lemma image_of_factors (X : nat -> nat -> R) (i j : nat) :
  (i < m)%nat -> (j < p)%nat ->
  image_of X i j = mm q (mm n (mm n US Vh) X) (tr (mm q RT Wh)) i j.
Proof.
  intros Hi Hj. unfold image_of. rewrite <- image_of_mm.
  apply Rsum_ext; intros k Hk. apply Rsum_ext; intros l Hl.
  rewrite HP, HQ by assumption. reflexivity.
Qed.

(** Absorbing the orthogonal factors. *)
Lemma absorb_V (Z : nat -> nat -> R) (a j : nat) :
  (a < n)%nat -> mm n Vh (mm n (tr Vh) Z) a j = Z a j.
Proof.
  intros Ha. rewrite (absorb n n (fun _ => 1)); [ring| |exact Ha].
  intros x y Hx Hy. unfold tr. rewrite HV by assumption. ring.
Qed.

Lemma absorb_W (Z : nat -> nat -> R) (b j : nat) :
  (b < q)%nat -> mm q Wh (mm q (tr Wh) Z) b j = Z b j.
Proof.
  intros Hb. rewrite (absorb q q (fun _ => 1)); [ring| |exact Hb].
  intros x y Hx Hy. unfold tr. rewrite HW by assumption. ring.
Qed.

Lemma absorb_US (Z : nat -> nat -> R) (a j : nat) :
  (a < n)%nat -> mm m (tr US) (mm n US Z) a j = s a * s a * Z a j.
Proof.
  intros Ha. apply (absorb m n (fun a => s a * s a)); [|exact Ha].
  intros x y Hx Hy. unfold tr, US.
  transitivity (s x * s y * Rsum m (fun i => U i x * U i y)).
  - rewrite <- Rsum_scal_l. apply Rsum_ext; intros i _. ring.
  - rewrite HU by assumption. unfold delta.
    destruct (Nat.eqb_spec x y) as [->|_]; ring.
Qed.

Lemma absorb_RT (Z : nat -> nat -> R) (b j : nat) :
  (b < q)%nat -> mm p (tr RT) (mm q RT Z) b j = t b * t b * Z b j.
Proof.
  intros Hb. apply (absorb p q (fun b => t b * t b)); [|exact Hb].
  intros x y Hx Hy. unfold tr, RT.
  transitivity (t x * t y * Rsum p (fun j => Rm j x * Rm j y)).
  - rewrite <- Rsum_scal_l. apply Rsum_ext; intros i _. ring.
  - rewrite HR by assumption. unfold delta.
    destruct (Nat.eqb_spec x y) as [->|_]; ring.
Qed.

(** [P Xs Q^T = U diag(s) G diag(t) Rm^T] *)
Lemma image_of_solution (i j : nat) :
  (i < m)%nat -> (j < p)%nat ->
  image_of Xs i j = mm n US (mm q G (tr RT)) i j.
Proof.
  intros Hi Hj. rewrite image_of_factors by assumption.
  unfold Xs. rewrite tr_mm. rewrite !mm_assoc.
  apply (f_equal (fun F => F i j)).
  apply mm_ext_r; intros a j' Ha. rewrite absorb_V by exact Ha.
  apply (f_equal (fun F => F a j')).
  apply mm_ext_r; intros b j'' Hb. apply absorb_W, Hb.
Qed.

Lemma sandwich_mm (A B X : nat -> nat -> R) (k l : nat) :
  Rsum m (fun i => Rsum p (fun j => A i k * X i j * B j l))
  = mm p (mm m (tr A) X) B k l.
Proof.
  rewrite Rsum_swap. unfold mm, tr. apply Rsum_ext; intros j _.
  rewrite <- Rsum_scal_r. reflexivity.
Qed.

(** The gradient of the cost vanishes at [Xs]: the normal equations
    [P^T (P Xs Q^T - Y) Q + lmbd Xs = 0]. *)
Lemma normal_equations (k l : nat) :
  (k < n)%nat -> (l < q)%nat ->
  Rsum m (fun i => Rsum p (fun j => P i k * (image_of Xs i j - Y i j) * Q j l))
  + lmbd * Xs k l = 0.
Proof.
  intros Hk Hl.
  set (Is := mm n US (mm q G (tr RT))).
  set (N := fun a b => Rsum m (fun i => Rsum p (fun j => US i a * Y i j * RT j b))).
  assert (E1 : Rsum m (fun i => Rsum p (fun j =>
                 P i k * (image_of Xs i j - Y i j) * Q j l))
               = mm p (mm m (tr (mm n US Vh)) Is) (mm q RT Wh) k l
                 - mm p (mm m (tr (mm n US Vh)) Y) (mm q RT Wh) k l).
  { rewrite <- !sandwich_mm, <- Rsum_minus.
    apply Rsum_ext; intros i Hi. rewrite <- Rsum_minus.
    apply Rsum_ext; intros j Hj.
    rewrite image_of_solution, HP, HQ by assumption. fold Is. ring. }
  assert (E2 : mm p (mm m (tr (mm n US Vh)) Is) (mm q RT Wh) k l
               = Rsum n (fun a => Vh a k *
                   (s a * s a * Rsum q (fun b => G a b * (t b * t b * Wh b l))))).
  { unfold Is. rewrite tr_mm, !mm_assoc. unfold mm at 1. unfold tr at 1.
    apply Rsum_ext; intros a Ha. f_equal.
    rewrite absorb_US by exact Ha. f_equal.
    unfold mm at 1. apply Rsum_ext; intros b Hb. f_equal.
    apply absorb_RT, Hb. }
  assert (E3 : mm p (mm m (tr (mm n US Vh)) Y) (mm q RT Wh) k l
               = Rsum n (fun a => Vh a k * Rsum q (fun b => N a b * Wh b l))).
  { rewrite tr_mm, !mm_assoc. unfold mm at 1. unfold tr at 1.
    apply Rsum_ext; intros a Ha. f_equal.
    rewrite <- !mm_assoc. unfold mm at 1.
    apply Rsum_ext; intros b Hb. f_equal.
    unfold N. rewrite sandwich_mm. reflexivity. }
  assert (E4 : Xs k l = Rsum n (fun a => Vh a k * Rsum q (fun b => G a b * Wh b l))).
  { unfold Xs. rewrite mm_assoc. reflexivity. }
  rewrite E1, E2, E3, E4.
  set (F1 := fun a => Vh a k *
         (s a * s a * Rsum q (fun b => G a b * (t b * t b * Wh b l)))).
  set (F2 := fun a => Vh a k * Rsum q (fun b => N a b * Wh b l)).
  set (F3 := fun a => Vh a k * Rsum q (fun b => G a b * Wh b l)).
  transitivity (Rsum n (fun a => F1 a - F2 a + lmbd * F3 a)).
  { rewrite Rsum_plus, Rsum_minus, Rsum_scal_l. reflexivity. }
  apply Rsum_zero; intros a Ha. unfold F1, F2, F3.
  assert (Hb : Rsum q (fun b =>
                 (G a b * (s a * s a * (t b * t b) + lmbd) - N a b) * Wh b l) = 0).
  { apply Rsum_zero; intros b Hb. rewrite HG by assumption. fold (N a b). ring. }
  assert (Hsplit : Rsum q (fun b =>
                 (G a b * (s a * s a * (t b * t b) + lmbd) - N a b) * Wh b l)
             = s a * s a * Rsum q (fun b => G a b * (t b * t b * Wh b l))
               - Rsum q (fun b => N a b * Wh b l)
               + lmbd * Rsum q (fun b => G a b * Wh b l)).
  { rewrite <- !Rsum_scal_l, <- Rsum_minus, <- Rsum_plus.
    apply Rsum_ext; intros b _. ring. }
  rewrite Hsplit in Hb.
  transitivity (Vh a k *
    (s a * s a * Rsum q (fun b => G a b * (t b * t b * Wh b l))
     - Rsum q (fun b => N a b * Wh b l)
     + lmbd * Rsum q (fun b => G a b * Wh b l))); [ring|].
  rewrite Hb. ring.
Qed.

Lemma image_of_plus (X D : nat -> nat -> R) (i j : nat) :
  image_of (fun k l => X k l + D k l) i j = image_of X i j + image_of D i j.
Proof.
  unfold image_of. rewrite <- Rsum_plus. apply Rsum_ext; intros k _.
  rewrite <- Rsum_plus. apply Rsum_ext; intros l _. ring.
Qed.

(** The data term and the penalty of a displacement. *)
Definition excess (D : nat -> nat -> R) : R :=
  Rsum m (fun i => Rsum p (fun j => image_of D i j ^ 2))
  + lmbd * Rsum n (fun k => Rsum q (fun l => D k l ^ 2)).

Lemma cross_term_vanishes (D : nat -> nat -> R) :
  Rsum m (fun i => Rsum p (fun j => (image_of Xs i j - Y i j) * image_of D i j))
  + lmbd * Rsum n (fun k => Rsum q (fun l => Xs k l * D k l)) = 0.
Proof.
  transitivity
    (Rsum n (fun k => Rsum q (fun l =>
       D k l * (Rsum m (fun i => Rsum p (fun j =>
                  P i k * (image_of Xs i j - Y i j) * Q j l))
                + lmbd * Xs k l)))).
  - transitivity
      (Rsum n (fun k => Rsum q (fun l =>
         Rsum m (fun i => Rsum p (fun j =>
           (image_of Xs i j - Y i j) * (P i k * D k l * Q j l)))
         + lmbd * (Xs k l * D k l)))).
    + rewrite Rsum_plus_2, <- Rsum_swap22, Rsum_scal_l_2. f_equal.
      apply Rsum_ext; intros i _. apply Rsum_ext; intros j _.
      unfold image_of at 2. rewrite <- Rsum_scal_l.
      apply Rsum_ext; intros k _. rewrite <- Rsum_scal_l. reflexivity.
    + apply Rsum_ext; intros k _. apply Rsum_ext; intros l _.
      rewrite Rmult_plus_distr_l. f_equal; [|ring].
      rewrite <- Rsum_scal_l. apply Rsum_ext; intros i _.
      rewrite <- Rsum_scal_l. apply Rsum_ext; intros j _. ring.
  - apply Rsum_zero; intros k Hk. apply Rsum_zero; intros l Hl.
    rewrite normal_equations by assumption. ring.
Qed.

Lemma cost_expansion (D : nat -> nat -> R) :
  cost (fun k l => Xs k l + D k l) = cost Xs + excess D.
Proof.
  pose proof (cross_term_vanishes D) as Hc.
  unfold cost, excess.
  set (A := Rsum m (fun i => Rsum p (fun j => (image_of Xs i j - Y i j) ^ 2))).
  set (B := Rsum n (fun k => Rsum q (fun l => Xs k l ^ 2))).
  set (A' := Rsum m (fun i => Rsum p (fun j => image_of D i j ^ 2))).
  set (B' := Rsum n (fun k => Rsum q (fun l => D k l ^ 2))).
  set (C1 := Rsum m (fun i => Rsum p (fun j =>
               (image_of Xs i j - Y i j) * image_of D i j))) in Hc.
  set (C2 := Rsum n (fun k => Rsum q (fun l => Xs k l * D k l))) in Hc.
  assert (E1 : Rsum m (fun i => Rsum p (fun j =>
                 (image_of (fun k l => Xs k l + D k l) i j - Y i j) ^ 2))
               = A + 2 * C1 + A').
  { unfold A, C1, A'. rewrite <- Rsum_scal_l_2, <- !Rsum_plus_2.
    apply Rsum_ext; intros i _. apply Rsum_ext; intros j _.
    rewrite image_of_plus. ring. }
  assert (E2 : Rsum n (fun k => Rsum q (fun l => (Xs k l + D k l) ^ 2))
               = B + 2 * C2 + B').
  { unfold B, C2, B'. rewrite <- Rsum_scal_l_2, <- !Rsum_plus_2.
    apply Rsum_ext; intros k _. apply Rsum_ext; intros l _. ring. }
  rewrite E1, E2. nra.
Qed.

Lemma excess_nonneg (D : nat -> nat -> R) : 0 <= excess D.
Proof.
  unfold excess.
  assert (0 <= Rsum m (fun i => Rsum p (fun j => image_of D i j ^ 2))).
  { apply Rsum_nonneg; intros i _. apply Rsum_nonneg; intros j _.
    apply pow2_ge_0. }
  assert (0 <= Rsum n (fun k => Rsum q (fun l => D k l ^ 2))).
  { apply Rsum_nonneg; intros k _. apply Rsum_nonneg; intros l _.
    apply pow2_ge_0. }
  nra.
Qed.

Lemma excess_zero (D : nat -> nat -> R) :
  excess D = 0 -> forall k l, (k < n)%nat -> (l < q)%nat -> D k l = 0.
Proof.
  unfold excess. intros Hz k l Hk Hl.
  assert (H1 : 0 <= Rsum m (fun i => Rsum p (fun j => image_of D i j ^ 2))).
  { apply Rsum_nonneg; intros i _. apply Rsum_nonneg; intros j _.
    apply pow2_ge_0. }
  assert (H2 : 0 <= Rsum n (fun k => Rsum q (fun l => D k l ^ 2))).
  { apply Rsum_nonneg; intros k' _. apply Rsum_nonneg; intros l' _.
    apply pow2_ge_0. }
  assert (H3 : Rsum n (fun k => Rsum q (fun l => D k l ^ 2)) = 0) by nra.
  pose proof (Rsum_nonneg_zero n _
    (fun k' _ => Rsum_nonneg q _ (fun l' _ => pow2_ge_0 (D k' l'))) H3 k Hk) as H4.
  cbv beta in H4.
  pose proof (Rsum_nonneg_zero q _ (fun l' _ => pow2_ge_0 (D k l')) H4 l Hl) as H5.
  cbv beta in H5. nra.
Qed.

(** [Xs] is the unique minimiser of the cost. *)
Lemma solution_minimises (X' : nat -> nat -> R) :
  cost Xs <= cost X' /\
  (cost X' = cost Xs ->
   forall k l, (k < n)%nat -> (l < q)%nat -> X' k l = Xs k l).
Proof.
  set (D := fun k l => X' k l - Xs k l).
  assert (E : X' = fun k l => Xs k l + D k l).
  { extensionality k; extensionality l. unfold D. ring. }
  rewrite E at 1 2. rewrite cost_expansion.
  pose proof (excess_nonneg D). split; [lra|].
  intros Hz k l Hk Hl.
  assert (Hd : D k l = 0) by (apply excess_zero; [lra|assumption|assumption]).
  unfold D in Hd. lra.
Qed.

End Problem.
End LeastSquares.

Module SolverFacts.
Import SumFacts MatrixFacts.

Lemma matmul_ok (A B : matrix) :
  ncols A = nrows B ->
  matmul A B = Ok (Mat (nrows A) (ncols B) (mm (ncols A) (mentry A) (mentry B))).
Proof.
  intros H. unfold matmul. rewrite H, Nat.eqb_refl. reflexivity.
Qed.

Lemma bidx_in_range (n i : nat) : (i < n)%nat -> bidx n i = i.
Proof.
  intros H. unfold bidx. destruct (Nat.eqb_spec n 1); [lia|reflexivity].
Qed.

Lemma broadcast2_same (op : R -> R -> R) (A B : matrix) :
  nrows A = nrows B -> ncols A = ncols B ->
  exists M, broadcast2 op A B = Ok M /\
            nrows M = nrows A /\ ncols M = ncols A /\
            forall i j, (i < nrows A)%nat -> (j < ncols A)%nat ->
                        mentry M i j = op (mentry A i j) (mentry B i j).
Proof.
  intros Hr Hc. unfold broadcast2, bdim. rewrite <- Hr, <- Hc, !Nat.eqb_refl.
  cbn [bind]. eexists. split; [reflexivity|]. cbn [nrows ncols mentry].
  repeat split. intros i j Hi Hj. rewrite !bidx_in_range by assumption.
  reflexivity.
Qed.

(** The rectangular diagonal factor built by [concatenate]. *)
Lemma stacked_diag (sv : vector) (extra : nat) :
  concatenate (diag sv) (mzeros extra (vlen sv))
  = Ok (Mat (vlen sv + extra) (vlen sv)
          (fun i j => if (i <? vlen sv)%nat
                      then (if (i =? j)%nat then ventry sv i else 0)
                      else 0)).
Proof.
  unfold concatenate. cbn [ncols nrows diag mzeros mentry].
  rewrite Nat.eqb_refl. reflexivity.
Qed.

Lemma Rsum_stacked_diag (m n a : nat) (s f : nat -> R) :
  (a < n)%nat -> (n <= m)%nat ->
  Rsum m (fun x => (if (x <? n)%nat
                    then (if (x =? a)%nat then s x else 0) else 0) * f x)
  = s a * f a.
Proof.
  intros Ha Hn.
  rewrite <- (Rsum_pick m a (fun x => s x * f x)) by lia.
  apply Rsum_ext; intros x _.
  destruct (Nat.eqb_spec x a) as [->|Hne].
  - destruct (Nat.ltb_spec a n); [reflexivity|lia].
  - destruct (x <? n)%nat; ring.
Qed.

(** The numerator [DL^T UL^T Yc UR DR], entry by entry. *)
Lemma numerator_entry (m n p q : nat) (se te : nat -> R)
    (Ue Re Ye : nat -> nat -> R) (a b : nat) :
  (a < n)%nat -> (b < q)%nat -> (n <= m)%nat -> (q <= p)%nat ->
  mm p
    (mm p
       (mm m
          (mm m
             (fun i j : nat =>
                if (j <? n)%nat then if (j =? i)%nat then se j else 0 else 0)
             (fun i j : nat => Ue j i))
          Ye)
       Re)
    (fun i j : nat =>
       if (i <? q)%nat then if (i =? j)%nat then te i else 0 else 0) a b
  = Rsum m (fun i => Rsum p (fun j => Ue i a * se a * Ye i j * (Re j b * te b))).
Proof.
  intros Ha Hb Hn Hq. unfold mm at 1.
  transitivity
    (Rsum p (fun y =>
       (if (y <? q)%nat then if (y =? b)%nat then te y else 0 else 0)
       * mm p (mm m (mm m
           (fun i j : nat =>
              if (j <? n)%nat then if (j =? i)%nat then se j else 0 else 0)
           (fun i j : nat => Ue j i)) Ye) Re a y)).
  { apply Rsum_ext; intros y _. ring. }
  rewrite Rsum_stacked_diag by assumption.
  unfold mm at 1. rewrite <- Rsum_scal_l.
  rewrite Rsum_swap. apply Rsum_ext; intros j _.
  unfold mm at 1.
  rewrite (Rsum_ext m
             (fun k => mm m
                (fun i j0 : nat =>
                   if (j0 <? n)%nat then if (j0 =? i)%nat then se j0 else 0 else 0)
                (fun i j0 : nat => Ue j0 i) a k * Ye k j)
             (fun k => se a * Ue k a * Ye k j)).
  2:{ intros k _. unfold mm.
      rewrite (Rsum_stacked_diag m n a se (fun x => Ue k x)) by assumption.
      reflexivity. }
  rewrite (Rsum_ext m
             (fun i => Ue i a * se a * Ye i j * (Re j b * te b))
             (fun i => se a * Ue i a * Ye i j * (Re j b * te b)))
    by (intros; ring).
  rewrite Rsum_scal_r. ring.
Qed.

Section WithSvd.
Variable svd : matrix -> matrix * vector * matrix.

Lemma reconstruction_channel_spec (Yc P Q : matrix) (lmbd : R) :
  is_svd P (svd P) -> is_svd Q (svd Q) -> 0 < lmbd ->
  (ncols P <= nrows P)%nat -> (ncols Q <= nrows Q)%nat ->
  nrows Yc = nrows P -> ncols Yc = nrows Q ->
  exists X, reconstruction_channel svd Yc P Q lmbd = Ok X /\
            is_tikhonov_solution P Q Yc lmbd X.
Proof.
  intros HsP HsQ Hl HtP HtQ HrY HcY. unfold reconstruction_channel.
  destruct (svd P) as [[UL SL] VLh]. destruct (svd Q) as [[UR SR] VRh].
  destruct P as [m n Pe], Q as [p q Qe], Yc as [yr yc Ye].
  destruct UL as [ur uc Ue], SL as [sl se], VLh as [vr vc Ve].
  destruct UR as [wr wc Re], SR as [tl te], VRh as [xr xc We].
  cbn [is_svd nrows ncols vlen mentry ventry] in *.
  destruct HsP as (A1 & A2 & A3 & A4 & A5 & A6 & A7 & A8 & A9 & A10 & A11).
  destruct HsQ as (B1 & B2 & B3 & B4 & B5 & B6 & B7 & B8 & B9 & B10 & B11).
  rewrite Nat.min_r in A3, A10, A11 by exact HtP.
  rewrite Nat.min_r in B3, B10, B11 by exact HtQ.
  subst ur uc sl vr vc wr wc tl xr xc yr yc.
  rewrite !stacked_diag. cbn [bind vlen ventry].
  replace (n + (m - n))%nat with m by lia.
  replace (q + (p - q))%nat with p by lia.
  unfold multi_dot, multi_dot_from.
  repeat (rewrite matmul_ok by reflexivity; cbn [bind nrows ncols mentry transpose]).
  match goal with
  | |- context [mdiv ?N _] => set (num := N)
  end.
  destruct (broadcast2_same Rplus
              (outer (square (Vec n se)) (square (Vec q te))) (full n q lmbd)
              eq_refl eq_refl) as (den & Eden & Dr & Dc & De).
  unfold madd. rewrite Eden. cbn [bind].
  cbn [nrows ncols outer square vlen ventry mentry full] in Dr, Dc, De.
  destruct (broadcast2_same Rdiv num den) as (inner & Ein & Ir & Ic & Ie);
    [symmetry; exact Dr | symmetry; exact Dc |].
  unfold mdiv. rewrite Ein. cbn [bind].
  unfold num in Ir, Ic, Ie. cbn [nrows ncols mentry] in Ir, Ic, Ie.
  repeat (rewrite matmul_ok by (cbn [nrows ncols transpose]; congruence);
          cbn [bind nrows ncols mentry transpose]).
  eexists. split; [reflexivity|].
  unfold is_tikhonov_solution, tikhonov_objective.
  cbn [nrows ncols mentry]. rewrite Ic.
  split; [reflexivity|]. split; [reflexivity|].
  intros X'.
  apply (LeastSquares.solution_minimises m n p q Pe Qe Ye lmbd Ue Ve Re We
           se te (mentry inner)).
  - intros i k Hi Hk. rewrite A11 by assumption. reflexivity.
  - intros j l Hj Hq. rewrite B11 by assumption. reflexivity.
  - intros a b Ha Hb. apply A7; lia.
  - exact A8.
  - intros a b Ha Hb. apply B7; lia.
  - exact B8.
  - exact Hl.
  - intros a b Ha Hb. rewrite Ie, De by assumption.
    rewrite numerator_entry by assumption.
    assert (0 <= se a * se a * (te b * te b)) by nra.
    unfold Rdiv. field_simplify_eq; [|lra].
    reflexivity.
Qed.

Lemma channel_ok (Y : ndarray R) (h w c : nat) :
  shape Y = (h, w, 4%nat) -> (c < 4)%nat ->
  channel Y c = Ok (Mat h w (fun i j => item Y i j c)).
Proof.
  intros Hs Hc. unfold channel. rewrite Hs.
  destruct (Nat.ltb_spec c 4); [reflexivity|lia].
Qed.

Lemma solve_channels_spec (Y : ndarray R) (P Q : matrix) (lmbd : R) :
  is_svd P (svd P) -> is_svd Q (svd Q) -> 0 < lmbd ->
  (ncols P <= nrows P)%nat -> (ncols Q <= nrows Q)%nat ->
  shape Y = (nrows P, nrows Q, 4%nat) ->
  exists Xb,
    solve_channels svd Y P Q lmbd = Ok Xb /\
    shape Xb = (ncols P, ncols Q, 4%nat) /\
    forall c, (c < 4)%nat ->
      exists Xc,
        reconstruction_channel svd
          (Mat (nrows P) (nrows Q) (fun i j => item Y i j c)) P Q lmbd = Ok Xc /\
        is_tikhonov_solution P Q
          (Mat (nrows P) (nrows Q) (fun i j => item Y i j c)) lmbd Xc /\
        forall i j, item Xb i j c = mentry Xc i j.
Proof.
  intros HsP HsQ Hl HtP HtQ HY.
  assert (Hc : forall c, exists Xc,
             reconstruction_channel svd
               (Mat (nrows P) (nrows Q) (fun i j => item Y i j c)) P Q lmbd
             = Ok Xc /\
             is_tikhonov_solution P Q
               (Mat (nrows P) (nrows Q) (fun i j => item Y i j c)) lmbd Xc).
  { intros c. apply reconstruction_channel_spec; try assumption; reflexivity. }
  destruct (Hc 0%nat) as (X0 & E0 & S0). destruct (Hc 1%nat) as (X1 & E1 & S1).
  destruct (Hc 2%nat) as (X2 & E2 & S2). destruct (Hc 3%nat) as (X3 & E3 & S3).
  unfold solve_channels.
  rewrite !(channel_ok Y (nrows P) (nrows Q)) by (try exact HY; lia).
  cbn [bind]. rewrite E0, E1, E2, E3. cbn [bind].
  destruct (S0) as (R0 & C0 & _), (S1) as (R1 & C1 & _),
           (S2) as (R2 & C2 & _), (S3) as (R3 & C3 & _).
  rewrite R0, C0, R1, C1, R2, C2, R3, C3, !Nat.eqb_refl. cbn [andb bind].
  eexists. split; [reflexivity|]. split; [reflexivity|].
  intros c Hlt.
  destruct c as [|[|[|[|c]]]]; [exists X0|exists X1|exists X2|exists X3|lia];
    (split; [assumption|]); (split; [assumption|]);
    intros i j; reflexivity.
Qed.

End WithSvd.

End SolverFacts.

Import SumFacts MatrixFacts SolverFacts.

Lemma delta_orthonormal (n : nat) :
  orthonormal_rows n delta /\ orthonormal_cols n delta.
Proof.
  split; intros a b Ha Hb.
  - rewrite Rsum_delta_l by exact Ha. unfold delta.
    rewrite Nat.eqb_sym. reflexivity.
  - transitivity (Rsum n (fun k => delta a k * delta k b)).
    + apply Rsum_ext; intros k _. unfold delta.
      rewrite (Nat.eqb_sym k a). reflexivity.
    + rewrite Rsum_delta_l by exact Ha. reflexivity.
Qed.

Lemma svd_of_identities_wide : is_svd P_wide (svd_of_identities P_wide).
Proof.
  unfold is_svd, svd_of_identities, P_wide, identity_matrix, ones_vector.
  cbn [nrows ncols vlen mentry ventry Nat.min].
  repeat split; try apply delta_orthonormal; try (intros; lra).
  intros i j Hi Hj.
  destruct i as [|[|i]]; [| |lia]; destruct j as [|[|[|j]]]; try lia;
    cbn; lra.
Qed.

Lemma svd_of_identities_one : is_svd M_one (svd_of_identities M_one).
Proof.
  unfold is_svd, svd_of_identities, M_one, identity_matrix, ones_vector.
  cbn [nrows ncols vlen mentry ventry Nat.min].
  repeat split; try apply delta_orthonormal; try (intros; lra).
  intros i j Hi Hj. assert (i = 0%nat) by lia. assert (j = 0%nat) by lia.
  subst. cbn. lra.
Qed.

(** C2, as stated, fails on a row operator with more columns than rows:
    here [P] is 2 x 3, with a correct decomposition, and the solver raises
    [ValueError] (the shapes of [np.outer(singLsq, singRsq)] and of
    [np.full(X_bayer.shape[0:2], lmbd)] do not broadcast). *)
Lemma wide_operator_raises :
  is_svd P_wide (svd_of_identities P_wide) /\
  is_svd M_one (svd_of_identities M_one) /\
  0 < 1 /\
  nrows (Mat 2 1 (fun _ _ => 1)) = nrows P_wide /\
  ncols (Mat 2 1 (fun _ _ => 1)) = nrows M_one /\
  reconstruction_channel svd_of_identities (Mat 2 1 (fun _ _ => 1))
                         P_wide M_one 1 = Raise ValueError.
Proof.
  split; [exact svd_of_identities_wide|].
  split; [exact svd_of_identities_one|].
  split; [lra|]. repeat split.
Qed.

(** C2, amended.  For row and column operators with at least as many rows
    as columns, any singular value decompositions of them, a weight
    [lmbd > 0] and a four-channel measurement of matching shape, the solver
    returns, before clipping, in each channel [c] the unique minimiser of
    [||P X Q^T - Y[:,:,c]||_F^2 + lmbd ||X||_F^2]; the channel [c] of the
    result is the same for every measurement with the same channel [c]. *)
Theorem tikhonov_channels_solve_least_squares
    (svd : matrix -> matrix * vector * matrix)
    (Y : ndarray R) (P Q : matrix) (lmbd : R) :
  is_svd P (svd P) -> is_svd Q (svd Q) -> 0 < lmbd ->
  (ncols P <= nrows P)%nat -> (ncols Q <= nrows Q)%nat ->
  shape Y = (nrows P, nrows Q, 4%nat) ->
  exists Xb,
    solve_channels svd Y P Q lmbd = Ok Xb /\
    shape Xb = (ncols P, ncols Q, 4%nat) /\
    forall c, (c < 4)%nat ->
      exists Yc Xc,
        channel Y c = Ok Yc /\
        reconstruction_channel svd Yc P Q lmbd = Ok Xc /\
        is_tikhonov_solution P Q Yc lmbd Xc /\
        (forall i j, item Xb i j c = mentry Xc i j) /\
        forall Y', shape Y' = shape Y ->
                   (forall i j, item Y' i j c = item Y i j c) ->
                   exists Xb', solve_channels svd Y' P Q lmbd = Ok Xb' /\
                               forall i j, item Xb' i j c = item Xb i j c.
Proof.
  intros HsP HsQ Hl HtP HtQ HY.
  destruct (solve_channels_spec svd Y P Q lmbd HsP HsQ Hl HtP HtQ HY)
    as (Xb & Eb & Sb & Hb).
  exists Xb. split; [exact Eb|]. split; [exact Sb|].
  intros c Hc. destruct (Hb c Hc) as (Xc & Ec & Sc & Ic).
  exists (Mat (nrows P) (nrows Q) (fun i j => item Y i j c)), Xc.
  split; [apply channel_ok; assumption|].
  split; [exact Ec|]. split; [exact Sc|]. split; [exact Ic|].
  intros Y' HY' Hsame.
  assert (HY'' : shape Y' = (nrows P, nrows Q, 4%nat)) by congruence.
  destruct (solve_channels_spec svd Y' P Q lmbd HsP HsQ Hl HtP HtQ HY'')
    as (Xb' & Eb' & _ & Hb').
  exists Xb'. split; [exact Eb'|].
  destruct (Hb' c Hc) as (Xc' & Ec' & _ & Ic').
  assert (E : (fun i j => item Y' i j c) = (fun i j => item Y i j c)).
  { extensionality i; extensionality j. apply Hsame. }
  rewrite E in Ec'. rewrite Ec in Ec'. injection Ec' as <-.
  intros i j. rewrite Ic, Ic'. reflexivity.
Qed.

Lemma tikhonov_channels_solve_least_squares_witness :
  exists Xb,
    solve_channels svd_of_identities
      (NdArray (1, 1, 4)%nat (fun _ _ c => INR c)) M_one M_one 1 = Ok Xb /\
    shape Xb = (ncols M_one, ncols M_one, 4%nat) /\
    forall c, (c < 4)%nat ->
      exists Yc Xc,
        channel (NdArray (1, 1, 4)%nat (fun _ _ c => INR c)) c = Ok Yc /\
        reconstruction_channel svd_of_identities Yc M_one M_one 1 = Ok Xc /\
        is_tikhonov_solution M_one M_one Yc 1 Xc /\
        (forall i j, item Xb i j c = mentry Xc i j) /\
        forall Y', shape Y' = shape (NdArray (1, 1, 4)%nat (fun _ _ c => INR c)) ->
                   (forall i j, item Y' i j c
                                = item (NdArray (1, 1, 4)%nat (fun _ _ c => INR c)) i j c) ->
                   exists Xb', solve_channels svd_of_identities Y' M_one M_one 1
                               = Ok Xb' /\
                               forall i j, item Xb' i j c = item Xb i j c.
Proof.
  apply (tikhonov_channels_solve_least_squares svd_of_identities
           (NdArray (1, 1, 4)%nat (fun _ _ c => INR c)) M_one M_one 1).
  - exact svd_of_identities_one.
  - exact svd_of_identities_one.
  - exact Rlt_0_1.
  - apply le_n.
  - apply le_n.
  - reflexivity.
Defined.


(** * The convolution operator: the adjoint identity *)

Module TwiddleFacts.

Lemma twiddle_0_l (sgn : R) (n k : nat) : twiddle sgn n 0 k = (1, 0).
Proof.
  unfold twiddle, cis. cbn [Nat.mul INR].
  replace (sgn * (2 * PI * 0 / INR n)) with 0 by (unfold Rdiv; ring).
  rewrite cos_0, sin_0. reflexivity.
Qed.

Lemma twiddle_0_r (sgn : R) (n j : nat) : twiddle sgn n j 0 = (1, 0).
Proof.
  unfold twiddle, cis. rewrite Nat.mul_0_r. cbn [INR].
  replace (sgn * (2 * PI * 0 / INR n)) with 0 by (unfold Rdiv; ring).
  rewrite cos_0, sin_0. reflexivity.
Qed.

(** [exp (-2 pi i / 3)] has real part [-1/2]. *)
Lemma twiddle_third_re : fst (twiddle (-1) 3 1 1) = -1 / 2.
Proof.
  unfold twiddle, cis. cbn [fst Nat.mul Nat.add INR].
  replace (-1 * (2 * PI * 1 / (1 + 1 + 1))) with (- (2 * (PI / 3))) by field.
  rewrite cos_neg. exact cos_2PI3.
Qed.

End TwiddleFacts.

Import RealFFTConvolve2D TwiddleFacts.

Ltac evaluate_transforms :=
  lazy -[Rplus Rmult Rminus Ropp Rinv Rdiv cos sin PI INR IZR twiddle Rlt_dec
         R0 R1];
  rewrite ?twiddle_0_l, ?twiddle_0_r;
  change (let (x, _) := twiddle (-1) 3 1 1 in x) with (fst (twiddle (-1) 3 1 1));
  rewrite ?twiddle_third_re;
  cbv beta iota; cbn [INR].

(** C1: the code departs from the claim.  For the PSF of one row and two
    columns with its weight in the first column, the padded width is 3, an
    odd number, so [irfft2] without [s] returns two columns; with
    [x = (1, 0)] and [y = (0, 1)], [<H x, y> = 1] while
    [<x, H.adjoint y> = 3/4]. *)
Theorem adjoint_identity_fails_on_odd_padding :
  exists op Hx Hty,
    __init__ psf_1x2 = Ok op /\
    _padded_shape op = (1, 3, 1)%nat /\
    fst (__call__ op [1; 0]) = Ok Hx /\
    fst (adjoint op [0; 1]) = Ok Hty /\
    dot Hx [0; 1] = 1 /\
    dot [1; 0] Hty = 3 / 4 /\
    dot Hx [0; 1] <> dot [1; 0] Hty.
Proof.
  eexists; eexists; eexists.
  split; [reflexivity|]. split; [reflexivity|].
  split; [reflexivity|]. split; [reflexivity|].
  assert (E1 : forall A B : R, A = 1 -> B = 3 / 4 -> A = 1 /\ B = 3 / 4 /\ A <> B)
    by (intros A B -> ->; repeat split; lra).
  apply E1.
  - evaluate_transforms. field.
  - evaluate_transforms. field.
Qed.


(** * The convolution operator on paddings of even length *)

Module PairingFacts.
Import SumFacts MatrixFacts ComplexFacts TwiddleFacts.

Lemma Cre_scale (r : R) (z : complex) : Cre (Cscale r z) = r * Cre z.
Proof. reflexivity. Qed.

Lemma Cre_sum (n : nat) (f : nat -> complex) :
  Cre (Csum n f) = Rsum n (fun k => Cre (f k)).
Proof. apply Csum_fst. Qed.

(** [t |-> Re (z t)] is linear over the reals. *)
Lemma Cre_mul_sum2 (a b : nat) (r : R) (z : complex)
    (E : nat -> nat -> complex) :
  Rsum a (fun i => Rsum b (fun j => r * Cre (Cmul z (E i j))))
  = r * Cre (Cmul z (Csum a (fun i => Csum b (fun j => E i j)))).
Proof.
  rewrite <- Csum_mul_l, Cre_sum, <- Rsum_scal_l.
  apply Rsum_ext. intros i _.
  rewrite <- Csum_mul_l, Cre_sum, <- Rsum_scal_l. reflexivity.
Qed.

Lemma Rsum3_rotate (a b d : nat) (c : R) (F : nat -> nat -> nat -> R) :
  Rsum a (fun i => Rsum b (fun j => c * Rsum d (fun k => F i j k)))
  = c * Rsum d (fun k => Rsum a (fun i => Rsum b (fun j => F i j k))).
Proof.
  transitivity
    (c * Rsum a (fun i => Rsum d (fun k => Rsum b (fun j => F i j k)))).
  - rewrite <- Rsum_scal_l. apply Rsum_ext. intros i _.
    rewrite Rsum_scal_l. f_equal.
    apply (Rsum_swap b d (fun j k => F i j k)).
  - f_equal. apply (Rsum_swap a d (fun i k => Rsum b (fun j => F i j k))).
Qed.

Section Pairing.
Variables n0 n1 : nat.
Hypothesis Hn0 : n0 <> O.
Hypothesis Hn1 : n1 <> O.
Hypothesis He0 : Nat.even n0 = true.
Hypothesis He1 : Nat.even n1 = true.

(** One term of the complex-to-real transform of the inverse transform of
    [Z], read at the recentred position. *)
Definition term (Z : nat -> nat -> complex) (k1 p0 p1 : nat) : R :=
  Cre (Cmul (idft n0 (fun k0 => Z k0 k1) (recentred n0 p0))
            (twiddle 1 n1 (recentred n1 p1) k1)).

(** The same quantity in the frequency domain. *)
Definition spectral (Z : nat -> nat -> complex) (V : nat -> nat -> R)
    (k1 : nat) : R :=
  Rsum n0 (fun k0 =>
    pm k0 * Cre (Cmul (Z k0 k1) (Cconj (dft2 n0 n1 V k0 k1)))).

Lemma conj_dft2 (V : nat -> nat -> R) (k0 k1 : nat) :
  Cconj (dft2 n0 n1 V k0 k1)
  = Csum n0 (fun p0 => Csum n1 (fun p1 =>
      Cscale (V p0 p1) (Cmul (twiddle 1 n0 p0 k0) (twiddle 1 n1 p1 k1)))).
Proof.
  unfold dft2. rewrite Csum_conj. apply Csum_ext. intros p0 _.
  rewrite Cconj_mul, twiddle_conj, Csum_conj, <- Csum_mul_l.
  apply Csum_ext. intros p1 _.
  rewrite Cconj_scale, twiddle_conj. by_components.
Qed.

Lemma term_expand (Z : nat -> nat -> complex) (v : R) (k1 p0 p1 : nat) :
  v * term Z k1 p0 p1
  = / INR n0 * (pm k1 * Rsum n0 (fun k0 =>
      pm k0 * Cre (Cmul (Z k0 k1)
                 (Cscale v (Cmul (twiddle 1 n0 p0 k0) (twiddle 1 n1 p1 k1)))))).
Proof.
  unfold term, idft.
  rewrite twiddle_recentred by assumption.
  rewrite (Csum_ext n0 _
    (fun k0 => Cscale (pm k0) (Cmul (Z k0 k1) (twiddle 1 n0 p0 k0)))).
  2:{ intros k0 _. rewrite twiddle_recentred by assumption.
      apply Cscale_mul_r. }
  rewrite Cscale_mul_l, Cscale_mul_r, <- Csum_mul_r.
  rewrite !Cre_scale, Cre_sum.
  transitivity (/ INR n0 * (pm k1 * (v * Rsum n0 (fun k0 =>
    Cre (Cmul (Cscale (pm k0) (Cmul (Z k0 k1) (twiddle 1 n0 p0 k0)))
              (twiddle 1 n1 p1 k1)))))); [ring|].
  rewrite <- Rsum_scal_l. do 2 f_equal.
  apply Rsum_ext. intros k0 _.
  unfold Cre, Cmul, Cscale. cbn [fst snd]. ring.
Qed.

(** Summed against a real array, a term of the output is a term of the
    spectrum of that array. *)
Lemma term_sum (Z : nat -> nat -> complex) (V : nat -> nat -> R) (k1 : nat) :
  Rsum n0 (fun p0 => Rsum n1 (fun p1 => V p0 p1 * term Z k1 p0 p1))
  = / INR n0 * (pm k1 * spectral Z V k1).
Proof.
  rewrite (Rsum_ext n0 _ (fun p0 => Rsum n1 (fun p1 =>
    (/ INR n0 * pm k1) * Rsum n0 (fun k0 =>
      pm k0 * Cre (Cmul (Z k0 k1)
                 (Cscale (V p0 p1)
                    (Cmul (twiddle 1 n0 p0 k0) (twiddle 1 n1 p1 k1)))))))).
  2:{ intros p0 _. apply Rsum_ext. intros p1 _.
      rewrite term_expand. ring. }
  rewrite Rsum3_rotate, Rmult_assoc. do 2 f_equal.
  unfold spectral. apply Rsum_ext. intros k0 _.
  rewrite Cre_mul_sum2, conj_dft2. reflexivity.
Qed.

(** What [irfft2] computes from the spectrum [Z], for one channel. *)
Definition output (Z : nat -> nat -> complex) (j0 j1 : nat) : R :=
  c2r (n1 / 2 + 1) (fun k1 => idft n0 (fun k0 => Z k0 k1) j0) j1.

(** The inner product of a real array with the recentred output. *)
Definition pairing (Z : nat -> nat -> complex) (V : nat -> nat -> R) : R :=
  Rsum n0 (fun p0 => Rsum n1 (fun p1 =>
    V p0 p1 * output Z (recentred n0 p0) (recentred n1 p1))).

Definition spectrum_sum (Z : nat -> nat -> complex) (V : nat -> nat -> R) : R :=
  / INR n1 * (/ INR n0 *
    (pm 0 * spectral Z V 0
     + Rsum (n1 / 2 - 1) (fun k => 2 * (pm (S k) * spectral Z V (S k)))
     + pm (n1 / 2) * spectral Z V (n1 / 2))).

Lemma even_halves : (2 * (n1 / 2) = n1)%nat.
Proof.
  apply Nat.even_spec in He1. destruct He1 as [a Ha]. rewrite Ha at 1.
  rewrite (Nat.mul_comm 2 a), Nat.div_mul by lia. lia.
Qed.

Lemma output_terms (Z : nat -> nat -> complex) (p0 p1 : nat) :
  output Z (recentred n0 p0) (recentred n1 p1)
  = / INR n1 * (term Z 0 p0 p1
                + Rsum (n1 / 2 - 1) (fun k => 2 * term Z (S k) p0 p1)
                + term Z (n1 / 2) p0 p1).
Proof.
  unfold output, c2r, term.
  replace (n1 / 2 + 1 - 1)%nat with (n1 / 2)%nat by lia.
  replace (n1 / 2 + 1 - 2)%nat with (n1 / 2 - 1)%nat by lia.
  rewrite even_halves. f_equal. f_equal; [f_equal|].
  - rewrite twiddle_0_r. change (1, 0) with Cone. rewrite Cmul_1_r.
    reflexivity.
  - rewrite twiddle_nyquist by assumption.
    unfold Cre, Cmul. cbn [fst snd]. ring.
Qed.

Lemma pairing_spectral (Z : nat -> nat -> complex) (V : nat -> nat -> R) :
  pairing Z V = spectrum_sum Z V.
Proof.
  unfold pairing, spectrum_sum.
  rewrite (Rsum_ext n0 _ (fun p0 => Rsum n1 (fun p1 =>
    / INR n1 * (V p0 p1 * term Z 0 p0 p1
                + 2 * Rsum (n1 / 2 - 1) (fun k => V p0 p1 * term Z (S k) p0 p1)
                + V p0 p1 * term Z (n1 / 2) p0 p1)))).
  2:{ intros p0 _. apply Rsum_ext. intros p1 _.
      rewrite output_terms.
      rewrite (Rsum_scal_l _ 2), (Rsum_scal_l _ (V p0 p1)). ring. }
  rewrite Rsum_scal_l_2. f_equal.
  rewrite Rsum_plus_2, Rsum_plus_2, Rsum3_rotate.
  rewrite !term_sum.
  rewrite (Rsum_ext (n1 / 2 - 1) _
    (fun k => / INR n0 * (pm (S k) * spectral Z V (S k)))).
  2:{ intros k _. apply term_sum. }
  rewrite Rsum_scal_l.
  rewrite (Rsum_scal_l _ 2). ring.
Qed.

(** The spectrum of a filtered array against another array, and the
    other way round with the conjugate response. *)
Lemma spectral_adjoint (G : nat -> nat -> complex) (U V : nat -> nat -> R)
    (k1 : nat) :
  spectral (fun k0 k1 => Cmul (dft2 n0 n1 U k0 k1) (G k0 k1)) V k1
  = spectral (fun k0 k1 => Cmul (dft2 n0 n1 V k0 k1) (Cconj (G k0 k1))) U k1.
Proof.
  unfold spectral. apply Rsum_ext. intros k0 _. f_equal.
  unfold Cre, Cmul, Cconj. cbn [fst snd]. ring.
Qed.

Lemma pairing_adjoint (G : nat -> nat -> complex) (U V : nat -> nat -> R) :
  pairing (fun k0 k1 => Cmul (dft2 n0 n1 U k0 k1) (G k0 k1)) V
  = pairing (fun k0 k1 => Cmul (dft2 n0 n1 V k0 k1) (Cconj (G k0 k1))) U.
Proof.
  rewrite !pairing_spectral. unfold spectrum_sum.
  rewrite (spectral_adjoint G U V 0), (spectral_adjoint G U V (n1 / 2)).
  rewrite (Rsum_ext (n1 / 2 - 1) _ (fun k => 2 * (pm (S k) *
    spectral (fun k0 k1 => Cmul (dft2 n0 n1 V k0 k1) (Cconj (G k0 k1))) U (S k)))).
  2:{ intros k _. rewrite (spectral_adjoint G U V (S k)). reflexivity. }
  reflexivity.
Qed.

End Pairing.

End PairingFacts.


(** * Flat vectors and their inner product *)

Module RavelFacts.
Import SumFacts.

Lemma dot_nth (u v : list R) :
  dot u v = Rsum (length u) (fun k => nth k u 0 * nth k v 0).
Proof.
  revert v. induction u as [|a u IH]; intros v.
  - reflexivity.
  - cbn [length]. rewrite Rsum_shift. destruct v as [|b v]; cbn [dot nth].
    + rewrite Rsum_zero; [ring|]. intros k _. destruct k; ring.
    + rewrite IH. reflexivity.
Qed.

Lemma dot_comm (u v : list R) : dot u v = dot v u.
Proof.
  revert v. induction u as [|a u IH]; intros [|b v]; cbn; try reflexivity.
  rewrite IH. ring.
Qed.

Lemma length_flat_map_seq {A : Type} (f : nat -> list A) (m n s : nat) :
  (forall i, length (f i) = m) ->
  length (flat_map f (seq s n)) = (n * m)%nat.
Proof.
  intros Hf. revert s. induction n as [|n IH]; intros s; cbn.
  - reflexivity.
  - rewrite length_app, Hf, IH. reflexivity.
Qed.

Lemma nth_flat_map_seq {A : Type} (f : nat -> list A) (d : A)
    (m n s i k : nat) :
  (forall i, length (f i) = m) -> (i < n)%nat -> (k < m)%nat ->
  nth (i * m + k) (flat_map f (seq s n)) d = nth k (f (s + i)%nat) d.
Proof.
  intros Hf. revert s i. induction n as [|n IH]; intros s i Hi Hk; [lia|].
  cbn [seq flat_map]. destruct i as [|i].
  - cbn [Nat.mul Nat.add]. rewrite app_nth1 by (rewrite Hf; exact Hk).
    rewrite Nat.add_0_r. reflexivity.
  - rewrite app_nth2 by (rewrite Hf; lia). rewrite Hf.
    replace (S i * m + k - m)%nat with (i * m + k)%nat by lia.
    rewrite IH by lia. f_equal. f_equal. lia.
Qed.

Lemma length_ravel (a : ndarray R) (h w c : nat) :
  shape a = (h, w, c) -> length (ravel a) = (h * (w * c))%nat.
Proof.
  intros Hs. unfold ravel. rewrite Hs.
  apply length_flat_map_seq. intros i.
  apply length_flat_map_seq. intros j.
  rewrite length_map, length_seq. reflexivity.
Qed.

Lemma nth_ravel (a : ndarray R) (h w c i j k : nat) :
  shape a = (h, w, c) -> (i < h)%nat -> (j < w)%nat -> (k < c)%nat ->
  nth (i * (w * c) + (j * c + k)) (ravel a) 0 = item a i j k.
Proof.
  intros Hs Hi Hj Hk. unfold ravel. rewrite Hs.
  rewrite (nth_flat_map_seq _ 0 (w * c) h 0 i (j * c + k)); [|
    intros i'; apply length_flat_map_seq; intros j';
    rewrite length_map, length_seq; reflexivity | exact Hi | nia].
  rewrite (nth_flat_map_seq _ 0 c w 0 j k); [|
    intros j'; rewrite length_map, length_seq; reflexivity | exact Hj | exact Hk].
  cbn [Nat.add].
  rewrite (nth_indep _ 0 (item a i j 0)) by (rewrite length_map, length_seq; exact Hk).
  rewrite (map_nth (fun k => item a i j k) (seq 0 c) 0%nat k).
  rewrite seq_nth by exact Hk. reflexivity.
Qed.

(** The inner product of a flattened array with a flat vector, entry by
    entry. *)
Lemma dot_ravel (a : ndarray R) (y : list R) (h w c : nat) :
  shape a = (h, w, c) ->
  dot (ravel a) y
  = Rsum h (fun i => Rsum w (fun j => Rsum c (fun k =>
      item a i j k * nth ((i * w + j) * c + k) y 0))).
Proof.
  intros Hs. rewrite dot_nth, (length_ravel a h w c Hs), Rsum_flatten.
  apply Rsum_ext. intros i Hi. rewrite Rsum_flatten.
  apply Rsum_ext. intros j Hj. apply Rsum_ext. intros k Hk.
  rewrite (nth_ravel a h w c i j k Hs Hi Hj Hk). do 2 f_equal. lia.
Qed.

(** A summand that vanishes outside a window, against any other factor. *)
Lemma Rsum_window_mul (n s h : nat) (g F : nat -> R) :
  (s + h <= n)%nat ->
  Rsum n (fun p =>
    (if ((s <=? p) && (p <? s + h))%nat then g (p - s)%nat else 0) * F p)
  = Rsum h (fun i => g i * F (s + i)%nat).
Proof.
  intros Hn.
  rewrite <- (Rsum_window n s h (fun i => g i * F (s + i)%nat) Hn).
  apply Rsum_ext. intros p _.
  destruct (Nat.leb_spec s p) as [Hp|Hp]; cbn [andb]; [|ring].
  destruct (p <? s + h)%nat; [|ring].
  do 2 f_equal. lia.
Qed.

Lemma Rsum_window2 (n0 n1 s0 s1 h w : nat) (g F : nat -> nat -> R) :
  (s0 + h <= n0)%nat -> (s1 + w <= n1)%nat ->
  Rsum n0 (fun p0 => Rsum n1 (fun p1 =>
    (if in_window (s0, s1) ((s0 + h)%nat, (s1 + w)%nat) p0 p1
     then g (p0 - s0)%nat (p1 - s1)%nat else 0) * F p0 p1))
  = Rsum h (fun i => Rsum w (fun j => g i j * F (s0 + i)%nat (s1 + j)%nat)).
Proof.
  intros H0 H1.
  rewrite <- (Rsum_window n0 s0 h
    (fun i => Rsum w (fun j => g i j * F (s0 + i)%nat (s1 + j)%nat)) H0).
  apply Rsum_ext. intros p0 _. unfold in_window. cbn [fst snd].
  destruct ((s0 <=? p0) && (p0 <? s0 + h))%nat eqn:E0.
  - rewrite <- (Rsum_window_mul n1 s1 w _ _ H1).
    apply Rsum_ext. intros p1 _.
    rewrite <- andb_assoc. cbn [andb].
    apply andb_prop in E0. destruct E0 as [E0 _].
    apply Nat.leb_le in E0.
    replace (s0 + (p0 - s0))%nat with p0 by lia. reflexivity.
  - apply Rsum_zero. intros p1 _. cbn [andb]. ring.
Qed.

End RavelFacts.


(** * The adjoint identity on paddings of even length *)

Module IdentityFacts.
Import RealFFTConvolve2D ConvFacts SumFacts RavelFacts PairingFacts ComplexFacts.

Lemma reshape_ok (x : list R) (h w c : nat) :
  length x = (h * w * c)%nat ->
  reshape x (h, w, c)
  = Ok (NdArray (h, w, c) (fun i j k => nth ((i * w + j) * c + k) x 0)).
Proof.
  intros Hl. unfold reshape. rewrite Hl, Nat.eqb_refl. reflexivity.
Qed.

Lemma halves (n : nat) : Nat.even n = true -> (2 * (n / 2 + 1 - 1) = n)%nat.
Proof.
  intros He. apply Nat.even_spec in He. destruct He as [a ->].
  rewrite (Nat.mul_comm 2 a), Nat.div_mul by lia. lia.
Qed.

Lemma filtered_dot (self : t) (P : ndarray R) (Rsp : ndarray complex)
    (n0 n1 c s0 s1 h w : nat) :
  shape P = (n0, n1, c) -> shape Rsp = (n0, (n1 / 2 + 1)%nat, c) ->
  Nat.even n1 = true -> n1 <> O ->
  _start_idx self = (s0, s1) -> _end_idx self = ((s0 + h)%nat, (s1 + w)%nat) ->
  (s0 + h <= n0)%nat -> (s1 + w <= n1)%nat ->
  exists r, filtered self P Rsp = Ok r /\
    forall y, dot r y
      = Rsum h (fun i => Rsum w (fun j => Rsum c (fun k =>
          output n0 n1
            (fun k0 k1 => Cmul (dft2 n0 n1 (fun a b => item P a b k) k0 k1)
                               (item Rsp k0 k1 k))
            (recentred n0 (s0 + i)) (recentred n1 (s1 + j))
          * nth ((i * w + j) * c + k) y 0))).
Proof.
  intros HP HR He Hn Hs Hen H0 H1.
  destruct P as [shp itP]. destruct Rsp as [shr itR]. cbn [shape] in HP, HR.
  subst shp shr.
  unfold filtered, cmul, rfft2. cbn [shape item].
  rewrite !Nat.eqb_refl. cbn [andb bind].
  unfold irfft2. cbn [shape item].
  rewrite (halves n1 He).
  destruct (Nat.ltb_spec n1 1) as [Hlt|_]; [lia|]. cbn [bind].
  eexists. split; [reflexivity|]. intros y.
  rewrite (dot_ravel _ y h w c).
  - unfold _crop, slice, ifftshift. cbn [shape item]. rewrite Hs.
    cbn [fst snd]. reflexivity.
  - unfold _crop, slice, ifftshift. cbn [shape]. rewrite Hs, Hen.
    unfold slice_shape. cbn [fst snd]. repeat f_equal; lia.
Qed.

(** The padded canvas holding a flat vector, for one channel. *)
Definition canvas (s0 s1 h w c : nat) (x : list R) (k p0 p1 : nat) : R :=
  if in_window (s0, s1) ((s0 + h)%nat, (s1 + w)%nat) p0 p1
  then nth (((p0 - s0) * w + (p1 - s1)) * c + k) x 0
  else 0.

Lemma window_pairing (n0 n1 s0 s1 h w c k : nat)
    (Z : nat -> nat -> complex) (y : list R) :
  (s0 + h <= n0)%nat -> (s1 + w <= n1)%nat ->
  Rsum h (fun i => Rsum w (fun j =>
    output n0 n1 Z (recentred n0 (s0 + i)) (recentred n1 (s1 + j))
    * nth ((i * w + j) * c + k) y 0))
  = pairing n0 n1 Z (canvas s0 s1 h w c y k).
Proof.
  intros H0 H1. unfold pairing, canvas.
  rewrite (Rsum_window2 n0 n1 s0 s1 h w
    (fun i j => nth ((i * w + j) * c + k) y 0)
    (fun p0 p1 => output n0 n1 Z (recentred n0 p0) (recentred n1 p1)) H0 H1).
  apply Rsum_ext. intros i _. apply Rsum_ext. intros j _. ring.
Qed.

Lemma Rsum3_channel_first (h w c : nat) (F : nat -> nat -> nat -> R) :
  Rsum h (fun i => Rsum w (fun j => Rsum c (fun k => F i j k)))
  = Rsum c (fun k => Rsum h (fun i => Rsum w (fun j => F i j k))).
Proof.
  rewrite <- (Rmult_1_l (Rsum c _)), <- Rsum3_rotate.
  apply Rsum_ext. intros i _. apply Rsum_ext. intros j _. ring.
Qed.

Lemma init_positive (filter : ndarray R) (op : t) (h w c : nat) :
  __init__ filter = Ok op -> shape filter = (h, w, c) ->
  (1 <= h)%nat /\ (1 <= w)%nat.
Proof.
  unfold __init__, padding. intros Hi Hs. rewrite Hs in Hi.
  destruct h as [|h]; [discriminate|].
  destruct (next_fast_len (2 * Z.of_nat (S h) - 1)) as [p0|e]; [|discriminate].
  destruct w as [|w]; [discriminate|]. lia.
Qed.

(** The inner product of the output of the shared computation with a flat
    vector is a pairing, channel by channel. *)
Lemma fresh_dot (op : t) (G : ndarray complex) (x : list R)
    (n0 n1 c h w : nat) :
  _filter_shape op = (h, w, c) -> _padded_shape op = (n0, n1, c) ->
  _start_idx op = (((n0 - h) / 2)%nat, ((n1 - w) / 2)%nat) ->
  _end_idx op = (((n0 - h) / 2 + h)%nat, ((n1 - w) / 2 + w)%nat) ->
  (h <= n0)%nat -> (w <= n1)%nat ->
  Nat.even n1 = true -> n1 <> O ->
  shape G = (n0, (n1 / 2 + 1)%nat, c) ->
  length x = (h * w * c)%nat ->
  exists r,
    (xr <- reshape x (_filter_shape op) ;;
     p <- _pad op xr ;; filtered op p G) = Ok r /\
    forall y, dot r y
      = Rsum c (fun k =>
          pairing n0 n1
            (fun k0 k1 =>
               Cmul (dft2 n0 n1
                       (canvas ((n0 - h) / 2) ((n1 - w) / 2) h w c x k) k0 k1)
                    (item G k0 k1 k))
            (canvas ((n0 - h) / 2) ((n1 - w) / 2) h w c y k)).
Proof.
  intros Ef Ep Est Een H0 H1 He Hn HG Hl.
  rewrite Ef, (reshape_ok x h w c Hl). cbn [bind].
  unfold _pad. rewrite Ep, Est, Een.
  pose proof (pad_with_ok n0 n1 c h w
    (NdArray (h, w, c) (fun i j k => nth ((i * w + j) * c + k) x 0))
    H0 H1 eq_refl) as Hp.
  cbv zeta in Hp. rewrite Hp. cbn [bind].
  pose proof (half_gap n0 h H0) as G0. pose proof (half_gap n1 w H1) as G1.
  match goal with
  | |- exists r, filtered op ?P G = _ /\ _ =>
    destruct (filtered_dot op P G n0 n1 c ((n0 - h) / 2) ((n1 - w) / 2) h w
                eq_refl HG He Hn Est Een G0 G1) as (r & Er & Hr)
  end.
  exists r. split; [exact Er|]. intros y.
  rewrite Hr, Rsum3_channel_first. apply Rsum_ext. intros k _.
  apply (window_pairing n0 n1 ((n0 - h) / 2) ((n1 - w) / 2) h w c k _ y G0 G1).
Qed.

End IdentityFacts.

Import RealFFTConvolve2D ConvFacts SumFacts RavelFacts PairingFacts IdentityFacts.

(** Where the adjoint identity of the operator does hold: when both padded
    lengths are even, [<H x, y> = <x, H.adjoint y>] for all flat vectors
    [x] and [y] of the size of the filter, whatever invocations came
    before. *)
Theorem adjoint_identity_on_even_padding (filter : ndarray R) (op : t)
    (cs : list invocation) (x y : list R) (n0 n1 c : nat) :
  __init__ filter = Ok op ->
  _padded_shape op = (n0, n1, c) ->
  Nat.even n0 = true -> Nat.even n1 = true ->
  length x = size3 (shape filter) -> length y = size3 (shape filter) ->
  exists Hx Hty,
    fst (__call__ (run op cs) x) = Ok Hx /\
    fst (adjoint (run op cs) y) = Ok Hty /\
    dot Hx y = dot x Hty.
Proof.
  intros Hi Ep He0 He1 Hx Hy.
  destruct (shape filter) as [[h w] c'] eqn:Hs. cbn [size3] in Hx, Hy.
  destruct (init_positive filter op h w c' Hi Hs) as [Hh Hw].
  destruct (init_spec filter h w c' Hs Hh Hw)
    as (op' & p0 & p1 & Ei & _ & _ & G0 & G1 & Ef & Ep' & Est & Een & _
        & fp & Efp & EH & EHadj).
  assert (op' = op) by congruence. subst op'.
  assert (p0 = n0 /\ p1 = n1 /\ c' = c) as (-> & -> & ->)
    by (rewrite Ep in Ep'; injection Ep' as -> -> ->; auto).
  assert (H0 : (h <= n0)%nat) by lia. assert (H1 : (w <= n1)%nat) by lia.
  assert (Hn0 : n0 <> O) by lia. assert (Hn1 : n1 <> O) by lia.
  rewrite Est, Een in Efp.
  pose proof (pad_with_ok n0 n1 c h w filter H0 H1 Hs) as Hp.
  cbv zeta in Hp. rewrite Hp in Efp. injection Efp as <-.
  destruct (fresh_dot op (_H op) x n0 n1 c h w Ef Ep Est Een H0 H1 He1 Hn1)
    as (r1 & E1 & D1); [rewrite EH; reflexivity | exact Hx |].
  destruct (fresh_dot op (_Hadj op) y n0 n1 c h w Ef Ep Est Een H0 H1 He1 Hn1)
    as (r2 & E2 & D2); [rewrite EHadj; reflexivity | exact Hy |].
  destruct (init_clean filter op Hi) as [Hc Hsh].
  pose proof (run_clean cs op Hc) as Hc'.
  destruct (run_frame cs op) as (F1 & F2 & F3 & F4 & F5 & F6 & F7).
  destruct (fresh_frame _ _ F1 F2 F3 F4 F5 F6) as [Fc Fa].
  assert (Hs' : shape (_padded_data (run op cs)) = _padded_shape (run op cs))
    by congruence.
  exists r1, r2. split; [|split].
  - rewrite (call_on_clean _ x Hc' Hs'), Fc. exact E1.
  - rewrite (adjoint_on_clean _ y Hc' Hs'), Fa. exact E2.
  - rewrite (dot_comm x r2), D1, D2. apply Rsum_ext. intros k _.
    rewrite EH, EHadj. cbn [conj item].
    apply (pairing_adjoint n0 n1 Hn0 Hn1 He0 He1).
Qed.

Lemma adjoint_identity_on_even_padding_witness :
  exists op Hx Hty,
    __init__ (NdArray (4, 4, 1)%nat (fun i j _ => INR (i + j))) = Ok op /\
    _padded_shape op = (8, 8, 1)%nat /\
    fst (__call__ op (repeat 1 16)) = Ok Hx /\
    fst (adjoint op (repeat 2 16)) = Ok Hty /\
    dot Hx (repeat 2 16) = dot (repeat 1 16) Hty.
Proof.
  assert (Hi : exists op,
    __init__ (NdArray (4, 4, 1)%nat (fun i j _ => INR (i + j))) = Ok op /\
    _padded_shape op = (8, 8, 1)%nat) by (eexists; split; reflexivity).
  destruct Hi as (op & Hi & Hp).
  destruct (adjoint_identity_on_even_padding _ op [] (repeat 1 16)
              (repeat 2 16) 8 8 1 Hi Hp eq_refl eq_refl eq_refl eq_refl)
    as (Hx & Hty & E1 & E2 & E3).
  exists op, Hx, Hty. repeat split; assumption.
Defined.


(** * The convolution operator is linear and keeps the size *)

Module LinearFacts.
Import RealFFTConvolve2D ConvFacts SumFacts RavelFacts ComplexFacts PairingFacts
       IdentityFacts.

Lemma axpby_length (a b : R) (x y : list R) :
  length y = length x -> length (axpby a x b y) = length x.
Proof.
  intros H. unfold axpby. rewrite length_map, length_combine, H.
  apply Nat.min_id.
Qed.

Lemma axpby_nth (a b : R) (x y : list R) (t : nat) :
  length y = length x ->
  nth t (axpby a x b y) 0 = a * nth t x 0 + b * nth t y 0.
Proof.
  revert y t. induction x as [|u x IH]; intros [|v y] t H;
    cbn in H; try discriminate.
  - destruct t; cbn; ring.
  - destruct t as [|t]; cbn; [reflexivity|]. apply IH. lia.
Qed.

Lemma axpby_app (a b : R) (x1 x2 y1 y2 : list R) :
  length y1 = length x1 ->
  axpby a (x1 ++ x2) b (y1 ++ y2) = axpby a x1 b y1 ++ axpby a x2 b y2.
Proof.
  revert y1. induction x1 as [|u x1 IH]; intros [|v y1] H;
    cbn in H; try discriminate; [reflexivity|].
  unfold axpby in *. cbn. f_equal. apply IH. lia.
Qed.

Lemma axpby_map {A : Type} (a b : R) (f g : A -> R) (l : list A) :
  axpby a (map f l) b (map g l) = map (fun k => a * f k + b * g k) l.
Proof.
  unfold axpby. induction l as [|k l IH]; cbn; [reflexivity|].
  rewrite IH. reflexivity.
Qed.

Lemma axpby_flat_map {A : Type} (a b : R) (F G H : A -> list R) (l : list A) :
  (forall i, length (G i) = length (F i)) ->
  (forall i, axpby a (F i) b (G i) = H i) ->
  axpby a (flat_map F l) b (flat_map G l) = flat_map H l.
Proof.
  intros Hl HH. induction l as [|i l IH]; cbn [flat_map]; [reflexivity|].
  rewrite axpby_app by apply Hl. rewrite HH, IH. reflexivity.
Qed.

Lemma ravel_axpby (a b : R) (shp : nat * nat * nat)
    (f g : nat -> nat -> nat -> R) :
  ravel (NdArray shp (fun i j k => a * f i j k + b * g i j k))
  = axpby a (ravel (NdArray shp f)) b (ravel (NdArray shp g)).
Proof.
  unfold ravel. cbn [shape item]. destruct shp as [[h w] c].
  symmetry. apply axpby_flat_map.
  - intros i. rewrite !(length_flat_map_seq _ c).
    + reflexivity.
    + intros j. rewrite length_map, length_seq. reflexivity.
    + intros j. rewrite length_map, length_seq. reflexivity.
  - intros i. apply axpby_flat_map.
    + intros j. rewrite !length_map. reflexivity.
    + intros j. apply axpby_map.
Qed.

(** The transforms are linear. *)
Lemma dft2_linear (n0 n1 : nat) (a b : R) (U V : nat -> nat -> R)
    (k0 k1 : nat) :
  dft2 n0 n1 (fun p0 p1 => a * U p0 p1 + b * V p0 p1) k0 k1
  = Cadd (Cscale a (dft2 n0 n1 U k0 k1)) (Cscale b (dft2 n0 n1 V k0 k1)).
Proof.
  unfold dft2. rewrite <- !Csum_scale, <- Csum_add.
  apply Csum_ext. intros j0 _.
  rewrite <- !Cscale_mul_r, <- Cmul_add_distr_l. f_equal.
  rewrite <- !Csum_scale, <- Csum_add. apply Csum_ext. intros j1 _.
  by_components.
Qed.

Lemma output_linear (n0 n1 : nat) (a b : R) (U V : nat -> nat -> R)
    (G : nat -> nat -> complex) (j0 j1 : nat) :
  output n0 n1
    (fun k0 k1 =>
       Cmul (dft2 n0 n1 (fun p0 p1 => a * U p0 p1 + b * V p0 p1) k0 k1)
            (G k0 k1)) j0 j1
  = a * output n0 n1 (fun k0 k1 => Cmul (dft2 n0 n1 U k0 k1) (G k0 k1)) j0 j1
    + b * output n0 n1 (fun k0 k1 => Cmul (dft2 n0 n1 V k0 k1) (G k0 k1)) j0 j1.
Proof.
  assert (Hi : forall k1,
    idft n0 (fun k0 =>
      Cmul (dft2 n0 n1 (fun p0 p1 => a * U p0 p1 + b * V p0 p1) k0 k1)
           (G k0 k1)) j0
    = Cadd (Cscale a (idft n0 (fun k0 =>
              Cmul (dft2 n0 n1 U k0 k1) (G k0 k1)) j0))
           (Cscale b (idft n0 (fun k0 =>
              Cmul (dft2 n0 n1 V k0 k1) (G k0 k1)) j0))).
  { intros k1. unfold idft.
    rewrite !Cscale_scale, (Rmult_comm a), (Rmult_comm b), <- !Cscale_scale.
    rewrite <- Cscale_add. f_equal.
    rewrite <- !Csum_scale, <- Csum_add. apply Csum_ext. intros k0 _.
    rewrite dft2_linear. by_components. }
  unfold output, c2r. rewrite !Hi.
  rewrite (Rsum_ext (n1 / 2 + 1 - 2) _ (fun k =>
    a * (2 * Cre (Cmul (idft n0 (fun k0 =>
           Cmul (dft2 n0 n1 U k0 (S k)) (G k0 (S k))) j0)
           (twiddle 1 (2 * (n1 / 2 + 1 - 1)) j1 (S k))))
    + b * (2 * Cre (Cmul (idft n0 (fun k0 =>
           Cmul (dft2 n0 n1 V k0 (S k)) (G k0 (S k))) j0)
           (twiddle 1 (2 * (n1 / 2 + 1 - 1)) j1 (S k)))))).
  2:{ intros k _. rewrite Hi. unfold Cre, Cmul, Cadd, Cscale.
      cbn [fst snd]. ring. }
  rewrite Rsum_plus, !Rsum_scal_l.
  unfold Cre, Cadd, Cscale. cbn [fst snd]. ring.
Qed.

Lemma window_fits (n w : nat) :
  (2 <= w)%nat -> (2 * w - 1 <= n)%nat -> ((n - w) / 2 + w <= 2 * (n / 2))%nat.
Proof.
  intros Hw Hn.
  pose proof (Nat.div_mod_eq n 2) as E1.
  pose proof (Nat.div_mod_eq (n - w) 2) as E2.
  pose proof (Nat.mod_upper_bound n 2). pose proof (Nat.mod_upper_bound (n - w) 2).
  lia.
Qed.

(** The spectrum of the product, for one channel. *)
Definition filtered_spectrum (n0 n1 : nat) (U : nat -> nat -> R)
    (G : ndarray complex) (k : nat) (k0 k1 : nat) : complex :=
  Cmul (dft2 n0 n1 U k0 k1) (item G k0 k1 k).

Lemma filtered_general (self : t) (P : ndarray R) (Rsp : ndarray complex)
    (n0 n1 c s0 s1 h w : nat) :
  shape P = (n0, n1, c) -> shape Rsp = (n0, (n1 / 2 + 1)%nat, c) ->
  (2 <= n1)%nat ->
  _start_idx self = (s0, s1) -> _end_idx self = ((s0 + h)%nat, (s1 + w)%nat) ->
  (s0 + h <= n0)%nat -> (s1 + w <= 2 * (n1 / 2))%nat ->
  filtered self P Rsp
  = Ok (ravel (NdArray (h, w, c)
          (fun i j k =>
             output n0 n1
               (filtered_spectrum n0 n1 (fun a b => item P a b k) Rsp k)
               (recentred n0 (s0 + i))
               (recentred (2 * (n1 / 2)) (s1 + j))))).
Proof.
  intros HP HR Hn Hs Hen H0 H1.
  destruct P as [shp itP]. destruct Rsp as [shr itR]. cbn [shape] in HP, HR.
  subst shp shr.
  unfold filtered, cmul, rfft2. cbn [shape item].
  rewrite !Nat.eqb_refl. cbn [andb bind].
  unfold irfft2. cbn [shape item].
  replace (n1 / 2 + 1 - 1)%nat with (n1 / 2)%nat by lia.
  assert (Hpos : (2 <= 2 * (n1 / 2))%nat).
  { pose proof (Nat.div_mod_eq n1 2). pose proof (Nat.mod_upper_bound n1 2). lia. }
  destruct (Nat.ltb_spec (2 * (n1 / 2)) 1) as [Hlt|_]; [lia|]. cbn [bind].
  unfold _crop, slice, ifftshift. cbn [shape item]. rewrite Hs, Hen.
  unfold slice_shape. cbn [fst snd].
  replace (Nat.min (s0 + h) n0 - Nat.min s0 n0)%nat with h by lia.
  replace (Nat.min (s1 + w) (2 * (n1 / 2)) - Nat.min s1 (2 * (n1 / 2)))%nat
    with w by lia.
  unfold output, filtered_spectrum. cbn [item].
  replace (n1 / 2 + 1 - 1)%nat with (n1 / 2)%nat by lia.
  reflexivity.
Qed.

(** What the two methods compute on a fresh canvas, for a filter with at
    least two columns. *)
Lemma fresh_explicit (op : t) (G : ndarray complex) (x : list R)
    (n0 n1 c h w : nat) :
  _filter_shape op = (h, w, c) -> _padded_shape op = (n0, n1, c) ->
  _start_idx op = (((n0 - h) / 2)%nat, ((n1 - w) / 2)%nat) ->
  _end_idx op = (((n0 - h) / 2 + h)%nat, ((n1 - w) / 2 + w)%nat) ->
  (h <= n0)%nat -> (2 <= w)%nat -> (2 * w - 1 <= n1)%nat ->
  shape G = (n0, (n1 / 2 + 1)%nat, c) ->
  length x = (h * w * c)%nat ->
  (xr <- reshape x (_filter_shape op) ;;
   p <- _pad op xr ;; filtered op p G)
  = Ok (ravel (NdArray (h, w, c)
          (fun i j k =>
             output n0 n1
               (filtered_spectrum n0 n1
                  (canvas ((n0 - h) / 2) ((n1 - w) / 2) h w c x k) G k)
               (recentred n0 ((n0 - h) / 2 + i))
               (recentred (2 * (n1 / 2)) ((n1 - w) / 2 + j))))).
Proof.
  intros Ef Ep Est Een H0 Hw Hn HG Hl.
  assert (H1 : (w <= n1)%nat) by lia.
  rewrite Ef, (reshape_ok x h w c Hl). cbn [bind].
  unfold _pad. rewrite Ep, Est, Een.
  pose proof (pad_with_ok n0 n1 c h w
    (NdArray (h, w, c) (fun i j k => nth ((i * w + j) * c + k) x 0))
    H0 H1 eq_refl) as Hp.
  cbv zeta in Hp. rewrite Hp. cbn [bind].
  pose proof (half_gap n0 h H0) as G0.
  pose proof (window_fits n1 w Hw Hn) as G1.
  match goal with
  | |- filtered op ?P G = _ =>
    rewrite (filtered_general op P G n0 n1 c ((n0 - h) / 2) ((n1 - w) / 2) h w
               eq_refl HG (ltac:(lia)) Est Een G0 G1)
  end.
  reflexivity.
Qed.

Lemma canvas_axpby (s0 s1 h w c : nat) (a b : R) (x y : list R) (k p0 p1 : nat) :
  length y = length x ->
  canvas s0 s1 h w c (axpby a x b y) k p0 p1
  = a * canvas s0 s1 h w c x k p0 p1 + b * canvas s0 s1 h w c y k p0 p1.
Proof.
  intros Hl. unfold canvas. destruct (in_window _ _ p0 p1).
  - apply axpby_nth, Hl.
  - ring.
Qed.

Lemma fresh_linear (n0 n1 c h w : nat) (G : ndarray complex) (a b : R)
    (x y : list R) (F : nat -> nat) (F' : nat -> nat) :
  length y = length x ->
  ravel (NdArray (h, w, c)
    (fun i j k =>
       output n0 n1
         (filtered_spectrum n0 n1
            (canvas ((n0 - h) / 2) ((n1 - w) / 2) h w c (axpby a x b y) k) G k)
         (F i) (F' j)))
  = axpby a
      (ravel (NdArray (h, w, c)
         (fun i j k =>
            output n0 n1
              (filtered_spectrum n0 n1
                 (canvas ((n0 - h) / 2) ((n1 - w) / 2) h w c x k) G k)
              (F i) (F' j))))
      b
      (ravel (NdArray (h, w, c)
         (fun i j k =>
            output n0 n1
              (filtered_spectrum n0 n1
                 (canvas ((n0 - h) / 2) ((n1 - w) / 2) h w c y k) G k)
              (F i) (F' j)))).
Proof.
  intros Hl. rewrite <- ravel_axpby. f_equal. f_equal.
  extensionality i. extensionality j. extensionality k.
  unfold filtered_spectrum. rewrite <- output_linear. f_equal.
  extensionality k0. extensionality k1. f_equal. f_equal.
  extensionality p0. extensionality p1. apply canvas_axpby, Hl.
Qed.

(** Both methods, after any invocations, in explicit form. *)
Lemma invoke_explicit (filter : ndarray R) (op : t) (cs : list invocation)
    (h w c : nat) :
  __init__ filter = Ok op -> shape filter = (h, w, c) -> (2 <= w)%nat ->
  exists n0 n1,
    forall x, length x = (h * w * c)%nat ->
      fst (__call__ (run op cs) x)
      = Ok (ravel (NdArray (h, w, c)
              (fun i j k =>
                 output n0 n1
                   (filtered_spectrum n0 n1
                      (canvas ((n0 - h) / 2) ((n1 - w) / 2) h w c x k)
                      (_H op) k)
                   (recentred n0 ((n0 - h) / 2 + i))
                   (recentred (2 * (n1 / 2)) ((n1 - w) / 2 + j))))) /\
      fst (adjoint (run op cs) x)
      = Ok (ravel (NdArray (h, w, c)
              (fun i j k =>
                 output n0 n1
                   (filtered_spectrum n0 n1
                      (canvas ((n0 - h) / 2) ((n1 - w) / 2) h w c x k)
                      (_Hadj op) k)
                   (recentred n0 ((n0 - h) / 2 + i))
                   (recentred (2 * (n1 / 2)) ((n1 - w) / 2 + j))))).
Proof.
  intros Hi Hs Hw.
  destruct (init_positive filter op h w c Hi Hs) as [Hh _].
  destruct (init_spec filter h w c Hs Hh (ltac:(lia)))
    as (op' & n0 & n1 & Ei & _ & _ & G0 & G1 & Ef & Ep & Est & Een & _
        & fp & Efp & EH & EHadj).
  assert (op' = op) by congruence. subst op'.
  assert (H0 : (h <= n0)%nat) by lia. assert (H1 : (w <= n1)%nat) by lia.
  rewrite Est, Een in Efp.
  pose proof (pad_with_ok n0 n1 c h w filter H0 H1 Hs) as Hp.
  cbv zeta in Hp. rewrite Hp in Efp. injection Efp as <-.
  destruct (init_clean filter op Hi) as [Hc Hsh].
  pose proof (run_clean cs op Hc) as Hc'.
  destruct (run_frame cs op) as (F1 & F2 & F3 & F4 & F5 & F6 & F7).
  destruct (fresh_frame _ _ F1 F2 F3 F4 F5 F6) as [Fc Fa].
  assert (Hs' : shape (_padded_data (run op cs)) = _padded_shape (run op cs))
    by congruence.
  exists n0, n1. intros x Hl. split.
  - rewrite (call_on_clean _ x Hc' Hs'), Fc.
    apply (fresh_explicit op (_H op) x n0 n1 c h w Ef Ep Est Een H0 Hw G1);
      [rewrite EH; reflexivity | exact Hl].
  - rewrite (adjoint_on_clean _ x Hc' Hs'), Fa.
    apply (fresh_explicit op (_Hadj op) x n0 n1 c h w Ef Ep Est Een H0 Hw G1);
      [rewrite EHadj; reflexivity | exact Hl].
Qed.

Lemma wrong_length_raises (self : t) (x : list R) :
  length x <> size3 (_filter_shape self) ->
  __call__ self x = (Raise ValueError, self) /\
  adjoint self x = (Raise ValueError, self).
Proof.
  intros Hl. unfold __call__, adjoint, reshape.
  destruct (_filter_shape self) as [[h w] c]. cbn [size3] in Hl.
  destruct (Nat.eqb_spec (length x) (h * w * c)); [contradiction|].
  split; reflexivity.
Qed.

End LinearFacts.

Import RealFFTConvolve2D ConvFacts RavelFacts LinearFacts.

(** For a filter with at least two columns, [__call__] and [adjoint]
    return, for every flat vector of the size of the filter, a vector of
    that size (the dimensions of the operator declared to Pycsou); a vector
    of any other length makes them raise [ValueError], the scratch buffer
    being left as it was.  This holds after any earlier invocations. *)
Theorem call_and_adjoint_keep_size (filter : ndarray R) (op : t)
    (cs : list invocation) (x : list R) (h w c : nat) :
  __init__ filter = Ok op -> shape filter = (h, w, c) -> (2 <= w)%nat ->
  op_shape op = ((h * w * c)%nat, (h * w * c)%nat) /\
  (length x = (h * w * c)%nat ->
   exists r q,
     fst (__call__ (run op cs) x) = Ok r /\ length r = (h * w * c)%nat /\
     fst (adjoint (run op cs) x) = Ok q /\ length q = (h * w * c)%nat) /\
  (length x <> (h * w * c)%nat ->
   __call__ (run op cs) x = (Raise ValueError, run op cs) /\
   adjoint (run op cs) x = (Raise ValueError, run op cs)).
Proof.
  intros Hi Hs Hw. split; [|split].
  - unfold __init__ in Hi. rewrite Hs in Hi.
    destruct (padding (h, w, c)) as [[[ps st] en]|]; [|discriminate].
    cbn [bind] in Hi. destruct (pad_with _ _ _ _); [|discriminate].
    cbn [bind] in Hi. injection Hi as <-. reflexivity.
  - intros Hl.
    destruct (invoke_explicit filter op cs h w c Hi Hs Hw) as (n0 & n1 & Hx).
    destruct (Hx x Hl) as [E1 E2].
    eexists; eexists. split; [exact E1|]. split.
    { erewrite length_ravel; [|reflexivity]. lia. }
    split; [exact E2|]. erewrite length_ravel; [|reflexivity]. lia.
  - intros Hl. apply wrong_length_raises.
    destruct (run_frame cs op) as (F1 & _). rewrite F1.
    unfold __init__ in Hi. rewrite Hs in Hi.
    destruct (padding (h, w, c)) as [[[ps st] en]|]; [|discriminate].
    cbn [bind] in Hi. destruct (pad_with _ _ _ _); [|discriminate].
    cbn [bind] in Hi. injection Hi as <-. exact Hl.
Qed.

Lemma call_and_adjoint_keep_size_witness :
  exists op,
    __init__ psf_1x2 = Ok op /\
    op_shape op = ((1 * 2 * 1)%nat, (1 * 2 * 1)%nat) /\
    (length [3; 4] = (1 * 2 * 1)%nat ->
     exists r q,
       fst (__call__ (run op [Call [1; 2]]) [3; 4]) = Ok r /\
       length r = (1 * 2 * 1)%nat /\
       fst (adjoint (run op [Call [1; 2]]) [3; 4]) = Ok q /\
       length q = (1 * 2 * 1)%nat) /\
    (length [3; 4] <> (1 * 2 * 1)%nat ->
     __call__ (run op [Call [1; 2]]) [3; 4]
     = (Raise ValueError, run op [Call [1; 2]]) /\
     adjoint (run op [Call [1; 2]]) [3; 4]
     = (Raise ValueError, run op [Call [1; 2]])).
Proof.
  eexists. split; [reflexivity|].
  apply (call_and_adjoint_keep_size psf_1x2 _ [Call [1; 2]] [3; 4] 1 2 1).
  - reflexivity.
  - reflexivity.
  - apply le_n.
Defined.

(** For a filter with at least two columns, [__call__] and [adjoint] are
    linear: on a linear combination [a x + b y] of two flat vectors of the
    size of the filter they return the same combination of what they
    return on [x] and on [y], after any earlier invocations. *)
Theorem call_and_adjoint_are_linear (filter : ndarray R) (op : t)
    (cs : list invocation) (a b : R) (x y : list R) (h w c : nat) :
  __init__ filter = Ok op -> shape filter = (h, w, c) -> (2 <= w)%nat ->
  length x = (h * w * c)%nat -> length y = (h * w * c)%nat ->
  exists rx ry qx qy,
    fst (__call__ (run op cs) x) = Ok rx /\
    fst (__call__ (run op cs) y) = Ok ry /\
    fst (__call__ (run op cs) (axpby a x b y)) = Ok (axpby a rx b ry) /\
    fst (adjoint (run op cs) x) = Ok qx /\
    fst (adjoint (run op cs) y) = Ok qy /\
    fst (adjoint (run op cs) (axpby a x b y)) = Ok (axpby a qx b qy).
Proof.
  intros Hi Hs Hw Hx Hy.
  destruct (invoke_explicit filter op cs h w c Hi Hs Hw) as (n0 & n1 & He).
  assert (Hl : length y = length x) by congruence.
  destruct (He x Hx) as [X1 X2]. destruct (He y Hy) as [Y1 Y2].
  destruct (He (axpby a x b y)) as [Z1 Z2];
    [rewrite axpby_length; assumption|].
  eexists; eexists; eexists; eexists.
  split; [exact X1|]. split; [exact Y1|]. split.
  { rewrite Z1. f_equal. apply fresh_linear, Hl. }
  split; [exact X2|]. split; [exact Y2|].
  rewrite Z2. f_equal. apply fresh_linear, Hl.
Qed.

Lemma call_and_adjoint_are_linear_witness :
  exists op rx ry qx qy,
    __init__ psf_1x2 = Ok op /\
    fst (__call__ (run op []) [1; 0]) = Ok rx /\
    fst (__call__ (run op []) [0; 1]) = Ok ry /\
    fst (__call__ (run op []) (axpby 2 [1; 0] 3 [0; 1]))
    = Ok (axpby 2 rx 3 ry) /\
    fst (adjoint (run op []) [1; 0]) = Ok qx /\
    fst (adjoint (run op []) [0; 1]) = Ok qy /\
    fst (adjoint (run op []) (axpby 2 [1; 0] 3 [0; 1]))
    = Ok (axpby 2 qx 3 qy).
Proof.
  assert (Hi : exists op, __init__ psf_1x2 = Ok op) by (eexists; reflexivity).
  destruct Hi as (op & Hi).
  destruct (call_and_adjoint_are_linear psf_1x2 op [] 2 3 [1; 0] [0; 1] 1 2 1
              Hi eq_refl (le_n 2) eq_refl eq_refl)
    as (rx & ry & qx & qy & H).
  exists op, rx, ry, qx, qy. split; [exact Hi|exact H].
Defined.


(** * The convolution operator: padding and cropping *)

Import RealFFTConvolve2D ConvFacts IdentityFacts.

(** [_crop] undoes [_pad]: an array of the shape of the filter is placed in
    the window of a zero canvas of the padded shape, and cropping the canvas
    gives the array back. *)
Theorem crop_undoes_pad (filter : ndarray R) (op : t) (v : ndarray R)
    (h w c : nat) :
  __init__ filter = Ok op -> shape filter = (h, w, c) ->
  shape v = (h, w, c) ->
  exists p,
    _pad op v = Ok p /\
    shape p = _padded_shape op /\
    shape (_crop op p) = (h, w, c) /\
    (forall i j k, (i < h)%nat -> (j < w)%nat ->
                   item (_crop op p) i j k = item v i j k) /\
    (forall i j k, in_window (_start_idx op) (_end_idx op) i j = false ->
                   item p i j k = 0).
Proof.
  intros Hi Hs Hv.
  destruct (init_positive filter op h w c Hi Hs) as [Hh Hw].
  destruct (init_spec filter h w c Hs Hh Hw)
    as (op' & n0 & n1 & Ei & _ & _ & G0 & G1 & Ef & Ep & Est & Een & _).
  assert (op' = op) by congruence. subst op'.
  assert (H0 : (h <= n0)%nat) by lia. assert (H1 : (w <= n1)%nat) by lia.
  pose proof (half_gap n0 h H0) as B0. pose proof (half_gap n1 w H1) as B1.
  unfold _pad. rewrite Ep, Est, Een.
  pose proof (pad_with_ok n0 n1 c h w v H0 H1 Hv) as Hp. cbv zeta in Hp.
  rewrite Hp. eexists. split; [reflexivity|]. cbn [shape].
  split; [reflexivity|].
  unfold _crop, slice. rewrite Est, Een. cbn [shape item fst snd].
  split; [apply window_shape; assumption|]. split.
  - intros i j k Hi' Hj'. unfold in_window. cbn [fst snd].
    destruct (Nat.leb_spec ((n0 - h) / 2) ((n0 - h) / 2 + i)); [|lia].
    destruct (Nat.ltb_spec ((n0 - h) / 2 + i) ((n0 - h) / 2 + h)); [|lia].
    destruct (Nat.leb_spec ((n1 - w) / 2) ((n1 - w) / 2 + j)); [|lia].
    destruct (Nat.ltb_spec ((n1 - w) / 2 + j) ((n1 - w) / 2 + w)); [|lia].
    cbn [andb]. f_equal; lia.
  - intros i j k Hout. rewrite Hout. reflexivity.
Qed.

Lemma crop_undoes_pad_witness :
  exists op p,
    __init__ psf_1x2 = Ok op /\
    _pad op (NdArray (1, 2, 1)%nat (fun _ j _ => INR j)) = Ok p /\
    shape p = _padded_shape op /\
    shape (_crop op p) = (1, 2, 1)%nat /\
    (forall i j k, (i < 1)%nat -> (j < 2)%nat ->
       item (_crop op p) i j k
       = item (NdArray (1, 2, 1)%nat (fun _ j _ => INR j)) i j k) /\
    (forall i j k, in_window (_start_idx op) (_end_idx op) i j = false ->
                   item p i j k = 0).
Proof.
  assert (Hi : exists op, __init__ psf_1x2 = Ok op) by (eexists; reflexivity).
  destruct Hi as (op & Hi).
  destruct (crop_undoes_pad psf_1x2 op
              (NdArray (1, 2, 1)%nat (fun _ j _ => INR j)) 1 2 1
              Hi eq_refl eq_refl) as (p & H).
  exists op, p. split; [exact Hi|exact H].
Defined.


(** * The APGD solver: construction errors, exhaustion, idempotence *)

Module ApgdEdgeFacts.
Import APGD ApgdFacts.

Lemma op_shape_of_init (psf : ndarray R) (H : RealFFTConvolve2D.t) :
  RealFFTConvolve2D.__init__ psf = Ok H ->
  snd (RealFFTConvolve2D.op_shape H) = size3 (shape psf).
Proof.
  unfold RealFFTConvolve2D.__init__. intros EH.
  destruct (RealFFTConvolve2D.padding _) as [[[ps st] en]|]; [|discriminate].
  cbn [bind] in EH.
  destruct (RealFFTConvolve2D.pad_with _ _ _ _); [|discriminate].
  cbn [bind] in EH. injection EH as <-. reflexivity.
Qed.

Lemma clip_negative_idempotent (v : list R) :
  clip_negative (clip_negative v) = clip_negative v.
Proof.
  unfold clip_negative. rewrite map_map. apply map_ext. intros a.
  destruct (Rlt_dec a 0) as [H|H].
  - destruct (Rlt_dec 0 0); [lra|reflexivity].
  - destruct (Rlt_dec a 0); [contradiction|reflexivity].
Qed.

Section WithRule.
Variable rule :
  objective -> option functional -> option string -> nat ->
  iterand_t -> iterand_t.

(** The generator of the solver has exactly [n] iterations left. *)
Definition yields_left (n : nat) (self : t) : Prop :=
  exists g a, _gen self = Some g /\ _apgd self = Some a /\ remaining g = n.

Lemma update_counts (n : nat) (self : t) :
  (forall f g a k x, length (iterand (rule f g a k x)) = _original_size self) ->
  sized self -> yields_left (S n) self ->
  fst (_update rule self) = Ok tt /\ yields_left n (snd (_update rule self)).
Proof.
  intros Hr [Hl _] (g & a & Eg & Ea & Hn).
  unfold _update. rewrite Eg, Ea. unfold next. rewrite Hn.
  cbn [pyc_iterate cur_iterand with_iterates _image_est iterand].
  unfold assign_all. rewrite Hr, Hl, Nat.eqb_refl.
  split; [reflexivity|].
  eexists; eexists. cbn. split; [reflexivity|]. split; reflexivity.
Qed.

Lemma update_exhausted (self : t) :
  yields_left 0 self ->
  fst (_update rule self) = Raise StopIteration /\
  _image_est (snd (_update rule self)) = _image_est self /\
  yields_left 0 (snd (_update rule self)).
Proof.
  intros (g & a & Eg & Ea & Hn).
  unfold _update. rewrite Eg, Ea. unfold next. rewrite Hn.
  cbn. repeat split. eexists; eexists. repeat split.
Qed.

Lemma repeat_snoc {A : Type} (x : A) (n : nat) :
  repeat x (S n) = repeat x n ++ [x].
Proof. induction n as [|n IH]; cbn in *; [reflexivity|rewrite <- IH; reflexivity]. Qed.

Lemma updates_count (k : nat) (self : t) :
  (forall f g a i x, length (iterand (rule f g a i x)) = _original_size self) ->
  sized self ->
  forall n, yields_left (k + n) self ->
    sized (history rule self (repeat MUpdate k)) /\
    yields_left n (history rule self (repeat MUpdate k)) /\
    _original_size (history rule self (repeat MUpdate k)) = _original_size self.
Proof.
  intros Hr Hs. induction k as [|k IH]; intros n Hl.
  - cbn. auto.
  - rewrite repeat_snoc. unfold history in *. rewrite fold_left_app.
    cbn [fold_left perform].
    replace (S k + n)%nat with (k + S n)%nat in Hl by lia.
    destruct (IH (S n) Hl) as (Hsz & Hleft & Esz).
    destruct (update_frame rule (fold_left (perform rule) (repeat MUpdate k) self))
      as (_ & F2 & _).
    split; [apply update_sized, Hsz|].
    split; [|rewrite F2; exact Esz].
    apply update_counts; [intros; rewrite Esz; apply Hr | exact Hsz | exact Hleft].
Qed.

End WithRule.
End ApgdEdgeFacts.

Import APGD ApgdFacts ApgdEdgeFacts.

(** A differentiable penalty that is not [None], is not the string ["l2"]
    and has no attribute [jacobianT] makes the constructor raise
    [AssertionError]; every other string does, the priors ["l1"] and
    ["nonneg"] of [APGDPriors] among them. *)
Theorem diff_penalty_without_jacobianT_raises (cfg : apgd_config)
    (H : RealFFTConvolve2D.t) :
  RealFFTConvolve2D.__init__ (cfg_psf cfg) = Ok H ->
  cfg_diff_penalty cfg <> PNone ->
  penalty_eqb (cfg_diff_penalty cfg) APGDPriors.L2 = false ->
  has_jacobianT (cfg_diff_penalty cfg) = false ->
  __init__ cfg = (Raise AssertionError, []).
Proof.
  intros EH Hn H2 Hj. unfold __init__. rewrite EH.
  destruct (cfg_diff_penalty cfg) as [|s|b c|b]; [contradiction| | |];
    rewrite H2, Hj; reflexivity.
Qed.

Lemma diff_penalty_without_jacobianT_raises_witness :
  __init__ (ApgdConfig psf_1x2 500 (PStr APGDPriors.L1)
              (PStr APGDPriors.NONNEG) (Some "BT"%string) 0.001 0.001)
  = (Raise AssertionError, []).
Proof.
  eapply (diff_penalty_without_jacobianT_raises
            (ApgdConfig psf_1x2 500 (PStr APGDPriors.L1)
               (PStr APGDPriors.NONNEG) (Some "BT"%string) 0.001 0.001)).
  - reflexivity.
  - discriminate.
  - reflexivity.
  - reflexivity.
Defined.

(** A proximal penalty given as a string other than ["l1"] and ["nonneg"]
    (the prior ["l2"] of [APGDPriors] is one), or as an object that cannot
    be called, makes the constructor raise [TypeError]: the call of the
    penalty fails, and the handler only catches [ValueError]. *)
Theorem uncallable_prox_penalty_raises_TypeError (cfg : apgd_config)
    (H : RealFFTConvolve2D.t) :
  RealFFTConvolve2D.__init__ (cfg_psf cfg) = Ok H ->
  cfg_diff_penalty cfg = PNone \/ cfg_diff_penalty cfg = PStr APGDPriors.L2 ->
  (exists s, cfg_prox_penalty cfg = PStr s /\
             s <> APGDPriors.L1 /\ s <> APGDPriors.NONNEG) \/
  (exists b, cfg_prox_penalty cfg = PObject b) ->
  __init__ cfg = (Raise TypeError, []).
Proof.
  intros EH Hd Hp. unfold __init__. rewrite EH.
  destruct Hp as [(s & Ep & H1 & H2) | (b & Ep)]; rewrite Ep;
    destruct Hd as [Ed | Ed]; rewrite Ed;
    cbn [penalty_eqb call_penalty];
    try (apply String.eqb_neq in H1; apply String.eqb_neq in H2;
         rewrite H1, H2);
    reflexivity.
Qed.

Lemma uncallable_prox_penalty_raises_TypeError_witness :
  __init__ (cfg_with_prox (PStr APGDPriors.L2)) = (Raise TypeError, []).
Proof.
  eapply (uncallable_prox_penalty_raises_TypeError
            (cfg_with_prox (PStr APGDPriors.L2))).
  - reflexivity.
  - left. reflexivity.
  - left. exists APGDPriors.L2. repeat split; discriminate.
Defined.

(** When the call of the proximal penalty raises [ValueError], the
    constructor prints ["Unexpected prior."] and returns a solver on which
    the attribute [_prox_penalty] was never assigned: every later
    [set_data] raises [AttributeError]. *)
Theorem swallowed_prior_breaks_set_data (cfg : apgd_config)
    (H : RealFFTConvolve2D.t) (b : bool) (construct : nat -> res functional) :
  RealFFTConvolve2D.__init__ (cfg_psf cfg) = Ok H ->
  cfg_diff_penalty cfg = PNone \/ cfg_diff_penalty cfg = PStr APGDPriors.L2 ->
  cfg_prox_penalty cfg = PCallable b construct ->
  construct (size3 (shape (cfg_psf cfg))) = Raise ValueError ->
  exists s,
    __init__ cfg = (Ok s, ["Unexpected prior."%string]) /\
    forall d, set_data s d = Raise AttributeError.
Proof.
  intros EH Hd Ep Ec. unfold __init__. rewrite EH, Ep.
  rewrite (op_shape_of_init _ _ EH).
  destruct Hd as [Ed | Ed]; rewrite Ed;
    cbn [penalty_eqb call_penalty]; rewrite Ec;
    (eexists; split; [reflexivity|]; intros d; reflexivity).
Qed.

Lemma swallowed_prior_breaks_set_data_witness :
  exists s,
    __init__ (cfg_with_prox rejecting_penalty)
      = (Ok s, ["Unexpected prior."%string]) /\
    forall d, set_data s d = Raise AttributeError.
Proof.
  eapply (swallowed_prior_breaks_set_data (cfg_with_prox rejecting_penalty)).
  - reflexivity.
  - left. reflexivity.
  - reflexivity.
  - reflexivity.
Defined.

(** Between two resets the generator yields [max_iter] times: after
    [set_data], the first [max_iter] calls of [_update] succeed (the iterates
    of Pycsou having the size of the PSF), and every further call raises
    [StopIteration] and leaves the image estimate as it is. *)
Theorem update_stops_after_max_iter
    (rule : objective -> option functional -> option string -> nat ->
            iterand_t -> iterand_t)
    (cfg : apgd_config) (s0 s1 : t) (d : ndarray R) :
  fst (__init__ cfg) = Ok s0 ->
  set_data s0 d = Ok s1 ->
  (forall f g a k x,
      length (iterand (rule f g a k x)) = size3 (shape (cfg_psf cfg))) ->
  (forall k, (k < cfg_max_iter cfg)%nat ->
     fst (_update rule (history rule s1 (repeat MUpdate k))) = Ok tt) /\
  (forall k, (cfg_max_iter cfg <= k)%nat ->
     fst (_update rule (history rule s1 (repeat MUpdate k)))
       = Raise StopIteration /\
     _image_est (snd (_update rule (history rule s1 (repeat MUpdate k))))
       = _image_est (history rule s1 (repeat MUpdate k))).
Proof.
  intros Hi Hd Hr.
  destruct (init_sized cfg s0 Hi) as ([L0 Z0] & Sh0 & Mx0 & _).
  destruct (set_data_spec s0 d s1 Hd)
    as (Ei & Es & Ez & Em & _ & Eg & pp & dm & _ & Ea).
  assert (Hs1 : sized s1) by (split; congruence).
  assert (Hr' : forall f g a k x,
             length (iterand (rule f g a k x)) = _original_size s1).
  { intros. rewrite Hr, Ez, Z0, Sh0. reflexivity. }
  assert (Hl : yields_left (cfg_max_iter cfg) s1).
  { eexists; eexists. split; [exact Eg|]. split; [exact Ea|]. exact Mx0. }
  assert (Hstop : forall j,
    yields_left 0 (history rule s1 (repeat MUpdate (cfg_max_iter cfg + j)))).
  { induction j as [|j IH].
    - rewrite Nat.add_0_r.
      apply (updates_count rule (cfg_max_iter cfg) s1 Hr' Hs1 0).
      rewrite Nat.add_0_r. exact Hl.
    - rewrite Nat.add_succ_r, repeat_snoc. unfold history in *.
      rewrite fold_left_app. cbn [fold_left perform].
      apply (update_exhausted rule _ IH). }
  split.
  - intros k Hk.
    destruct (updates_count rule k s1 Hr' Hs1 (cfg_max_iter cfg - k))
      as (Hsz & Hleft & Esz).
    { replace (k + (cfg_max_iter cfg - k))%nat with (cfg_max_iter cfg) by lia.
      exact Hl. }
    replace (cfg_max_iter cfg - k)%nat with (S (cfg_max_iter cfg - k - 1))
      in Hleft by lia.
    apply (update_counts rule _ _
             (fun f g a i x => eq_trans (Hr' f g a i x) (eq_sym Esz))
             Hsz Hleft).
  - intros k Hk.
    replace k with (cfg_max_iter cfg + (k - cfg_max_iter cfg))%nat by lia.
    destruct (update_exhausted rule _ (Hstop (k - cfg_max_iter cfg)%nat))
      as (E1 & E2 & _).
    split; assumption.
Qed.

Lemma update_stops_after_max_iter_witness :
  exists s0 s1,
    fst (__init__ (cfg_with_prox (PStr APGDPriors.NONNEG))) = Ok s0 /\
    set_data s0 psf_1x2 = Ok s1 /\
    (forall k, (k < 500)%nat ->
       fst (_update constant_rule (history constant_rule s1 (repeat MUpdate k)))
         = Ok tt) /\
    (forall k, (500 <= k)%nat ->
       fst (_update constant_rule (history constant_rule s1 (repeat MUpdate k)))
         = Raise StopIteration /\
       _image_est (snd (_update constant_rule
                          (history constant_rule s1 (repeat MUpdate k))))
         = _image_est (history constant_rule s1 (repeat MUpdate k))).
Proof.
  eexists; eexists. split; [reflexivity|]. split; [reflexivity|].
  eapply (update_stops_after_max_iter constant_rule
            (cfg_with_prox (PStr APGDPriors.NONNEG)) _ _ psf_1x2).
  - reflexivity.
  - reflexivity.
  - intros. reflexivity.
Defined.

(** [reset] is idempotent. *)
Theorem reset_idempotent (self : t) : reset (reset self) = reset self.
Proof.
  destruct self as [osh osz ap ge ps rgb im mx H dp pp acc dat].
  destruct ap as [a|]; reflexivity.
Qed.

(** [_form_image] clips in place: the image it returns is the solver's own
    estimate afterwards, which has no negative entry, and a second call
    returns the same image and changes nothing. *)
Theorem form_image_in_place_idempotent (self self1 : t) (img : image) :
  _form_image self = (Ok img, self1) ->
  _image_est self1 = im_data img /\
  Forall (fun r => ~ r < 0) (_image_est self1) /\
  _form_image self1 = (Ok img, self1).
Proof.
  unfold _form_image.
  destruct (Nat.eqb_spec (length (_image_est self))
                         (size3 (_original_shape self))) as [E|_];
    [|discriminate].
  intros [= <- <-].
  cbn [with_image_est _image_est _original_shape im_data].
  split; [reflexivity|]. split; [apply clip_negative_nonneg|].
  rewrite clip_negative_length, E, Nat.eqb_refl, clip_negative_idempotent.
  reflexivity.
Qed.

Lemma form_image_in_place_idempotent_witness :
  exists s0 img s1,
    fst (__init__ (cfg_with_prox (PStr APGDPriors.NONNEG))) = Ok s0 /\
    _form_image (with_image_est s0 [1; -2]) = (Ok img, s1) /\
    _image_est s1 = im_data img /\
    Forall (fun r => ~ r < 0) (_image_est s1) /\
    _form_image s1 = (Ok img, s1).
Proof.
  eexists; eexists; eexists.
  split; [reflexivity|].
  match goal with
  | |- _form_image ?x = _ /\ _ =>
    pose proof (form_image_in_place_idempotent x _ _ eq_refl) as X
  end.
  split; [reflexivity | exact X].
Defined.


(** * The closed-form solver: normalisation and its edge cases *)

Module NormalizeFacts.
Import RavelFacts.

Lemma fold_min_spec (l : list R) (x : R) :
  (fold_left Rmin l x = x \/ In (fold_left Rmin l x) l) /\
  fold_left Rmin l x <= x /\
  forall y, In y l -> fold_left Rmin l x <= y.
Proof.
  revert x. induction l as [|a l IH]; intros x; cbn [fold_left].
  - split; [left; reflexivity|]. split; [lra|]. intros y [].
  - destruct (IH (Rmin x a)) as (I1 & I2 & I3).
    pose proof (Rmin_l x a). pose proof (Rmin_r x a).
    split; [|split].
    + destruct I1 as [E|Hin]; [|right; right; exact Hin].
      rewrite E. unfold Rmin. destruct (Rle_dec x a); [left|right; left];
        reflexivity.
    + lra.
    + intros y [<-|Hy]; [lra|apply I3, Hy].
Qed.

Lemma fold_max_spec (l : list R) (x : R) :
  (fold_left Rmax l x = x \/ In (fold_left Rmax l x) l) /\
  x <= fold_left Rmax l x /\
  forall y, In y l -> y <= fold_left Rmax l x.
Proof.
  revert x. induction l as [|a l IH]; intros x; cbn [fold_left].
  - split; [left; reflexivity|]. split; [lra|]. intros y [].
  - destruct (IH (Rmax x a)) as (I1 & I2 & I3).
    pose proof (Rmax_l x a). pose proof (Rmax_r x a).
    split; [|split].
    + destruct I1 as [E|Hin]; [|right; right; exact Hin].
      rewrite E. unfold Rmax. destruct (Rle_dec x a); [right; left|left];
        reflexivity.
    + lra.
    + intros y [<-|Hy]; [lra|apply I3, Hy].
Qed.

(** The entries of the flattened array are the entries of the array. *)
Lemma in_ravel (a : ndarray R) (h w c : nat) (x : R) :
  shape a = (h, w, c) ->
  (In x (ravel a) <->
   exists i j k, (i < h)%nat /\ (j < w)%nat /\ (k < c)%nat /\ x = item a i j k).
Proof.
  intros Hs. unfold ravel. rewrite Hs. split.
  - intros H. apply in_flat_map in H. destruct H as (i & Hi & H).
    apply in_flat_map in H. destruct H as (j & Hj & H).
    apply in_map_iff in H. destruct H as (k & <- & Hk).
    apply in_seq in Hi, Hj, Hk. exists i, j, k. repeat split; lia.
  - intros (i & j & k & Hi & Hj & Hk & ->).
    apply in_flat_map. exists i. split; [apply in_seq; lia|].
    apply in_flat_map. exists j. split; [apply in_seq; lia|].
    apply in_map_iff. exists k. split; [reflexivity|apply in_seq; lia].
Qed.

Lemma ravel_nonempty (a : ndarray R) (h w c : nat) :
  shape a = (h, w, c) -> (1 <= h)%nat -> (1 <= w)%nat -> (1 <= c)%nat ->
  ravel a <> [].
Proof.
  intros Hs Hh Hw Hc E.
  assert (Hin : In (item a 0 0 0) (ravel a)).
  { apply (in_ravel a h w c _ Hs). exists 0%nat, 0%nat, 0%nat.
    repeat split; lia. }
  rewrite E in Hin. exact Hin.
Qed.

Lemma ravel_empty (a : ndarray R) (h w c : nat) :
  shape a = (h, w, c) -> (h = 0 \/ w = 0 \/ c = 0)%nat -> ravel a = [].
Proof.
  intros Hs H0. destruct (ravel a) as [|x l] eqn:E; [reflexivity|].
  assert (Hin : In x (ravel a)) by (rewrite E; left; reflexivity).
  apply (in_ravel a h w c _ Hs) in Hin.
  destruct Hin as (i & j & k & Hi & Hj & Hk & _). lia.
Qed.

(** The minimum and the maximum of a non-empty array are attained bounds. *)
Lemma amin_spec (a : ndarray R) (h w c : nat) :
  shape a = (h, w, c) -> (1 <= h)%nat -> (1 <= w)%nat -> (1 <= c)%nat ->
  exists lo, amin a = Ok lo /\
    (forall i j k, (i < h)%nat -> (j < w)%nat -> (k < c)%nat ->
                   lo <= item a i j k) /\
    exists i j k, (i < h)%nat /\ (j < w)%nat /\ (k < c)%nat /\
                  lo = item a i j k.
Proof.
  intros Hs Hh Hw Hc. pose proof (ravel_nonempty a h w c Hs Hh Hw Hc) as Hne.
  pose proof (in_ravel a h w c) as Hin. unfold amin.
  destruct (ravel a) as [|x l]; [contradiction|].
  destruct (fold_min_spec l x) as (I1 & I2 & I3).
  eexists. split; [reflexivity|]. split.
  - intros i j k Hi Hj Hk.
    assert (H : In (item a i j k) (x :: l))
      by (apply (Hin _ Hs); exists i, j, k; auto).
    destruct H as [<-|H]; [exact I2|apply I3, H].
  - apply (Hin _ Hs). destruct I1 as [->|I1]; [left; reflexivity|right; exact I1].
Qed.

Lemma amax_spec (a : ndarray R) (h w c : nat) :
  shape a = (h, w, c) -> (1 <= h)%nat -> (1 <= w)%nat -> (1 <= c)%nat ->
  exists hi, amax a = Ok hi /\
    (forall i j k, (i < h)%nat -> (j < w)%nat -> (k < c)%nat ->
                   item a i j k <= hi) /\
    exists i j k, (i < h)%nat /\ (j < w)%nat /\ (k < c)%nat /\
                  hi = item a i j k.
Proof.
  intros Hs Hh Hw Hc. pose proof (ravel_nonempty a h w c Hs Hh Hw Hc) as Hne.
  pose proof (in_ravel a h w c) as Hin. unfold amax.
  destruct (ravel a) as [|x l]; [contradiction|].
  destruct (fold_max_spec l x) as (I1 & I2 & I3).
  eexists. split; [reflexivity|]. split.
  - intros i j k Hi Hj Hk.
    assert (H : In (item a i j k) (x :: l))
      by (apply (Hin _ Hs); exists i, j, k; auto).
    destruct H as [<-|H]; [exact I2|apply I3, H].
  - apply (Hin _ Hs). destruct I1 as [->|I1]; [left; reflexivity|right; exact I1].
Qed.

(** What the normalisation returns on a non-empty array with minimum
    [lo] and maximum [hi]. *)
Lemma normalize01_spec (X : ndarray R) (h w c : nat) :
  shape X = (h, w, c) -> (1 <= h)%nat -> (1 <= w)%nat -> (1 <= c)%nat ->
  exists lo hi out,
    amin X = Ok lo /\ amax X = Ok hi /\ lo <= hi /\
    normalize01 X = Ok out /\ shape out = (h, w, c) /\
    (hi = lo -> forall i j k, item out i j k = NaN) /\
    (hi <> lo ->
     (forall i j k, (i < h)%nat -> (j < w)%nat -> (k < c)%nat ->
        exists v, item out i j k = Num v /\ 0 <= v <= 1) /\
     (exists i j k, (i < h)%nat /\ (j < w)%nat /\ (k < c)%nat /\
                    item out i j k = Num 0) /\
     (exists i j k, (i < h)%nat /\ (j < w)%nat /\ (k < c)%nat /\
                    item out i j k = Num 1)).
Proof.
  intros Hs Hh Hw Hc.
  destruct (amin_spec X h w c Hs Hh Hw Hc)
    as (lo & Elo & Llo & il & jl & kl & Hil & Hjl & Hkl & Alo).
  destruct (amax_spec X h w c Hs Hh Hw Hc)
    as (hi & Ehi & Lhi & ih & jh & kh & Hih & Hjh & Hkh & Ahi).
  assert (Hle : lo <= hi).
  { pose proof (Llo il jl kl Hil Hjl Hkl). pose proof (Lhi il jl kl Hil Hjl Hkl).
    lra. }
  exists lo, hi. unfold normalize01. rewrite Elo, Ehi. cbn [bind].
  eexists. split; [reflexivity|]. split; [reflexivity|]. split; [exact Hle|].
  split; [reflexivity|]. cbn [shape item]. split; [exact Hs|].
  split.
  - intros E i j k. destruct (Req_dec_T hi lo) as [_|Hne]; [reflexivity|].
    contradiction.
  - intros Hne. destruct (Req_dec_T hi lo) as [E|_]; [contradiction|].
    split; [|split].
    + intros a b d Ha Hb Hd'. eexists. split; [reflexivity|].
      pose proof (Llo a b d Ha Hb Hd'). pose proof (Lhi a b d Ha Hb Hd').
      split.
      * apply Rmult_le_pos; [lra|]. left. apply Rinv_0_lt_compat. lra.
      * apply (Rmult_le_reg_r (hi - lo)); [lra|].
        unfold Rdiv. rewrite Rmult_assoc, Rinv_l by lra. lra.
    + exists il, jl, kl. repeat split; try assumption.
      rewrite <- Alo. f_equal. unfold Rdiv. ring.
    + exists ih, jh, kh. repeat split; try assumption.
      rewrite <- Ahi. f_equal. field. lra.
Qed.

(** The extremes of an array coincide exactly when it is constant. *)
Lemma extremes_coincide (X : ndarray R) (h w c : nat) (lo hi : R) :
  shape X = (h, w, c) -> (1 <= h)%nat -> (1 <= w)%nat -> (1 <= c)%nat ->
  amin X = Ok lo -> amax X = Ok hi ->
  (hi = lo <->
   forall i j k i' j' k',
     (i < h)%nat -> (j < w)%nat -> (k < c)%nat ->
     (i' < h)%nat -> (j' < w)%nat -> (k' < c)%nat ->
     item X i j k = item X i' j' k').
Proof.
  intros Hs Hh Hw Hc Elo Ehi.
  destruct (amin_spec X h w c Hs Hh Hw Hc)
    as (lo' & Elo' & Llo & il & jl & kl & Hil & Hjl & Hkl & Alo).
  destruct (amax_spec X h w c Hs Hh Hw Hc)
    as (hi' & Ehi' & Lhi & ih & jh & kh & Hih & Hjh & Hkh & Ahi).
  rewrite Elo' in Elo. injection Elo as E1.
  rewrite Ehi' in Ehi. injection Ehi as E2.
  rewrite <- E1, <- E2. clear E1 E2 lo hi. split.
  - intros E i j k i' j' k' Hi Hj Hk Hi' Hj' Hk'.
    pose proof (Llo i j k Hi Hj Hk). pose proof (Lhi i j k Hi Hj Hk).
    pose proof (Llo i' j' k' Hi' Hj' Hk'). pose proof (Lhi i' j' k' Hi' Hj' Hk').
    lra.
  - intros Hconst. rewrite Ahi, Alo. apply Hconst; assumption.
Qed.

End NormalizeFacts.

Module ZeroMeasurementFacts.
Import SumFacts.

Lemma objective_nonneg (P Q Yc : matrix) (lmbd : R) (X : nat -> nat -> R) :
  0 < lmbd -> 0 <= tikhonov_objective P Q Yc lmbd X.
Proof.
  intros Hl. unfold tikhonov_objective.
  apply Rplus_le_le_0_compat.
  - apply Rsum_nonneg. intros i _. apply Rsum_nonneg. intros j _.
    apply pow2_ge_0.
  - apply Rmult_le_pos; [lra|].
    apply Rsum_nonneg. intros k _. apply Rsum_nonneg. intros l _.
    apply pow2_ge_0.
Qed.

Lemma objective_at_zero (P Q Yc : matrix) (lmbd : R) :
  (forall i j, mentry Yc i j = 0) ->
  tikhonov_objective P Q Yc lmbd (fun _ _ => 0) = 0.
Proof.
  intros HY. unfold tikhonov_objective.
  rewrite (Rsum_zero (nrows P)), (Rsum_zero (ncols P)); [ring| |].
  - intros k _. apply Rsum_zero. intros l _. ring.
  - intros i _. apply Rsum_zero. intros j _. rewrite HY.
    rewrite (Rsum_zero (ncols P)); [ring|].
    intros k _. apply Rsum_zero. intros l _. ring.
Qed.

(** The solution for a zero measurement is zero. *)
Lemma zero_solution (P Q Yc X : matrix) (lmbd : R) :
  0 < lmbd -> (forall i j, mentry Yc i j = 0) ->
  is_tikhonov_solution P Q Yc lmbd X ->
  forall k l, (k < ncols P)%nat -> (l < ncols Q)%nat -> mentry X k l = 0.
Proof.
  intros Hl HY (_ & _ & Hmin) k l Hk Hl'.
  destruct (Hmin (fun _ _ => 0)) as [Hle Huniq].
  rewrite (objective_at_zero P Q Yc lmbd HY) in Hle, Huniq.
  pose proof (objective_nonneg P Q Yc lmbd (mentry X) Hl) as Hge.
  symmetry. apply Huniq; [lra|assumption|assumption].
Qed.

End ZeroMeasurementFacts.

Import NormalizeFacts.

(** With [normalize=True], [bayer2rgb] maps a Bayer array with at least
    one pixel into [[0, 1]], the smallest entry of the RGB array going to 0
    and the largest to 1; when all entries of the RGB array are equal the
    quotient is [0 / 0] and every entry of the result is NaN. *)
Theorem bayer2rgb_normalised_range (X : ndarray R) (h w n : nat) :
  shape X = (h, w, n) -> (4 <= n)%nat -> (1 <= h)%nat -> (1 <= w)%nat ->
  exists raw rgb,
    demosaic X = Ok raw /\ bayer2rgb X true = Ok rgb /\
    shape rgb = (h, w, 3%nat) /\
    ((forall i j k i' j' k',
         (i < h)%nat -> (j < w)%nat -> (k < 3)%nat ->
         (i' < h)%nat -> (j' < w)%nat -> (k' < 3)%nat ->
         item raw i j k = item raw i' j' k') ->
     forall i j k, item rgb i j k = NaN) /\
    ((exists i j k i' j' k',
         (i < h)%nat /\ (j < w)%nat /\ (k < 3)%nat /\
         (i' < h)%nat /\ (j' < w)%nat /\ (k' < 3)%nat /\
         item raw i j k <> item raw i' j' k') ->
     (forall i j k, (i < h)%nat -> (j < w)%nat -> (k < 3)%nat ->
        exists v, item rgb i j k = Num v /\ 0 <= v <= 1) /\
     (exists i j k, (i < h)%nat /\ (j < w)%nat /\ (k < 3)%nat /\
                    item rgb i j k = Num 0) /\
     (exists i j k, (i < h)%nat /\ (j < w)%nat /\ (k < 3)%nat /\
                    item rgb i j k = Num 1)).
Proof.
  intros Hs Hn Hh Hw. unfold bayer2rgb, demosaic. rewrite Hs.
  destruct (Nat.ltb_spec n 4) as [Hlt|_]; [lia|]. cbn [bind].
  eexists.
  match goal with
  | |- exists rgb, Ok ?r = Ok _ /\ normalize01 _ = _ /\ _ =>
    destruct (normalize01_spec r h w 3 eq_refl Hh Hw (le_S _ _ (le_S _ _ (le_n 1))))
      as (lo & hi & out & Elo & Ehi & Hle & Eout & Sout & Hc & Hd);
    pose proof (extremes_coincide r h w 3 lo hi eq_refl Hh Hw
                  (le_S _ _ (le_S _ _ (le_n 1))) Elo Ehi) as Hx
  end.
  exists out. split; [reflexivity|]. split; [exact Eout|].
  split; [exact Sout|]. split.
  - intros Hconst. apply Hc. apply Hx. exact Hconst.
  - intros (i & j & k & i' & j' & k' & Hi & Hj & Hk & Hi' & Hj' & Hk' & Hne).
    apply Hd. intros E. apply Hne. apply (proj1 Hx E); assumption.
Qed.

Lemma bayer2rgb_normalised_range_witness :
  exists raw rgb,
    demosaic (NdArray (1, 1, 4)%nat (fun _ _ k => INR k)) = Ok raw /\
    bayer2rgb (NdArray (1, 1, 4)%nat (fun _ _ k => INR k)) true = Ok rgb /\
    shape rgb = (1, 1, 3)%nat /\
    ((forall i j k i' j' k',
         (i < 1)%nat -> (j < 1)%nat -> (k < 3)%nat ->
         (i' < 1)%nat -> (j' < 1)%nat -> (k' < 3)%nat ->
         item raw i j k = item raw i' j' k') ->
     forall i j k, item rgb i j k = NaN) /\
    ((exists i j k i' j' k',
         (i < 1)%nat /\ (j < 1)%nat /\ (k < 3)%nat /\
         (i' < 1)%nat /\ (j' < 1)%nat /\ (k' < 3)%nat /\
         item raw i j k <> item raw i' j' k') ->
     (forall i j k, (i < 1)%nat -> (j < 1)%nat -> (k < 3)%nat ->
        exists v, item rgb i j k = Num v /\ 0 <= v <= 1) /\
     (exists i j k, (i < 1)%nat /\ (j < 1)%nat /\ (k < 3)%nat /\
                    item rgb i j k = Num 0) /\
     (exists i j k, (i < 1)%nat /\ (j < 1)%nat /\ (k < 3)%nat /\
                    item rgb i j k = Num 1)).
Proof.
  apply (bayer2rgb_normalised_range
           (NdArray (1, 1, 4)%nat (fun _ _ k => INR k)) 1 1 4).
  - reflexivity.
  - apply le_n.
  - apply le_n.
  - apply le_n.
Defined.

(** The errors of [bayer2rgb]: an array with fewer than four channels
    raises [IndexError]; an array with no pixel raises [ValueError] when it
    is to be normalised (the minimum of an empty array), and is returned
    empty otherwise. *)
Theorem bayer2rgb_errors (X : ndarray R) (h w n : nat) :
  shape X = (h, w, n) ->
  ((n < 4)%nat -> forall b, bayer2rgb X b = Raise IndexError) /\
  ((4 <= n)%nat -> (h = 0 \/ w = 0)%nat ->
   bayer2rgb X true = Raise ValueError /\
   exists rgb, bayer2rgb X false = Ok rgb /\ shape rgb = (h, w, 3%nat)).
Proof.
  intros Hs. unfold bayer2rgb, demosaic. rewrite Hs. split.
  - intros Hlt b. destruct (Nat.ltb_spec n 4); [reflexivity|lia].
  - intros Hn H0. destruct (Nat.ltb_spec n 4); [lia|]. cbn [bind]. split.
    + unfold normalize01, amin.
      match goal with
      | |- context [ravel ?r] =>
        rewrite (ravel_empty r h w 3 eq_refl) by tauto
      end.
      reflexivity.
    + eexists. split; reflexivity.
Qed.

Lemma bayer2rgb_errors_witness :
  (forall b, bayer2rgb (NdArray (2, 2, 3)%nat (fun _ _ _ => 1)) b
             = Raise IndexError) /\
  bayer2rgb (NdArray (0, 2, 4)%nat (fun _ _ _ => 1)) true = Raise ValueError /\
  exists rgb, bayer2rgb (NdArray (0, 2, 4)%nat (fun _ _ _ => 1)) false = Ok rgb /\
              shape rgb = (0, 2, 3)%nat.
Proof.
  split.
  - apply (proj1 (bayer2rgb_errors (NdArray (2, 2, 3)%nat (fun _ _ _ => 1))
                    2 2 3 eq_refl)).
    repeat constructor.
  - apply (proj2 (bayer2rgb_errors (NdArray (0, 2, 4)%nat (fun _ _ _ => 1))
                    0 2 4 eq_refl)).
    + apply le_n.
    + left. reflexivity.
Defined.

Import SolverFacts ZeroMeasurementFacts.

(** For tall operators with correct decompositions and a positive weight,
    [reconstruction] returns an RGB image of the shape
    [(P.shape[1], Q.shape[1], 3)] whose entries all lie in [[0, 1]], unless
    the clipped solution is constant, when they are all NaN; this is the
    case of a measurement that is zero everywhere. *)
Theorem reconstruction_range_and_zero_measurement
    (svd : matrix -> matrix * vector * matrix)
    (Y : ndarray R) (P Q : matrix) (lmbd : R) :
  is_svd P (svd P) -> is_svd Q (svd Q) -> 0 < lmbd ->
  (ncols P <= nrows P)%nat -> (ncols Q <= nrows Q)%nat ->
  (1 <= ncols P)%nat -> (1 <= ncols Q)%nat ->
  shape Y = (nrows P, nrows Q, 4%nat) ->
  exists rgb,
    reconstruction svd Y P Q lmbd = Ok rgb /\
    shape rgb = (ncols P, ncols Q, 3%nat) /\
    ((forall i j k, item rgb i j k = NaN) \/
     (forall i j k, (i < ncols P)%nat -> (j < ncols Q)%nat -> (k < 3)%nat ->
        exists v, item rgb i j k = Num v /\ 0 <= v <= 1)) /\
    ((forall i j c, item Y i j c = 0) ->
     forall i j k, item rgb i j k = NaN).
Proof.
  intros HsP HsQ Hl HtP HtQ HnP HnQ HY.
  destruct (solve_channels_spec svd Y P Q lmbd HsP HsQ Hl HtP HtQ HY)
    as (Xb & Eb & Sb & Hb).
  unfold reconstruction. rewrite Eb. cbn [bind].
  unfold bayer2rgb, demosaic, clip0. cbn [shape item]. rewrite Sb.
  cbn [Nat.ltb Nat.leb bind].
  match goal with
  | |- exists rgb, normalize01 ?r = _ /\ _ =>
    destruct (normalize01_spec r (ncols P) (ncols Q) 3 eq_refl HnP HnQ
                (le_S _ _ (le_S _ _ (le_n 1))))
      as (lo & hi & out & Elo & Ehi & Hle & Eout & Sout & Hc & Hd);
    pose proof (extremes_coincide r (ncols P) (ncols Q) 3 lo hi eq_refl HnP HnQ
                  (le_S _ _ (le_S _ _ (le_n 1))) Elo Ehi) as Hx
  end.
  exists out. split; [exact Eout|]. split; [exact Sout|]. split.
  - destruct (Req_dec_T hi lo) as [E|Hne]; [left; apply Hc, E|].
    right. apply (Hd Hne).
  - intros HY0. apply Hc. apply Hx.
    assert (Hz : forall i j c, (i < ncols P)%nat -> (j < ncols Q)%nat ->
                               (c < 4)%nat -> item Xb i j c = 0).
    { intros i j c Hi Hj Hlt. destruct (Hb c Hlt) as (Xc & _ & Sc & Ic).
      rewrite Ic.
      apply (zero_solution P Q
               (Mat (nrows P) (nrows Q) (fun a b => item Y a b c)) Xc lmbd Hl);
        try assumption.
      intros a b. cbn [mentry]. apply HY0. }
    intros i j k i' j' k' Hi Hj Hk Hi' Hj' Hk'. cbn [item].
    assert (Hv : forall a b d, (a < ncols P)%nat -> (b < ncols Q)%nat ->
               match d with
               | 2%nat => Rmax (item Xb a b 0%nat) 0
               | 1%nat => 0.5 * (Rmax (item Xb a b 1%nat) 0
                                 + Rmax (item Xb a b 2%nat) 0)
               | _ => Rmax (item Xb a b 3%nat) 0
               end = 0).
    { intros a b d Ha Hb'. rewrite !Hz by (try assumption; lia).
      rewrite Rmax_left by lra. destruct d as [|[|[|d]]]; lra. }
    rewrite (Hv i j k Hi Hj), (Hv i' j' k' Hi' Hj'). reflexivity.
Qed.

Lemma reconstruction_range_and_zero_measurement_witness :
  exists rgb,
    reconstruction svd_of_identities
      (NdArray (1, 1, 4)%nat (fun _ _ _ => 0)) M_one M_one 1 = Ok rgb /\
    shape rgb = (ncols M_one, ncols M_one, 3%nat) /\
    ((forall i j k, item rgb i j k = NaN) \/
     (forall i j k, (i < ncols M_one)%nat -> (j < ncols M_one)%nat ->
                    (k < 3)%nat ->
        exists v, item rgb i j k = Num v /\ 0 <= v <= 1)) /\
    ((forall i j c, item (NdArray (1, 1, 4)%nat (fun _ _ _ => 0)) i j c = 0) ->
     forall i j k, item rgb i j k = NaN).
Proof.
  apply (reconstruction_range_and_zero_measurement svd_of_identities
           (NdArray (1, 1, 4)%nat (fun _ _ _ => 0)) M_one M_one 1).
  - exact svd_of_identities_one.
  - exact svd_of_identities_one.
  - exact Rlt_0_1.
  - apply le_n.
  - apply le_n.
  - apply le_n.
  - apply le_n.
  - reflexivity.
Defined.


(** * The closed-form solver: mosaicing and demosaicing *)

Module MosaicFacts.

Lemma half_of_double (h : nat) : ((h * 2 - 0 + 1) / 2 = h)%nat.
Proof.
  rewrite Nat.sub_0_r. rewrite (Nat.mul_comm h 2).
  rewrite (Nat.add_comm (2 * h) 1), (Nat.mul_comm 2 h).
  rewrite Nat.div_add by lia. cbn. reflexivity.
Qed.

Lemma half_of_double_from_one (h : nat) : ((h * 2 - 1 + 1) / 2 = h)%nat.
Proof.
  destruct h as [|h]; [reflexivity|].
  replace (S h * 2 - 1 + 1)%nat with (S h * 2)%nat by lia.
  apply Nat.div_mul. lia.
Qed.

Lemma strided_ok (a : ndarray R) (h w c s t ch : nat) :
  shape a = ((h * 2)%nat, (w * 2)%nat, c) -> (ch < c)%nat ->
  (s = 0 \/ s = 1)%nat -> (t = 0 \/ t = 1)%nat ->
  strided a s t ch
  = Ok (Mat h w (fun i j => item a (s + 2 * i) (t + 2 * j) ch)).
Proof.
  intros Hs Hc Hs01 Ht01. unfold strided. rewrite Hs.
  destruct (Nat.ltb_spec ch c) as [_|]; [|lia].
  destruct Hs01 as [-> | ->], Ht01 as [-> | ->];
    rewrite ?half_of_double, ?half_of_double_from_one; reflexivity.
Qed.

End MosaicFacts.

Import MosaicFacts.

(** [rgb2bayer] followed by [bayer2rgb] without normalisation: when
    [resize] returns the doubled shape it is asked for, the result has the
    shape of the image, and its pixel [(i, j)] holds the red value of the
    doubled image at [(2i+1, 2j+1)], the mean of its green values at
    [(2i+1, 2j)] and [(2i, 2j+1)], and its blue value at [(2i, 2j)]; an
    image whose doubled version repeats each pixel on a 2 x 2 block comes
    back unchanged. *)
Theorem rgb2bayer_then_bayer2rgb
    (resize : ndarray R -> nat * nat * nat -> ndarray R)
    (img : ndarray R) (h w c : nat) :
  shape img = (h, w, c) ->
  shape (resize img ((h * 2)%nat, (w * 2)%nat, 3%nat))
  = ((h * 2)%nat, (w * 2)%nat, 3%nat) ->
  let resized := resize img ((h * 2)%nat, (w * 2)%nat, 3%nat) in
  exists bayer rgb,
    rgb2bayer resize img = Ok bayer /\
    shape bayer = (h, w, 4%nat) /\
    bayer2rgb bayer false = Ok rgb /\
    shape rgb = (h, w, 3%nat) /\
    (forall i j,
        item rgb i j 0%nat = Num (item resized (1 + 2 * i) (1 + 2 * j) 0%nat) /\
        item rgb i j 1%nat
        = Num (0.5 * (item resized (1 + 2 * i) (0 + 2 * j) 1%nat
                      + item resized (0 + 2 * i) (1 + 2 * j) 1%nat)) /\
        item rgb i j 2%nat = Num (item resized (0 + 2 * i) (0 + 2 * j) 2%nat)) /\
    ((forall i j k a b, (a < 2)%nat -> (b < 2)%nat -> (k < 3)%nat ->
         item resized (a + 2 * i) (b + 2 * j) k = item img i j k) ->
     forall i j k, (k < 3)%nat -> item rgb i j k = Num (item img i j k)).
Proof.
  intros Hs Hr resized. unfold rgb2bayer. rewrite Hs. fold resized.
  rewrite (strided_ok resized h w 3 0 0 2 Hr) by (auto; lia).
  rewrite (strided_ok resized h w 3 1 0 1 Hr) by (auto; lia).
  rewrite (strided_ok resized h w 3 0 1 1 Hr) by (auto; lia).
  rewrite (strided_ok resized h w 3 1 1 0 Hr) by (auto; lia).
  cbn [bind]. unfold dstack4. cbn [nrows ncols mentry].
  rewrite !Nat.eqb_refl. cbn [andb].
  eexists. eexists. split; [reflexivity|]. split; [reflexivity|].
  unfold bayer2rgb, demosaic. cbn [shape item Nat.ltb Nat.leb bind].
  split; [reflexivity|]. split; [reflexivity|]. split.
  - intros i j. repeat split; reflexivity.
  - intros Hrep i j k Hk.
    destruct k as [|[|[|k]]]; [| | |lia]; cbn [item]; f_equal.
    + apply Hrep; lia.
    + rewrite !Hrep by lia. lra.
    + apply Hrep; lia.
Qed.

Lemma rgb2bayer_then_bayer2rgb_witness :
  let resize := fun (a : ndarray R) (shp : nat * nat * nat) =>
                  NdArray shp (fun i j k => item a (i / 2) (j / 2) k) in
  let img := NdArray (1, 1, 3)%nat (fun _ _ k => INR k) in
  let resized := resize img ((1 * 2)%nat, (1 * 2)%nat, 3%nat) in
  exists bayer rgb,
    rgb2bayer resize img = Ok bayer /\
    shape bayer = (1, 1, 4)%nat /\
    bayer2rgb bayer false = Ok rgb /\
    shape rgb = (1, 1, 3)%nat /\
    (forall i j,
        item rgb i j 0%nat = Num (item resized (1 + 2 * i) (1 + 2 * j) 0%nat) /\
        item rgb i j 1%nat
        = Num (0.5 * (item resized (1 + 2 * i) (0 + 2 * j) 1%nat
                      + item resized (0 + 2 * i) (1 + 2 * j) 1%nat)) /\
        item rgb i j 2%nat = Num (item resized (0 + 2 * i) (0 + 2 * j) 2%nat)) /\
    ((forall i j k a b, (a < 2)%nat -> (b < 2)%nat -> (k < 3)%nat ->
         item resized (a + 2 * i) (b + 2 * j) k = item img i j k) ->
     forall i j k, (k < 3)%nat -> item rgb i j k = Num (item img i j k)).
Proof.
  cbv zeta.
  apply (rgb2bayer_then_bayer2rgb
           (fun (a : ndarray R) (shp : nat * nat * nat) =>
              NdArray shp (fun i j k => item a (i / 2) (j / 2) k))
           (NdArray (1, 1, 3)%nat (fun _ _ k => INR k)) 1 1 3).
  - reflexivity.
  - reflexivity.
Defined.


(** * The training loop: failures, the mean loss, stalled training *)

Module TrainerLoopFacts.
Import Trainer DictFacts TrainerFacts.

Lemma dict_get_missing {V} (d : dict V) (k : string) :
  ~ In k (dict_keys d) -> dict_get d k = Raise KeyError.
Proof.
  induction d as [|[k0 v0] d IH]; cbn; intros Hn; [reflexivity|].
  destruct (String.eqb_spec k0 k) as [->|_]; [exfalso; apply Hn; left; reflexivity|].
  apply IH. intros Hin. apply Hn. right. exact Hin.
Qed.

Lemma init_fields (cfg : config) (self : t) :
  __init__ cfg = Ok self ->
  has_test_dataset self = cfg_has_test_dataset cfg /\
  clip_grad_norm self = cfg_clip_grad cfg /\
  lpips self = cfg_lpips cfg /\
  printed self = [] /\
  metrics self = initial_metrics (cfg_n_iter cfg) (cfg_algorithm_name cfg)
                                 (cfg_metric_for_best_model cfg).
Proof.
  unfold __init__. destruct (negb _); [discriminate|].
  destruct (cfg_metric_for_best_model cfg) as [k|]; cbn [bind].
  - destruct (existsb _ _); cbn [bind]; [|discriminate].
    intros [= <-]. cbn. tauto.
  - intros [= <-]. cbn. tauto.
Qed.

Section WithCollaborators.
Variable batch : Type.
Variable forward_backward :
  list parameter -> option (list parameter) -> batch ->
  fl * list (option (list fl)) * list (option (list fl)).
Variable clip_grad_norm_ : list parameter -> R -> list parameter.
Variable optimizer_step : list parameter -> list parameter.
Variable update_mask : list parameter -> list parameter.

Let step := train_step forward_backward clip_grad_norm_ optimizer_step
                       update_mask.
Let loop := train_loop forward_backward clip_grad_norm_ optimizer_step
                       update_mask.

(** Without a mask, a step with gradient clipping raises. *)
Lemma step_clipping_without_mask (self : t) (b : batch) (c : R) :
  mask self = None -> use_mask self = false -> clip_grad_norm self = Some c ->
  (fst (step self b) = Raise AttributeError \/
   (fst (step self b) = Raise ValueError /\ nan_hooks self = true)) /\
  map p_data (recon (snd (step self b))) = map p_data (recon self).
Proof.
  intros Hm Hu Hc.
  destruct self as [r htd lp sk mk um l1 cg mt nh pr].
  cbn in Hm, Hu, Hc. subst. unfold step, train_step.
  cbn [recon mask nan_hooks].
  destruct (forward_backward r None b) as [[loss gr] gm].
  destruct nh; cbn [andb].
  - destruct (hook_fires r gr).
    + split; [right; split; reflexivity | reflexivity].
    + cbn. split; [left; reflexivity | apply accumulate_all_data].
  - cbn. split; [left; reflexivity | apply accumulate_all_data].
Qed.


Let through := steps_through forward_backward clip_grad_norm_ optimizer_step
                             update_mask.

Definition total (ls : list R) : R := fold_right Rplus 0 ls.

Lemma loop_running_mean (s : t) (bs : list batch) (ls : list R) (s' : t) :
  through s bs ls s' ->
  forall (k : nat) (m : R),
    loop s bs (Num m) (INR k + 1)
    = (Ok (Num ((INR k * m + total ls) / INR (k + length ls))), s') \/
    (ls = [] /\ loop s bs (Num m) (INR k + 1) = (Ok (Num m), s')).
Proof.
  induction 1 as [s|s b bs l ls s' Hstep Hrest IH]; intros k m.
  - right. split; reflexivity.
  - left. unfold loop. cbn [train_loop].
    rewrite (surjective_pairing (train_step _ _ _ _ s b)), Hstep.
    cbn [fl_lift2]. fold loop.
    replace (INR k + 1 + 1) with (INR (S k) + 1) by (rewrite S_INR; ring).
    assert (Hk : INR k + 1 <> 0) by (pose proof (pos_INR k); lra).
    destruct (IH (S k) (m + (l - m) * (1 / (INR k + 1)))) as [E|[-> E]];
      rewrite E; f_equal; f_equal; f_equal.
    + replace (k + length (l :: ls))%nat with (S k + length ls)%nat
        by (cbn; lia).
      f_equal. cbn [total fold_right]. rewrite S_INR. fold (total ls).
      field. exact Hk.
    + cbn [length total fold_right]. rewrite Nat.add_1_r, S_INR.
      field. exact Hk.
Qed.

End WithCollaborators.
End TrainerLoopFacts.

Import Trainer DictFacts TrainerFacts TrainerLoopFacts.

(** Without a mask, gradient clipping (on by default, [clip_grad=1.0])
    makes the first batch of [train_epoch] raise: [AttributeError] from
    [self.mask.parameters()], unless a NaN hook has raised [ValueError]
    before; no parameter value changes. *)
Theorem clipping_without_mask_raises
    (batch : Type)
    (forward_backward :
       list parameter -> option (list parameter) -> batch ->
       fl * list (option (list fl)) * list (option (list fl)))
    (clip_grad_norm_ : list parameter -> R -> list parameter)
    (optimizer_step update_mask : list parameter -> list parameter)
    (cfg : config) (self : t) (c : R) (b : batch) (bs : list batch) :
  __init__ cfg = Ok self ->
  cfg_mask cfg = None -> cfg_clip_grad cfg = Some c ->
  (fst (train_epoch forward_backward clip_grad_norm_ optimizer_step
                    update_mask self (b :: bs)) = Raise AttributeError \/
   (fst (train_epoch forward_backward clip_grad_norm_ optimizer_step
                     update_mask self (b :: bs)) = Raise ValueError /\
    cfg_skip_NAN cfg = false)) /\
  map p_data (recon (snd (train_epoch forward_backward clip_grad_norm_
                            optimizer_step update_mask self (b :: bs))))
  = map p_data (cfg_recon cfg).
Proof.
  intros Hi Hm Hc.
  destruct (init_metrics cfg self Hi) as (_ & _ & E2 & E3 & E4 & E5).
  destruct (init_fields cfg self Hi) as (_ & E6 & _).
  rewrite Hm in E2, E3. rewrite Hc in E6.
  destruct (step_clipping_without_mask batch forward_backward clip_grad_norm_
              optimizer_step update_mask self b c E2 E3 E6) as [Hr Hd].
  unfold train_epoch. cbn [train_loop].
  destruct (train_step _ _ _ _ self b) as [r self']. cbn [fst snd] in Hr, Hd.
  rewrite <- E5, <- Hd.
  destruct Hr as [-> | [-> Hh]]; cbn [fst snd].
  - split; [left; reflexivity | reflexivity].
  - split; [right; split; [reflexivity|] | reflexivity].
    rewrite Hh in E4. destruct (cfg_skip_NAN cfg); [discriminate|reflexivity].
Qed.

Lemma clipping_without_mask_raises_witness :
  exists self,
    __init__ (Config [TorchParam [Num 1] None true] 5 true None "l2" None None
                     false "unrolled_admm" None (Some 1)) = Ok self /\
    (fst (train_epoch (fun _ _ (_ : unit) => (Num 1, [Some [Num 2]], []))
            (fun ps _ => ps) (fun ps => ps) (fun ps => ps) self [tt])
       = Raise AttributeError \/
     (fst (train_epoch (fun _ _ (_ : unit) => (Num 1, [Some [Num 2]], []))
             (fun ps _ => ps) (fun ps => ps) (fun ps => ps) self [tt])
        = Raise ValueError /\ false = false)) /\
    map p_data
      (recon (snd (train_epoch (fun _ _ (_ : unit) => (Num 1, [Some [Num 2]], []))
                     (fun ps _ => ps) (fun ps => ps) (fun ps => ps) self [tt])))
    = map p_data [TorchParam [Num 1] None true].
Proof.
  eexists. split; [reflexivity|].
  apply (clipping_without_mask_raises unit
           (fun _ _ (_ : unit) => (Num 1, [Some [Num 2]], []))
           (fun ps _ => ps) (fun ps => ps) (fun ps => ps)
           (Config [TorchParam [Num 1] None true] 5 true None "l2" None None
                   false "unrolled_admm" None (Some 1)) _ 1 tt []);
    reflexivity.
Defined.



(** When every batch leads to an optimizer step, [train_epoch] returns the
    arithmetic mean of the losses of the batches; on an empty loader it
    returns 0. *)
Theorem train_epoch_returns_mean_loss
    (batch : Type)
    (forward_backward :
       list parameter -> option (list parameter) -> batch ->
       fl * list (option (list fl)) * list (option (list fl)))
    (clip_grad_norm_ : list parameter -> R -> list parameter)
    (optimizer_step update_mask : list parameter -> list parameter)
    (self s' : t) (bs : list batch) (ls : list R) :
  steps_through forward_backward clip_grad_norm_ optimizer_step update_mask
                self bs ls s' ->
  train_epoch forward_backward clip_grad_norm_ optimizer_step update_mask
              self bs
  = (Ok (Num (match bs with [] => 0 | _ => mean ls end)), s').
Proof.
  intros Hrun. unfold train_epoch.
  destruct (loop_running_mean batch forward_backward clip_grad_norm_
              optimizer_step update_mask self bs ls s' Hrun 0 0) as [E|[-> E]];
    cbn [INR] in E; rewrite Rplus_0_l in E; rewrite E.
  - destruct bs as [|b bs]; [inversion Hrun; subst; cbn; f_equal; f_equal; f_equal;
                             unfold total, Rdiv; cbn; ring|].
    unfold mean, total. rewrite Rmult_0_l, Rplus_0_l. reflexivity.
  - inversion Hrun; subst. reflexivity.
Qed.

Lemma train_epoch_returns_mean_loss_witness :
  exists s',
    train_epoch (fun _ _ (l : R) => (Num l, [Some [Num 0]], []))
                (fun ps _ => ps) (fun ps => ps) (fun ps => ps)
                (Build [TorchParam [Num 1] None true] true None false None
                       false None None [] true [])
                [2; 4]
    = (Ok (Num (mean [2; 4])), s').
Proof.
  eexists.
  apply (train_epoch_returns_mean_loss R
           (fun _ _ (l : R) => (Num l, [Some [Num 0]], []))
           (fun ps _ => ps) (fun ps => ps) (fun ps => ps)
           (Build [TorchParam [Num 1] None true] true None false None
                  false None None [] true [])
           _ [2; 4] [2; 4]).
  apply steps_cons; [reflexivity|].
  apply steps_cons; [reflexivity|].
  apply steps_nil.
Defined.

(** A [metric_for_best_model] that is a key of the metrics dictionary but
    not a metric of the benchmark (["LOSS"], ["n_iter"], ["best_epoch"],
    ...) passes the assertion of the constructor; the first [evaluate] then
    raises [KeyError], after the loss has been appended. *)
Theorem unreported_best_model_metric_raises_KeyError
    (benchmark : list parameter -> dict R)
    (mask_l1 : list parameter -> R)
    (cfg : config) (self : t) (mean_loss : fl) (k : string) :
  __init__ cfg = Ok self ->
  cfg_has_test_dataset cfg = true ->
  cfg_metric_for_best_model cfg = Some k ->
  ~ In k benchmark_names ->
  (forall r, reports (benchmark r)) ->
  fst (evaluate benchmark mask_l1 self mean_loss) = Raise KeyError /\
  dict_get (metrics (snd (evaluate benchmark mask_l1 self mean_loss))) "LOSS"
  = Ok (VList [mean_loss]).
Proof.
  intros Hi Ht Hk Hn Hb.
  destruct (init_metrics cfg self Hi) as ((Ha & _) & _).
  destruct (init_fields cfg self Hi) as (E1 & _ & _ & _ & Em).
  rewrite Ht in E1. rewrite Hk in Em. unfold evaluate. rewrite E1. cbn [negb].
  assert (E0 : dict_get (metrics self) "LOSS" = Ok (VList []))
    by (rewrite Em; reflexivity).
  rewrite (dict_append_list _ _ [] mean_loss E0). cbn [app].
  set (d0 := dict_set (metrics self) "LOSS" (VList [mean_loss])).
  destruct (Hb (recon self)) as [Hnd Hkeys].
  pose proof (loss_not_reported _ (Hb (recon self))) as Hloss.
  assert (Hother : forall k', k' <> "LOSS"%string ->
                     dict_get d0 k' = dict_get (metrics self) k')
    by (intros k' Hne; apply dict_get_set_other; exact Hne).
  destruct (append_current_spec (benchmark (recon self)) d0 Hnd)
    as (d' & Er & _ & _ & Or).
  { intros k' Hin. rewrite Hother by (intros ->; apply Hloss, Hin).
    destruct (Ha k') as (l & E & _); [right; apply Hkeys, Hin|]. exists l; exact E. }
  rewrite Er.
  assert (Hm : dict_get d' "metric_for_best_model" = Ok (VStr k)).
  { rewrite Or, Hother; [rewrite Em; reflexivity|discriminate|].
    intros Hin. apply Hkeys in Hin. cbn in Hin.
    repeat (destruct Hin as [Hin|Hin]; [discriminate|]). exact Hin. }
  rewrite Hm.
  rewrite (dict_get_missing (benchmark (recon self)) k)
    by (intros Hin; apply Hn, Hkeys, Hin).
  cbn [bind fst snd with_metrics metrics]. split; [reflexivity|].
  rewrite (Or _ Hloss). unfold d0.
  apply (dict_get_set_same _ _ (VList [])), E0.
Qed.

Lemma unreported_best_model_metric_raises_KeyError_witness :
  exists self,
    __init__ (Config [TorchParam [Num 1] None true] 5 true None "l2" None None
                     false "unrolled_admm" (Some "LOSS"%string) None) = Ok self /\
    fst (evaluate zero_benchmark (fun _ => 0) self (Num 1)) = Raise KeyError /\
    dict_get (metrics (snd (evaluate zero_benchmark (fun _ => 0) self (Num 1))))
             "LOSS" = Ok (VList [Num 1]).
Proof.
  eexists. split; [reflexivity|].
  apply (unreported_best_model_metric_raises_KeyError zero_benchmark
           (fun _ => 0)
           (Config [TorchParam [Num 1] None true] 5 true None "l2" None None
                   false "unrolled_admm" (Some "LOSS"%string) None)
           _ (Num 1) "LOSS").
  - reflexivity.
  - reflexivity.
  - reflexivity.
  - cbn. intros H.
    repeat (destruct H as [H|H]; [discriminate|]). exact H.
  - exact zero_benchmark_reports.
Defined.


(** * The training loop: a skipped step is never recovered from *)

Module StallFacts.
Import Trainer DictFacts TrainerFacts.

Definition grad_nan (p : parameter) : bool :=
  match p_grad p with Some g => has_nan g | None => false end.

Lemma any_grad_nan_alt (ps : list parameter) :
  any_grad_nan ps = existsb grad_nan ps.
Proof. reflexivity. Qed.

Lemma has_nan_sum (old new : list fl) :
  length new = length old -> has_nan old = true ->
  has_nan (map (fun ab => fl_lift2 Rplus (fst ab) (snd ab)) (combine old new))
  = true.
Proof.
  revert new. induction old as [|a old IH]; intros [|b new] Hl Hn;
    cbn in *; try discriminate.
  apply orb_true_iff in Hn. apply orb_true_iff.
  destruct Hn as [Ha|Hn].
  - left. destruct a; try discriminate. reflexivity.
  - right. apply IH; [lia|exact Hn].
Qed.

Lemma length_sum (old new : list fl) :
  length new = length old ->
  length (map (fun ab => fl_lift2 Rplus (fst ab) (snd ab)) (combine old new))
  = length old.
Proof. intros Hl. rewrite length_map, length_combine, Hl. apply Nat.min_id. Qed.

Section Accumulate.
Variable batch : Type.
Variable forward_backward :
  list parameter -> option (list parameter) -> batch ->
  fl * list (option (list fl)) * list (option (list fl)).
Variable clip_grad_norm_ : list parameter -> R -> list parameter.
Variable optimizer_step : list parameter -> list parameter.
Variable update_mask : list parameter -> list parameter.

Lemma accumulate_data (p : parameter) (g : option (list fl)) :
  p_data (accumulate p g) = p_data p.
Proof. destruct g; reflexivity. Qed.

Lemma accumulate_shaped (p : parameter) (g : option (list fl)) :
  (forall old, p_grad p = Some old -> length old = length (p_data p)) ->
  (forall new, g = Some new -> length new = length (p_data p)) ->
  forall r, p_grad (accumulate p g) = Some r ->
            length r = length (p_data (accumulate p g)).
Proof.
  intros Ho Hn r. rewrite accumulate_data. destruct g as [new|]; cbn.
  - destruct (p_grad p) as [old|] eqn:E; intros [= <-].
    + rewrite length_sum; [apply Ho; reflexivity|].
      rewrite (Hn new eq_refl), (Ho old eq_refl). reflexivity.
    + apply Hn. reflexivity.
  - apply Ho.
Qed.

Lemma accumulate_nan (p : parameter) (g : option (list fl)) :
  (forall old, p_grad p = Some old -> length old = length (p_data p)) ->
  (forall new, g = Some new -> length new = length (p_data p)) ->
  grad_nan p = true -> grad_nan (accumulate p g) = true.
Proof.
  intros Ho Hn. unfold grad_nan. destruct g as [new|]; cbn; [|auto].
  destruct (p_grad p) as [old|]; [|discriminate].
  intros H. apply has_nan_sum; [|exact H].
  rewrite (Hn new eq_refl), (Ho old eq_refl). reflexivity.
Qed.

Lemma accumulate_all_shaped (ps : list parameter)
    (gs : list (option (list fl))) :
  grad_shaped ps -> shaped ps gs -> grad_shaped (accumulate_all ps gs).
Proof.
  revert gs. induction ps as [|p ps IH]; intros gs Hg Hs; [exact Hg|].
  destruct gs as [|g gs]; [exact Hg|].
  cbn [accumulate_all]. destruct Hs as [Hs1 Hs2].
  intros q r [<-|Hin] Hr.
  - apply (accumulate_shaped p g); [| |exact Hr].
    + intros old. apply Hg. left. reflexivity.
    + intros new ->. exact Hs1.
  - apply (IH gs); [|exact Hs2|exact Hin|exact Hr].
    intros q' r' Hin'. apply Hg. right. exact Hin'.
Qed.

Lemma accumulate_all_nan (ps : list parameter)
    (gs : list (option (list fl))) :
  grad_shaped ps -> shaped ps gs ->
  any_grad_nan ps = true -> any_grad_nan (accumulate_all ps gs) = true.
Proof.
  rewrite !any_grad_nan_alt.
  revert gs. induction ps as [|p ps IH]; intros gs Hg Hs Hn; [discriminate|].
  destruct gs as [|g gs]; [exact Hn|].
  cbn [accumulate_all existsb] in *. destruct Hs as [Hs1 Hs2].
  apply orb_true_iff in Hn. apply orb_true_iff. destruct Hn as [Hn|Hn].
  - left. apply accumulate_nan; [| |exact Hn].
    + intros old. apply Hg. left. reflexivity.
    + intros new ->. exact Hs1.
  - right. apply IH; [|exact Hs2|exact Hn].
    intros q' r' Hin'. apply Hg. right. exact Hin'.
Qed.

Hypothesis Hback : backward_shaped forward_backward.
Hypothesis Hclip : clipping_scales clip_grad_norm_.

Let step := train_step forward_backward clip_grad_norm_ optimizer_step
                       update_mask.
Let loop := train_loop forward_backward clip_grad_norm_ optimizer_step
                       update_mask.

(** A trainer that skips on NaN, has a mask, and holds gradients of the
    right shapes. *)
Definition skipping (s : t) : Prop :=
  skip_NAN s = true /\ nan_hooks s = false /\ use_mask s = true /\
  exists mps, mask s = Some mps /\ grad_shaped (recon s) /\ grad_shaped mps.

(** Such a trainer with a NaN among the stored gradients. *)
Definition stalled (s : t) : Prop :=
  skipping s /\
  exists mps, mask s = Some mps /\
              (any_grad_nan (recon s) || any_grad_nan mps)%bool = true.

Lemma step_spec (s : t) (b : batch) :
  skipping s ->
  (exists l, fst (step s b) = Ok (Stepped l) /\ ~ stalled s) \/
  ((fst (step s b) = Raise AssertionError \/
    (fst (step s b) = Ok Skipped /\ stalled (snd (step s b)))) /\
   skipping (snd (step s b)) /\
   (stalled s -> stalled (snd (step s b))) /\
   map p_data (recon (snd (step s b))) = map p_data (recon s) /\
   option_map (map p_data) (mask (snd (step s b)))
   = option_map (map p_data) (mask s)).
Proof.
  intros (Hsk & Hnh & Hum & mps & Hmk & Hgr & Hgm).
  destruct s as [r htd lp sk mk um l1 cg mt nh pr].
  cbn [skip_NAN nan_hooks use_mask mask recon] in *. subst sk nh um mk.
  unfold step, train_step. cbn [recon mask nan_hooks andb].
  destruct (Hback r (Some mps) b) as [Hs1 Hs2]. specialize (Hs2 mps eq_refl).
  destruct (forward_backward r (Some mps) b) as [[loss gr] gm].
  cbn [fst snd] in Hs1, Hs2.
  pose proof (accumulate_all_shaped r gr Hgr Hs1) as A1.
  pose proof (accumulate_all_shaped mps gm Hgm Hs2) as A2.
  pose proof (accumulate_all_nan r gr Hgr Hs1) as N1.
  pose proof (accumulate_all_nan mps gm Hgm Hs2) as N2.
  pose proof (accumulate_all_data r gr) as D1.
  pose proof (accumulate_all_data mps gm) as D2.
  set (r1 := accumulate_all r gr) in *. set (m1 := accumulate_all mps gm) in *.
  cbn [with_params use_mask mask mask_parameters clip_grad_norm skip_NAN recon
       has_test_dataset lpips l1_mask metrics nan_hooks printed].
  assert (Hall : forall ra ma pr',
    grad_shaped ra -> grad_shaped ma ->
    (any_grad_nan r = true -> any_grad_nan ra = true) ->
    (any_grad_nan mps = true -> any_grad_nan ma = true) ->
    skipping (Build ra htd lp true (Some ma) true l1 cg mt false pr') /\
    (stalled (Build r htd lp true (Some mps) true l1 cg mt false pr) ->
     stalled (Build ra htd lp true (Some ma) true l1 cg mt false pr'))).
  { intros ra ma pr' Sa Sm Na Nm.
    assert (K : skipping (Build ra htd lp true (Some ma) true l1 cg mt false pr')).
    { unfold skipping. cbn. repeat split. exists ma. repeat split; assumption. }
    split; [exact K|]. intros (_ & mps' & E & Hn). cbn in E.
    injection E as <-. cbn [recon] in Hn.
    split; [exact K|]. exists ma. split; [reflexivity|]. cbn [recon].
    apply orb_true_iff in Hn. apply orb_true_iff.
    destruct Hn as [Hn|Hn]; [left; apply Na, Hn|right; apply Nm, Hn]. }
  destruct (forallb _ m1).
  2:{ right.
      cbn [fst snd option_map with_params use_mask mask clip_grad_norm
           skip_NAN recon has_test_dataset lpips l1_mask metrics nan_hooks
           printed].
      destruct (Hall r1 m1 pr A1 A2 N1 N2) as [K1 K2].
      split; [left; reflexivity|]. split; [exact K1|]. split; [exact K2|].
      rewrite D1, D2. split; reflexivity. }
  assert (Hfacts : forall c,
    grad_shaped (clip_grad_norm_ r1 c) /\ grad_shaped (clip_grad_norm_ m1 c) /\
    (any_grad_nan r = true -> any_grad_nan (clip_grad_norm_ r1 c) = true) /\
    (any_grad_nan mps = true -> any_grad_nan (clip_grad_norm_ m1 c) = true) /\
    map p_data (clip_grad_norm_ r1 c) = map p_data r /\
    map p_data (clip_grad_norm_ m1 c) = map p_data mps).
  { intros c. destruct (Hclip r1 c) as (C1 & C2 & C3).
    destruct (Hclip m1 c) as (C4 & C5 & C6).
    repeat split; auto; congruence. }
  destruct cg as [c|];
    [destruct (Hfacts c) as (S1 & S2 & K1 & K2 & E1 & E2);
     set (r2 := clip_grad_norm_ r1 c) in *;
     set (m2 := clip_grad_norm_ m1 c) in *
    |pose proof A1 as S1; pose proof A2 as S2; pose proof N1 as K1;
     pose proof N2 as K2; pose proof D1 as E1; pose proof D2 as E2;
     set (r2 := r1) in *; set (m2 := m1) in *];
    cbn [with_params use_mask mask mask_parameters clip_grad_norm skip_NAN
         recon has_test_dataset lpips l1_mask metrics nan_hooks printed];
    (destruct (any_grad_nan r2) eqn:Er, (any_grad_nan m2) eqn:Em;
     cbn [orb print with_params use_mask mask mask_parameters clip_grad_norm
          skip_NAN recon has_test_dataset lpips l1_mask metrics nan_hooks
          printed fst snd option_map];
     [right|right|right|left]);
    try (eexists; split; [reflexivity|];
         intros (_ & mps' & E & Hn); cbn in E; injection E as <-;
         cbn [recon] in Hn; apply orb_true_iff in Hn;
         destruct Hn as [Hn|Hn]; [apply K1 in Hn|apply K2 in Hn]; congruence);
    unfold print, with_params;
    cbn [use_mask mask clip_grad_norm skip_NAN recon has_test_dataset lpips
         l1_mask metrics nan_hooks printed];
    match goal with
    | |- (_ \/ (_ /\ stalled (Build ?ra _ _ _ (Some ?ma) _ _ _ _ _ ?pr'))) /\ _ =>
      assert (K1' : any_grad_nan r = true -> any_grad_nan ra = true)
        by (rewrite Er; exact K1);
      assert (K2' : any_grad_nan mps = true -> any_grad_nan ma = true)
        by (rewrite Em; exact K2);
      destruct (Hall ra ma pr' S1 S2 K1' K2') as [Q1 Q2];
      (split; [right; split; [reflexivity|]|
               split; [exact Q1|split; [exact Q2|rewrite E1, E2; split; reflexivity]]]);
      split; [exact Q1|]; exists ma; (split; [reflexivity|]); cbn [recon];
      rewrite Er, Em; reflexivity
    end.
Qed.

Lemma loop_stalled (bs : list batch) (s : t) (m : fl) (i : R) :
  stalled s ->
  (fst (loop s bs m i) = Ok m \/ fst (loop s bs m i) = Raise AssertionError) /\
  map p_data (recon (snd (loop s bs m i))) = map p_data (recon s) /\
  option_map (map p_data) (mask (snd (loop s bs m i)))
  = option_map (map p_data) (mask s).
Proof.
  revert s i. induction bs as [|b bs IH]; intros s i Hst.
  - cbn. auto.
  - unfold loop. cbn [train_loop]. fold step. fold loop.
    destruct (step_spec s b (proj1 Hst))
      as [(l & _ & Hn) | (Ho & _ & Hkeep & D1 & D2)]; [contradiction|].
    specialize (Hkeep Hst).
    destruct (step s b) as [o s1]. cbn [fst snd] in *.
    destruct Ho as [-> | [-> _]].
    + cbn [fst snd]. auto.
    + destruct (IH s1 (i + 1) Hkeep) as (I1 & I2 & I3).
      split; [exact I1|]. split; congruence.
Qed.

End Accumulate.

Lemma nan_everywhere_shaped : backward_shaped nan_everywhere.
Proof.
  intros ps m b. unfold nan_everywhere. cbn [fst snd]. split.
  - induction ps as [|p ps IH]; cbn; [exact I|].
    split; [apply length_map|exact IH].
  - intros mps ->. induction mps as [|q qs IH]; cbn; [exact I|].
    split; [apply length_map|exact IH].
Qed.

Lemma identity_clipping_scales : clipping_scales (fun ps _ => ps).
Proof. intros ps c. auto. Qed.

End StallFacts.

Import Trainer DictFacts TrainerFacts StallFacts.

(** With [skip_NAN=True] and a mask, a step that is skipped for a NaN
    gradient is never recovered from: the gradients are only zeroed after
    an optimizer step, so the NaN stays stored and every later batch of the
    loop is skipped too (unless the assertion on the gradients of the mask
    fails).  The loop returns the running loss it had, and no parameter
    value of the model or of the mask changes any more. *)
Theorem skipped_step_stalls_training
    (batch : Type)
    (forward_backward :
       list parameter -> option (list parameter) -> batch ->
       fl * list (option (list fl)) * list (option (list fl)))
    (clip_grad_norm_ : list parameter -> R -> list parameter)
    (optimizer_step update_mask : list parameter -> list parameter)
    (s : t) (mps : list parameter) (b : batch) (bs : list batch)
    (m : fl) (i : R) :
  backward_shaped forward_backward -> clipping_scales clip_grad_norm_ ->
  skip_NAN s = true -> nan_hooks s = false -> use_mask s = true ->
  mask s = Some mps -> grad_shaped (recon s) -> grad_shaped mps ->
  fst (train_step forward_backward clip_grad_norm_ optimizer_step update_mask
                  s b) = Ok Skipped ->
  (fst (train_loop forward_backward clip_grad_norm_ optimizer_step update_mask
                   s (b :: bs) m i) = Ok m \/
   fst (train_loop forward_backward clip_grad_norm_ optimizer_step update_mask
                   s (b :: bs) m i) = Raise AssertionError) /\
  map p_data (recon (snd (train_loop forward_backward clip_grad_norm_
                            optimizer_step update_mask s (b :: bs) m i)))
  = map p_data (recon s) /\
  option_map (map p_data)
    (mask (snd (train_loop forward_backward clip_grad_norm_ optimizer_step
                  update_mask s (b :: bs) m i)))
  = Some (map p_data mps).
Proof.
  intros Hback Hclip Hsk Hnh Hum Hmk Hgr Hgm Hskip.
  assert (Hs : skipping s).
  { unfold skipping. repeat split; try assumption. exists mps. auto. }
  destruct (step_spec batch forward_backward clip_grad_norm_ optimizer_step
              update_mask Hback Hclip s b Hs)
    as [(l & El & _) | (Ho & _ & _ & D1 & D2)]; [congruence|].
  destruct Ho as [Ho | [_ Hst]]; [congruence|].
  cbn [train_loop].
  destruct (train_step _ _ _ _ s b) as [o s1]. cbn [fst snd] in *. subst o.
  destruct (loop_stalled batch forward_backward clip_grad_norm_ optimizer_step
              update_mask Hback Hclip bs s1 m (i + 1) Hst) as (I1 & I2 & I3).
  split; [exact I1|]. split; [congruence|].
  rewrite I3, D2, Hmk. reflexivity.
Qed.

Lemma skipped_step_stalls_training_witness :
  let s := Build [TorchParam [Num 1] None true] true None true
                 (Some [TorchParam [Num 2] None true]) true None (Some 1) []
                 false [] in
  (fst (train_loop nan_everywhere (fun ps _ => ps) (fun ps => ps) (fun ps => ps)
                   s [tt; tt; tt] (Num 0) 1) = Ok (Num 0) \/
   fst (train_loop nan_everywhere (fun ps _ => ps) (fun ps => ps) (fun ps => ps)
                   s [tt; tt; tt] (Num 0) 1) = Raise AssertionError) /\
  map p_data (recon (snd (train_loop nan_everywhere (fun ps _ => ps)
                            (fun ps => ps) (fun ps => ps) s [tt; tt; tt]
                            (Num 0) 1)))
  = map p_data (recon s) /\
  option_map (map p_data)
    (mask (snd (train_loop nan_everywhere (fun ps _ => ps) (fun ps => ps)
                  (fun ps => ps) s [tt; tt; tt] (Num 0) 1)))
  = Some (map p_data [TorchParam [Num 2] None true]).
Proof.
  cbv zeta.
  apply (skipped_step_stalls_training unit nan_everywhere (fun ps _ => ps)
           (fun ps => ps) (fun ps => ps)
           (Build [TorchParam [Num 1] None true] true None true
                  (Some [TorchParam [Num 2] None true]) true None (Some 1) []
                  false [])
           [TorchParam [Num 2] None true] tt [tt; tt] (Num 0) 1).
  - exact nan_everywhere_shaped.
  - exact identity_clipping_scales.
  - reflexivity.
  - reflexivity.
  - reflexivity.
  - reflexivity.
  - intros p g [<-|[]]; discriminate.
  - intros p g [<-|[]]; discriminate.
  - reflexivity.
Defined.


(** * The norm of the gradient of a model *)

Module GradientFacts.

Lemma sum_squares_nonneg (l : list R) : 0 <= sum_squares l.
Proof.
  induction l as [|x l IH]; [change (sum_squares []) with 0; lra|].
  change (sum_squares (x :: l)) with (x * x + sum_squares l).
  pose proof (Rle_0_sqr x) as H. unfold Rsqr in H. lra.
Qed.

Lemma sum_squares_app (l1 l2 : list R) :
  sum_squares (l1 ++ l2) = sum_squares l1 + sum_squares l2.
Proof.
  induction l1 as [|x l1 IH];
    [cbn [app]; change (sum_squares []) with 0; lra|].
  change (sum_squares ((x :: l1) ++ l2)) with (x * x + sum_squares (l1 ++ l2)).
  change (sum_squares (x :: l1)) with (x * x + sum_squares l1).
  rewrite IH. lra.
Qed.

Lemma fold_squares (g : list R) (acc : R) :
  fold_left (fun a x => fl_lift2 Rplus a (fl_lift2 Rmult x x))
            (map Num g) (Num acc)
  = Num (acc + sum_squares g).
Proof.
  revert acc. induction g as [|x g IH]; intros acc.
  - cbn [map fold_left]. change (sum_squares []) with 0. f_equal. lra.
  - cbn [map fold_left fl_lift2]. rewrite IH.
    change (sum_squares (x :: g)) with (x * x + sum_squares g).
    f_equal. lra.
Qed.

Lemma norm2_numeric (g : list R) : norm2 (map Num g) = Num (sqrt (sum_squares g)).
Proof. unfold norm2. rewrite fold_squares. cbn. rewrite Rplus_0_l. reflexivity. Qed.

Lemma accumulate_norms_numeric (ps : list parameter) (gs : list (list R))
    (acc : R) :
  map p_grad ps = map (fun g => Some (map Num g)) gs ->
  accumulate_norms ps (Num acc) = Ok (Num (acc + sum_squares (concat gs))).
Proof.
  revert gs acc. induction ps as [|p ps IH]; intros [|g gs] acc H;
    cbn in H; try discriminate.
  - cbn [accumulate_norms concat]. change (sum_squares []) with 0.
    f_equal. f_equal. lra.
  - injection H as Hp Hrest. cbn [accumulate_norms]. rewrite Hp.
    rewrite norm2_numeric. cbn [fl_lift2].
    rewrite sqrt_sqrt by apply sum_squares_nonneg.
    rewrite (IH gs _ Hrest). cbn [concat]. rewrite sum_squares_app.
    f_equal. f_equal. lra.
Qed.

Lemma accumulate_norms_missing (model : list parameter) (p : parameter)
    (acc : fl) :
  In p model -> p_grad p = None ->
  accumulate_norms model acc = Raise AttributeError.
Proof.
  intros Hin Hp. revert acc.
  induction model as [|q qs IH]; intros acc; [destruct Hin|].
  cbn [accumulate_norms]. destruct (p_grad q) as [g|] eqn:Eq; [|reflexivity].
  apply IH. destruct Hin as [->|Hin]; [congruence|exact Hin].
Qed.

End GradientFacts.

Import GradientFacts.

(** [measure_gradient] returns the Euclidean norm of all the entries of all
    the gradients of the model taken together (for a model without
    parameters, 0); a parameter that has no gradient makes it raise
    [AttributeError]. *)
Theorem measure_gradient_is_euclidean_norm (model : list parameter) :
  (forall gs : list (list R),
      map p_grad model = map (fun g => Some (map Num g)) gs ->
      measure_gradient model = Ok (Num (sqrt (sum_squares (concat gs)))) /\
      0 <= sqrt (sum_squares (concat gs))) /\
  (forall p, In p model -> p_grad p = None ->
             measure_gradient model = Raise AttributeError).
Proof.
  split.
  - intros gs H. unfold measure_gradient.
    rewrite (accumulate_norms_numeric model gs 0 H). cbn [bind fl_sqrt].
    rewrite Rplus_0_l. split; [reflexivity|apply sqrt_pos].
  - intros p Hin Hp. unfold measure_gradient.
    rewrite (accumulate_norms_missing model p (Num 0) Hin Hp). reflexivity.
Qed.

Lemma measure_gradient_is_euclidean_norm_witness :
  measure_gradient [TorchParam [Num 0] (Some [Num 3]) true;
                    TorchParam [Num 0; Num 0] (Some [Num 0; Num 4]) true]
  = Ok (Num (sqrt (sum_squares (concat [[3]; [0; 4]])))) /\
  0 <= sqrt (sum_squares (concat [[3]; [0; 4]])).
Proof.
  apply (proj1 (measure_gradient_is_euclidean_norm
                  [TorchParam [Num 0] (Some [Num 3]) true;
                   TorchParam [Num 0; Num 0] (Some [Num 0; Num 4]) true])
               [[3]; [0; 4]]).
  reflexivity.
Defined.


(** * The closed-form solver: the scale of the measurement *)

Module ScaleFacts.
Import SumFacts NormalizeFacts.

(** Scaling the measurement and the candidate scales the objective. *)
Lemma objective_scaled (P Q Yc Yc' : matrix) (lmbd a : R)
    (F : nat -> nat -> R) :
  (forall i j, mentry Yc' i j = a * mentry Yc i j) ->
  tikhonov_objective P Q Yc' lmbd (fun k l => a * F k l)
  = a * a * tikhonov_objective P Q Yc lmbd F.
Proof.
  intros HY. unfold tikhonov_objective.
  rewrite Rmult_plus_distr_l. f_equal.
  - rewrite <- Rsum_scal_l. apply Rsum_ext. intros i _.
    rewrite <- Rsum_scal_l. apply Rsum_ext. intros j _.
    rewrite HY.
    rewrite (Rsum_ext (ncols P) _ (fun k => a * Rsum (ncols Q) (fun l =>
               mentry P i k * F k l * mentry Q j l))).
    2:{ intros k _. rewrite <- Rsum_scal_l. apply Rsum_ext. intros l _. ring. }
    rewrite Rsum_scal_l. ring.
  - rewrite (Rsum_ext (ncols P) _ (fun k => a * a * Rsum (ncols Q) (fun l =>
               F k l ^ 2))).
    2:{ intros k _. rewrite <- Rsum_scal_l. apply Rsum_ext. intros l _. ring. }
    rewrite Rsum_scal_l. ring.
Qed.

(** The solution is linear in the measurement. *)
Lemma scaled_solution (P Q Yc Yc' X X' : matrix) (lmbd a : R) :
  0 < a ->
  (forall i j, mentry Yc' i j = a * mentry Yc i j) ->
  is_tikhonov_solution P Q Yc lmbd X ->
  is_tikhonov_solution P Q Yc' lmbd X' ->
  forall k l, (k < ncols P)%nat -> (l < ncols Q)%nat ->
              mentry X' k l = a * mentry X k l.
Proof.
  intros Ha HY (_ & _ & Hmin) (_ & _ & Hmin') k l Hk Hl.
  destruct (Hmin (fun u v => / a * mentry X' u v)) as [Hle _].
  destruct (Hmin' (fun u v => a * mentry X u v)) as [Hle' Huniq].
  pose proof (objective_scaled P Q Yc Yc' lmbd a (mentry X) HY) as E1.
  pose proof (objective_scaled P Q Yc Yc' lmbd a
                (fun u v => / a * mentry X' u v) HY) as E2.
  assert (E3 : (fun u v => a * (/ a * mentry X' u v)) = mentry X').
  { extensionality u. extensionality v. field. lra. }
  cbv beta in E2. rewrite E3 in E2.
  symmetry. apply Huniq; [|assumption|assumption].
  apply Rle_antisym; [|exact Hle'].
  rewrite E1, E2. apply Rmult_le_compat_l; [nra|exact Hle].
Qed.

(** Normalisation removes a positive scale. *)
Lemma normalize01_scaled (A A' : ndarray R) (h w c : nat) (a : R) :
  shape A = (h, w, c) -> shape A' = (h, w, c) ->
  (1 <= h)%nat -> (1 <= w)%nat -> (1 <= c)%nat -> 0 < a ->
  (forall i j k, (i < h)%nat -> (j < w)%nat -> (k < c)%nat ->
                 item A' i j k = a * item A i j k) ->
  exists out out',
    normalize01 A = Ok out /\ normalize01 A' = Ok out' /\
    shape out = (h, w, c) /\ shape out' = (h, w, c) /\
    forall i j k, (i < h)%nat -> (j < w)%nat -> (k < c)%nat ->
                  item out' i j k = item out i j k.
Proof.
  intros Hs Hs' Hh Hw Hc Ha HA.
  destruct (amin_spec A h w c Hs Hh Hw Hc)
    as (lo & Elo & Llo & il & jl & kl & Hil & Hjl & Hkl & Alo).
  destruct (amax_spec A h w c Hs Hh Hw Hc)
    as (hi & Ehi & Lhi & ih & jh & kh & Hih & Hjh & Hkh & Ahi).
  destruct (amin_spec A' h w c Hs' Hh Hw Hc)
    as (lo' & Elo' & Llo' & il' & jl' & kl' & Hil' & Hjl' & Hkl' & Alo').
  destruct (amax_spec A' h w c Hs' Hh Hw Hc)
    as (hi' & Ehi' & Lhi' & ih' & jh' & kh' & Hih' & Hjh' & Hkh' & Ahi').
  assert (Eq1 : lo' = a * lo).
  { apply Rle_antisym.
    - rewrite Alo at 1. rewrite <- (HA il jl kl Hil Hjl Hkl).
      apply Llo'; assumption.
    - rewrite Alo' at 1. rewrite (HA il' jl' kl' Hil' Hjl' Hkl').
      apply Rmult_le_compat_l; [lra|]. apply Llo; assumption. }
  assert (Eq2 : hi' = a * hi).
  { apply Rle_antisym.
    - rewrite Ahi' at 1. rewrite (HA ih' jh' kh' Hih' Hjh' Hkh').
      apply Rmult_le_compat_l; [lra|]. apply Lhi; assumption.
    - rewrite Ahi at 1. rewrite <- (HA ih jh kh Hih Hjh Hkh).
      apply Lhi'; assumption. }
  unfold normalize01. rewrite Elo, Ehi, Elo', Ehi'. cbn [bind].
  eexists; eexists. split; [reflexivity|]. split; [reflexivity|].
  cbn [shape item]. split; [exact Hs|]. split; [exact Hs'|].
  intros i j k Hi Hj Hk. rewrite (HA i j k Hi Hj Hk), Eq1, Eq2.
  destruct (Req_dec_T (a * hi) (a * lo)) as [E|E],
           (Req_dec_T hi lo) as [E'|E']; try reflexivity.
  - exfalso. apply E'. apply (Rmult_eq_reg_l a); [exact E|lra].
  - exfalso. apply E. rewrite E'. reflexivity.
  - f_equal. field. split; [lra|]. intros H0. apply E'. lra.
Qed.

End ScaleFacts.

Import SolverFacts ScaleFacts.

(** [reconstruction] does not depend on the scale of the measurement: for
    tall operators with correct decompositions and a positive weight,
    multiplying the measurement by a positive factor gives the same RGB
    image (the solution before clipping is multiplied by the factor, and
    the normalisation removes it). *)
Theorem reconstruction_scale_invariant
    (svd : matrix -> matrix * vector * matrix)
    (Y Y' : ndarray R) (P Q : matrix) (lmbd a : R) :
  is_svd P (svd P) -> is_svd Q (svd Q) -> 0 < lmbd ->
  (ncols P <= nrows P)%nat -> (ncols Q <= nrows Q)%nat ->
  (1 <= ncols P)%nat -> (1 <= ncols Q)%nat ->
  shape Y = (nrows P, nrows Q, 4%nat) -> shape Y' = shape Y ->
  0 < a -> (forall i j c, item Y' i j c = a * item Y i j c) ->
  exists rgb rgb',
    reconstruction svd Y P Q lmbd = Ok rgb /\
    reconstruction svd Y' P Q lmbd = Ok rgb' /\
    forall i j k, (i < ncols P)%nat -> (j < ncols Q)%nat -> (k < 3)%nat ->
                  item rgb' i j k = item rgb i j k.
Proof.
  intros HsP HsQ Hl HtP HtQ HnP HnQ HY HY' Ha Hscale.
  rewrite HY in HY'.
  destruct (solve_channels_spec svd Y P Q lmbd HsP HsQ Hl HtP HtQ HY)
    as (Xb & Eb & Sb & Hb).
  destruct (solve_channels_spec svd Y' P Q lmbd HsP HsQ Hl HtP HtQ HY')
    as (Xb' & Eb' & Sb' & Hb').
  assert (HX : forall i j c, (i < ncols P)%nat -> (j < ncols Q)%nat ->
                 (c < 4)%nat -> item Xb' i j c = a * item Xb i j c).
  { intros i j c Hi Hj Hc.
    destruct (Hb c Hc) as (Xc & _ & Sc & Ic).
    destruct (Hb' c Hc) as (Xc' & _ & Sc' & Ic').
    rewrite Ic, Ic'.
    apply (scaled_solution P Q
             (Mat (nrows P) (nrows Q) (fun u v => item Y u v c))
             (Mat (nrows P) (nrows Q) (fun u v => item Y' u v c))
             Xc Xc' lmbd a Ha); try assumption.
    intros u v. cbn [mentry]. apply Hscale. }
  unfold reconstruction. rewrite Eb, Eb'. cbn [bind].
  unfold bayer2rgb, demosaic, clip0. cbn [shape item]. rewrite Sb, Sb'.
  cbn [Nat.ltb Nat.leb bind].
  match goal with
  | |- exists rgb rgb', normalize01 ?r = _ /\ normalize01 ?r' = _ /\ _ =>
    destruct (normalize01_scaled r r' (ncols P) (ncols Q) 3 a eq_refl eq_refl
                HnP HnQ (le_S _ _ (le_S _ _ (le_n 1))) Ha)
      as (out & out' & E1 & E2 & _ & _ & Hout)
  end.
  { intros i j k Hi Hj Hk. cbn [item].
    assert (Hm : forall x, Rmax (a * x) 0 = a * Rmax x 0).
    { intros x. unfold Rmax.
      destruct (Rle_dec (a * x) 0), (Rle_dec x 0); try ring; nra. }
    rewrite !HX by (try assumption; lia). rewrite !Hm.
    destruct k as [|[|[|k]]]; ring. }
  exists out, out'. split; [exact E1|]. split; [exact E2|exact Hout].
Qed.

Lemma reconstruction_scale_invariant_witness :
  exists rgb rgb',
    reconstruction svd_of_identities
      (NdArray (1, 1, 4)%nat (fun _ _ c => INR c)) M_one M_one 1 = Ok rgb /\
    reconstruction svd_of_identities
      (NdArray (1, 1, 4)%nat (fun _ _ c => 2 * INR c)) M_one M_one 1 = Ok rgb' /\
    forall i j k, (i < ncols M_one)%nat -> (j < ncols M_one)%nat -> (k < 3)%nat ->
                  item rgb' i j k = item rgb i j k.
Proof.
  apply (reconstruction_scale_invariant svd_of_identities
           (NdArray (1, 1, 4)%nat (fun _ _ c => INR c))
           (NdArray (1, 1, 4)%nat (fun _ _ c => 2 * INR c)) M_one M_one 1 2).
  - exact svd_of_identities_one.
  - exact svd_of_identities_one.
  - exact Rlt_0_1.
  - apply le_n.
  - apply le_n.
  - apply le_n.
  - apply le_n.
  - reflexivity.
  - reflexivity.
  - exact Rlt_0_2.
  - intros i j c. reflexivity.
Defined.
